(** * DIRE type information: catalog, normaliser and JSON codec

    A shallow embedding of [dataset-gen/decompiler/typeinfo.py].

    - Python integers are unbounded: sizes, offsets and counts are [Z], and
      [//] is [Z.div] (both round towards minus infinity for a positive
      divisor).
    - A [TypeLib] is an object with identity that owns a dictionary [_data].
      Its identity is a [lib_id]; its dictionary is a [gmap string Node]
      threaded through the operations that mutate it.
    - Exceptions are results: every operation that can raise returns an
      [outcome] next to the state it leaves behind.
    - [TypeLib.add] is recursive. Its embedding takes a budget for the depth
      of the recursion; the properties below hold for every budget that is
      large enough, and the outcome does not depend on which.
    - [ida_typeinf] (the decompiler's type introspection) is external. It is
      a record of the queries the source makes, [Provider].
    - [json.dumps] and [json.loads] are library code. They are represented by
      the JSON document they print and parse ([json]); what the source adds
      to them ([_TypeEncoder.default], the [object_hook]) is embedded. *)

From Stdlib Require Import ZArith Lia.
From stdpp Require Import gmap strings list pretty.

Set Warnings "-clear-no-such-hyp".

Local Open Scope string_scope.
Local Open Scope list_scope.
Local Open Scope Z_scope.

(** ** Outcomes and the state monad *)

Inductive exn : Type :=
| KeyError (key : string)   (* a dictionary has no such string key *)
| KeyError_tag              (* the class table of [as_typeinfo] has no such key *)
| TypeError
| ValueError.

Inductive outcome (A : Type) : Type :=
| Ok (a : A)
| Raise (e : exn)
| OutOfFuel     (* the recursion budget of the model is exhausted *)
| OutOfModel.   (* a value outside the source's type annotations *)

Arguments Ok {A} a.
Arguments Raise {A} e.
Arguments OutOfFuel {A}.
Arguments OutOfModel {A}.

Definition M (St A : Type) : Type := St -> outcome A * St.

Definition ret {St A} (a : A) : M St A := fun st => (Ok a, st).

Definition bind {St A B} (m : M St A) (k : A -> M St B) : M St B :=
  fun st =>
    match m st with
    | (Ok a, st') => k a st'
    | (Raise e, st') => (Raise e, st')
    | (OutOfFuel, st') => (OutOfFuel, st')
    | (OutOfModel, st') => (OutOfModel, st')
    end.

Definition raise {St A} (e : exn) : M St A := fun st => (Raise e, st).

Declare Scope py_scope.
Delimit Scope py_scope with py.
Notation "'let*' x := m 'in' k" := (bind m (fun x => k))
  (at level 10, x pattern, m at level 100, k at level 200) : py_scope.
Local Open Scope py_scope.

(** ** The TypeNode hierarchy *)

(** Identity of a [TypeLib] object. [TypeLib] defines no [__eq__], so
    [self.lib == other.lib] compares identities. *)
Abbreviation lib_id := nat.

(** An opaque [ida_typeinf.tinfo_t] value. *)
Abbreviation tinfo_t := nat.

(** What a [Pointer] holds in [target_type_name]: [_from_json] passes the
    string [d["t"]], [TypeLib.add] passes the [tinfo_t] returned by
    [get_pointed_object()]. *)
Inductive target : Type :=
| TName (s : string)
| TInfo (t : tinfo_t).

(** One constructor per class; every attribute the class sets is a field.
    [layout] and [members] are the tuples built by [tuple(layout)] and
    [tuple(members)]; their elements are whatever objects the caller passed. *)
#[warnings="-register-all"]
Inductive Node : Type :=
| NTypeInfo (lib : lib_id) (name : option string) (size : Z)
| NArray (lib : lib_id) (base_type_name : string) (nelements : Z) (size : Z)
| NPointer (lib : lib_id) (target_type_name : target) (name : string) (size : Z)
| NField (lib : lib_id) (name : string) (type_name : string) (size : Z)
| NPadding (size : Z)
| NStruct (lib : lib_id) (name : option string) (layout : list Node) (size : Z)
| NUnion (lib : lib_id) (name : option string) (members : list Node)
         (padding : option Node) (size : Z)
| NVoid.

(** The attribute [.size]; [Void] has the class attribute [size = 0]. *)
Definition node_size (n : Node) : Z :=
  match n with
  | NTypeInfo _ _ s | NArray _ _ _ s | NPointer _ _ _ s | NField _ _ _ s
  | NPadding s | NStruct _ _ _ s | NUnion _ _ _ _ s => s
  | NVoid => 0
  end.

(** The attribute [.lib], for the classes that set one. *)
Definition node_lib (n : Node) : option lib_id :=
  match n with
  | NTypeInfo l _ _ | NArray l _ _ _ | NPointer l _ _ _ | NField l _ _ _
  | NStruct l _ _ _ | NUnion l _ _ _ _ => Some l
  | NPadding _ | NVoid => None
  end.

(** Nested induction: the hypothesis is available for every element of a
    layout, of a member tuple, and for the padding of a union. *)
Section Node_ind.
Variable P : Node -> Prop.
Hypothesis HTypeInfo : forall l n s, P (NTypeInfo l n s).
Hypothesis HArray : forall l b n s, P (NArray l b n s).
Hypothesis HPointer : forall l t n s, P (NPointer l t n s).
Hypothesis HField : forall l n t s, P (NField l n t s).
Hypothesis HPadding : forall s, P (NPadding s).
Hypothesis HStruct : forall l n layout s,
    Forall P layout -> P (NStruct l n layout s).
Hypothesis HUnion : forall l n members padding s,
    Forall P members -> from_option P True padding ->
    P (NUnion l n members padding s).
Hypothesis HVoid : P NVoid.

Fixpoint Node_nested_ind (n : Node) : P n :=
  match n with
  | NTypeInfo l n s => HTypeInfo l n s
  | NArray l b n s => HArray l b n s
  | NPointer l t n s => HPointer l t n s
  | NField l n t s => HField l n t s
  | NPadding s => HPadding s
  | NStruct l n layout s =>
      HStruct l n layout s
        ((fix go (ns : list Node) : Forall P ns :=
            match ns with
            | [] => Forall_nil_2 P
            | x :: xs => Forall_cons_2 P x xs (Node_nested_ind x) (go xs)
            end) layout)
  | NUnion l n members padding s =>
      HUnion l n members padding s
        ((fix go (ns : list Node) : Forall P ns :=
            match ns with
            | [] => Forall_nil_2 P
            | x :: xs => Forall_cons_2 P x xs (Node_nested_ind x) (go xs)
            end) members)
        (match padding as o return from_option P True o with
         | Some q => Node_nested_ind q
         | None => I
         end)
  | NVoid => HVoid
  end.
End Node_ind.

(** ** The TypeLib catalog *)

Abbreviation TypeLib := (gmap string Node).

(** [TypeLib.__contains__] *)
Definition contains (key : string) (data : TypeLib) : bool :=
  bool_decide (is_Some (data !! key)).

(** [TypeLib.__getitem__]: [self._data[key]], [KeyError] when absent. *)
Definition getitem (key : string) : M TypeLib Node :=
  fun data =>
    match data !! key with
    | Some item => (Ok item, data)
    | None => (Raise (KeyError key), data)
    end.

(** [TypeLib.__setitem__]: stores only [if key not in self._data]. *)
Definition setitem (key : string) (item : Node) : M TypeLib unit :=
  fun data =>
    if contains key data then (Ok tt, data) else (Ok tt, <[key := item]> data).

(** ** The external type-introspection provider *)

(** [ida_typeinf.udt_member_t] after [find_udt_member]; [offset] and [size]
    are in bits. *)
Record udt_member_t : Type := {
  member_name : string;
  member_offset : Z;
  member_size : Z;
  member_type : tinfo_t;
}.

(** [ida_typeinf.array_type_data_t] after [get_array_details]. *)
Record array_type_data_t : Type := {
  elem_type : tinfo_t;
  nelems : Z;
}.

(** The queries [TypeLib.add] makes on a [tinfo_t], and [tinfo_str], the
    [__str__] an f-string applies to a [tinfo_t]. [find_udt_member t n] is
    the member found with [member.offset = n] and [STRMEM_INDEX]. *)
Record Provider : Type := {
  dstr : tinfo_t -> string;
  tinfo_str : tinfo_t -> string;
  is_void : tinfo_t -> bool;
  is_ptr : tinfo_t -> bool;
  is_array : tinfo_t -> bool;
  is_udt : tinfo_t -> bool;
  is_union : tinfo_t -> bool;
  is_struct : tinfo_t -> bool;
  get_pointed_object : tinfo_t -> tinfo_t;
  get_array_element : tinfo_t -> tinfo_t;
  get_array_details : tinfo_t -> array_type_data_t;
  get_udt_nmembers : tinfo_t -> Z;
  find_udt_member : tinfo_t -> Z -> udt_member_t;
  get_size : tinfo_t -> Z;
}.

(** ** Equality: the [__eq__] methods *)

(** [self.target_type_name == other.target_type_name]: two strings, or two
    [tinfo_t] values (equal when they denote the same type); a string never
    equals a [tinfo_t]. *)
Definition target_eq (a b : target) : bool :=
  match a, b with
  | TName s, TName s' => bool_decide (s = s')
  | TInfo t, TInfo t' => bool_decide (t = t')
  | _, _ => false
  end.

(** [a == b]. Each [__eq__] starts with an [isinstance] test on [other] and
    answers [False] when it fails. [Array], [Pointer], [Struct], [Union] and
    [Void] are subclasses of [TypeInfo] that override [__eq__], so for a
    plain [TypeInfo] on the left and one of them on the right Python calls
    the subclass method first, whose [isinstance] test fails: two nodes of
    different classes are never equal. Tuples compare element by element. *)
Fixpoint node_eq (a b : Node) {struct a} : bool :=
  match a, b with
  | NTypeInfo l n s, NTypeInfo l' n' s' =>
      bool_decide (l = l') && bool_decide (n = n') && bool_decide (s = s')
  | NArray l b n _, NArray l' b' n' _ =>
      bool_decide (l = l') && bool_decide (n = n') && bool_decide (b = b')
  | NPointer l t _ _, NPointer l' t' _ _ =>
      bool_decide (l = l') && target_eq t t'
  | NField l n t _, NField l' n' t' _ =>
      bool_decide (l = l') && bool_decide (n = n') && bool_decide (t = t')
  | NPadding s, NPadding s' => bool_decide (s = s')
  | NStruct l n layout _, NStruct l' n' layout' _ =>
      bool_decide (l = l') && bool_decide (n = n') &&
      (fix tuple_eq (xs ys : list Node) {struct xs} : bool :=
         match xs, ys with
         | [], [] => true
         | x :: xs', y :: ys' => node_eq x y && tuple_eq xs' ys'
         | _, _ => false
         end) layout layout'
  | NUnion l n members padding _, NUnion l' n' members' padding' _ =>
      bool_decide (l = l') && bool_decide (n = n') &&
      (fix tuple_eq (xs ys : list Node) {struct xs} : bool :=
         match xs, ys with
         | [], [] => true
         | x :: xs', y :: ys' => node_eq x y && tuple_eq xs' ys'
         | _, _ => false
         end) members members' &&
      match padding, padding' with
      | None, None => true
      | Some p, Some p' => node_eq p p'
      | _, _ => false
      end
  | NVoid, NVoid => true
  | _, _ => false
  end.

(** The tuple comparison used by [Struct.__eq__] and [Union.__eq__]. *)
Fixpoint tuple_eq (xs ys : list Node) : bool :=
  match xs, ys with
  | [], [] => true
  | x :: xs', y :: ys' => node_eq x y && tuple_eq xs' ys'
  | _, _ => false
  end.

(** [self.padding == other.padding] on [Optional[UDT.Padding]]. *)
Definition padding_eq (p q : option Node) : bool :=
  match p, q with
  | None, None => true
  | Some p, Some q => node_eq p q
  | _, _ => false
  end.

(** ** Constructors: the [__init__] methods *)

Section Classes.
Context (ida : Provider).

(** [f"{x}"] for a string or a [tinfo_t]. *)
Definition target_str (t : target) : string :=
  match t with
  | TName s => s
  | TInfo t => tinfo_str ida t
  end.

(** [Array.__str__]: [f"{self.base_type_name}[{self.nelements}]"] *)
Definition Array_str (base_type_name : string) (nelements : Z) : string :=
  base_type_name +:+ "[" +:+ pretty nelements +:+ "]".

(** [Pointer.__str__]: [f"{self.target_type_name} *"] *)
Definition Pointer_str (target_type_name : target) : string :=
  target_str target_type_name +:+ " *".

(** [TypeInfo.__init__] *)
Definition TypeInfo_init (lib : lib_id) (name : option string) (size : Z)
  : M TypeLib Node :=
  let self := NTypeInfo lib name size in
  match name with
  | Some n => let* _ := setitem n self in ret self
  | None => ret self
  end.

(** [Array.__init__]: the size needs [self.lib[base_type_name]]. *)
Definition Array_init (lib : lib_id) (base_type_name : string) (nelements : Z)
  : M TypeLib Node :=
  let* base := getitem base_type_name in
  let self := NArray lib base_type_name nelements (node_size base * nelements) in
  let* _ := setitem (Array_str base_type_name nelements) self in
  ret self.

Definition Pointer_WIDTH : Z := 8.

(** [Pointer.__init__] *)
Definition Pointer_init (lib : lib_id) (target_type_name : target)
  : M TypeLib Node :=
  let name := Pointer_str target_type_name in
  let self := NPointer lib target_type_name name Pointer_WIDTH in
  let* _ := setitem name self in
  ret self.

(** [UDT.Field.__init__]: the size is [self.lib[self.type_name].size];
    a field is not stored in the library. *)
Definition Field_init (lib : lib_id) (name : string) (type_name : string)
  : M TypeLib Node :=
  let* ty := getitem type_name in
  ret (NField lib name type_name (node_size ty)).

(** [UDT.Padding.__init__] *)
Definition Padding_init (size : Z) : Node := NPadding size.

(** A [typing.Iterable] of nodes, the declared type of the [layout] and
    [members] parameters. A sequence (a list or a tuple) gives its items
    each time it is iterated. An iterator (a generator, [iter(...)],
    [map(...)]) gives the items it has left once and nothing afterwards. *)
Inductive iterable : Type :=
| Sequence (items : list Node)
| Iterator (items : list Node).

(** [tuple(x)]: the items of the first iteration over [x]. *)
Definition tuple_of (x : iterable) : list Node :=
  match x with
  | Sequence items | Iterator items => items
  end.

(** The items a loop over [x] gets once [tuple(x)] has iterated over it. *)
Definition iterated_again (x : iterable) : list Node :=
  match x with
  | Sequence items => items
  | Iterator _ => []
  end.

(** [self.size = 0; for l in layout: self.size += l.size] *)
Definition layout_size (layout : list Node) : Z :=
  foldl (fun acc l => acc + node_size l) 0 layout.

(** [Struct.__init__]: [self.layout = tuple(layout)], and then the loop
    [for l in layout] iterates over the parameter a second time. *)
Definition Struct_init (lib : lib_id) (name : option string) (layout : iterable)
  : M TypeLib Node :=
  let self :=
    NStruct lib name (tuple_of layout) (layout_size (iterated_again layout)) in
  match name with
  | Some n => let* _ := setitem n self in ret self
  | None => ret self
  end.

(** Python's [max] over an iterable of integers: [ValueError] when empty. *)
Definition py_max (xs : list Z) : outcome Z :=
  match xs with
  | [] => Raise ValueError
  | x :: xs' => Ok (foldl Z.max x xs')
  end.

(** [try: max(m.size for m in members) except ValueError: 0], then the
    padding's size when [self.padding is not None]. *)
Definition union_size (members : list Node) (padding : option Node) : Z :=
  let size :=
    match py_max (node_size <$> members) with
    | Ok m => m
    | _ => 0
    end in
  match padding with
  | Some p => size + node_size p
  | None => size
  end.

(** [Union.__init__]: [self.members = tuple(members)], and then
    [max(m.size for m in members)] iterates over the parameter a second
    time. *)
Definition Union_init (lib : lib_id) (name : option string)
    (members : iterable) (padding : option Node) : M TypeLib Node :=
  let self :=
    NUnion lib name (tuple_of members) padding
      (union_size (iterated_again members) padding) in
  match name with
  | Some n => let* _ := setitem n self in ret self
  | None => ret self
  end.

(** [Void.__init__] *)
Definition Void_init : Node := NVoid.

End Classes.

(** ** The normaliser: [TypeLib.add] *)

(** What a call of [add] can change: the dictionary of [self], the
    [worklist] set shared by all recursive calls, and [trace], a ghost
    record of the signatures in the order line 34 ([worklist.add]) marks
    them. The code never reads [trace]. *)
Record AddState : Type := {
  lib_data : TypeLib;
  worklist : gset string;
  trace : list string;
}.

(** An operation on the library of [self], run inside [add]. *)
Definition in_lib {A} (m : M TypeLib A) : M AddState A :=
  fun st =>
    let '(r, data) := m (lib_data st) in
    (r, {| lib_data := data; worklist := worklist st; trace := trace st |}).

(** [worklist.add(typ.dstr())] *)
Definition worklist_add (sig : string) : M AddState unit :=
  fun st =>
    (Ok tt, {| lib_data := lib_data st;
               worklist := {[sig]} ∪ worklist st;
               trace := trace st ++ [sig] |}).

Section Normalizer.
Context (ida : Provider) (self : lib_id).

(** The loop of the union branch (lines 56-66); [rec] is [self.add] with
    the shared worklist, [ns] what is left of [range(nmembers)]. *)
Fixpoint union_members (rec : tinfo_t -> M AddState unit) (typ : tinfo_t)
    (ns : list Z) (members : list Node) : M AddState (list Node) :=
  match ns with
  | [] => ret members
  | n :: ns' =>
      let member := find_udt_member ida typ n in
      let type_name := dstr ida (member_type member) in
      let* _ := rec (member_type member) in
      let* field := in_lib (Field_init self (member_name member) type_name) in
      union_members rec typ ns' (members ++ [field])
  end.

(** The loop of the struct branch (lines 72-85). *)
Fixpoint struct_layout (rec : tinfo_t -> M AddState unit) (typ : tinfo_t)
    (ns : list Z) (layout : list Node) (next_offset : Z)
  : M AddState (list Node) :=
  match ns with
  | [] => ret layout
  | n :: ns' =>
      let member := find_udt_member ida typ n in
      let layout :=
        if bool_decide (member_offset member ≠ next_offset)
        then layout ++ [Padding_init ((member_offset member - next_offset) / 8)]
        else layout in
      let next_offset := member_offset member + member_size member in
      let type_name := dstr ida (member_type member) in
      let* _ := rec (member_type member) in
      let* field := in_lib (Field_init self (member_name member) type_name) in
      struct_layout rec typ ns' (layout ++ [field]) next_offset
  end.

(** [TypeLib.add(self, typ, worklist)] with a worklist that is not [None].
    [fuel] bounds the depth of the recursion. *)
Fixpoint add (fuel : nat) (typ : tinfo_t) : M AddState unit :=
  match fuel with
  | O => fun st => (OutOfFuel, st)
  | S fuel' => fun st =>
      if bool_decide (dstr ida typ ∈ worklist st) || is_void ida typ
      then (Ok tt, st)
      else
        (let* _ := worklist_add (dstr ida typ) in
         if is_ptr ida typ then
           let* _ := in_lib (Pointer_init ida self
                               (TInfo (get_pointed_object ida typ))) in
           add fuel' (get_pointed_object ida typ)
         else if is_array ida typ then
           let* _ := add fuel' (get_array_element ida typ) in
           let array_info := get_array_details ida typ in
           let base_type_name := dstr ida (elem_type array_info) in
           let* _ := in_lib (Array_init self base_type_name
                               (nelems array_info)) in
           ret tt
         else if is_udt ida typ then
           let name := dstr ida typ in
           let nmembers := get_udt_nmembers ida typ in
           if is_union ida typ then
             let* members :=
               union_members (add fuel') typ (seqZ 0 nmembers) [] in
             let* _ := in_lib (Union_init self (Some name)
                                 (Sequence members) None) in
             ret tt
           else if is_struct ida typ then
             let* layout :=
               struct_layout (add fuel') typ (seqZ 0 nmembers) [] 0 in
             let* _ := in_lib (Struct_init self (Some name)
                                 (Sequence layout)) in
             ret tt
           else ret tt
         else
           let* _ := in_lib (TypeInfo_init self (Some (dstr ida typ))
                               (get_size ida typ)) in
           ret tt) st
  end.

(** A call [lib.add(typ)] from outside: [worklist is None], so a fresh
    empty set is made. *)
Definition add_fresh (fuel : nat) (typ : tinfo_t) (data : TypeLib)
  : outcome unit * AddState :=
  add fuel typ {| lib_data := data; worklist := ∅; trace := [] |}.

End Normalizer.

(** ** Two small providers *)

(** [struct node { struct node *next; }]: handle 0 is the struct, handle 1
    the pointer to it. *)
Definition ida_self_pointer : Provider := {|
  dstr t := match t with O => "node" | _ => "node *" end;
  tinfo_str t := match t with O => "node" | _ => "node *" end;
  is_void _ := false;
  is_ptr t := match t with O => false | _ => true end;
  is_array _ := false;
  is_udt t := match t with O => true | _ => false end;
  is_union _ := false;
  is_struct t := match t with O => true | _ => false end;
  get_pointed_object _ := 0%nat;
  get_array_element _ := 0%nat;
  get_array_details _ := {| elem_type := 0; nelems := 0 |};
  get_udt_nmembers t := match t with O => 1 | _ => 0 end;
  find_udt_member _ _ :=
    {| member_name := "next"; member_offset := 0; member_size := 64;
       member_type := 1 |};
  get_size t := 8;
|}.

(** [struct pair { int a; int b; }] with [a] at bit offset 0 and [b] at bit
    offset [off_b], each 32 bits wide: handle 0 is the struct, handle 1 is
    [int]. *)
Definition ida_two_ints (off_b : Z) : Provider := {|
  dstr t := match t with O => "pair" | _ => "int" end;
  tinfo_str t := match t with O => "pair" | _ => "int" end;
  is_void _ := false;
  is_ptr _ := false;
  is_array _ := false;
  is_udt t := match t with O => true | _ => false end;
  is_union _ := false;
  is_struct t := match t with O => true | _ => false end;
  get_pointed_object _ := 0%nat;
  get_array_element _ := 0%nat;
  get_array_details _ := {| elem_type := 0; nelems := 0 |};
  get_udt_nmembers t := match t with O => 2 | _ => 0 end;
  find_udt_member _ n :=
    if bool_decide (n = 0)
    then {| member_name := "a"; member_offset := 0; member_size := 32;
            member_type := 1 |}
    else {| member_name := "b"; member_offset := off_b; member_size := 32;
            member_type := 1 |};
  get_size t := match t with O => 8 | _ => 4 end;
|}.

(** A struct [node] whose one member [rows] is a pointer to an array of
    two [node]: handle 0 is the struct, handle 1 the pointer to the array,
    handle 2 the array. *)
Definition ida_pointer_to_array_of_self : Provider := {|
  dstr t := match t with O => "node" | 1%nat => "node[2] *" | _ => "node[2]" end;
  tinfo_str t := match t with O => "node" | 1%nat => "node[2] *" | _ => "node[2]" end;
  is_void _ := false;
  is_ptr t := match t with 1%nat => true | _ => false end;
  is_array t := match t with O | 1%nat => false | _ => true end;
  is_udt t := match t with O => true | _ => false end;
  is_union _ := false;
  is_struct t := match t with O => true | _ => false end;
  get_pointed_object _ := 2%nat;
  get_array_element _ := 0%nat;
  get_array_details _ := {| elem_type := 0; nelems := 2 |};
  get_udt_nmembers t := match t with O => 1 | _ => 0 end;
  find_udt_member _ _ :=
    {| member_name := "rows"; member_offset := 0; member_size := 64;
       member_type := 1 |};
  get_size t := 8;
|}.

(** ** The codec: [TypeInfoCodec] *)

(** A JSON document. The encoder emits, and the model reads, only [null],
    integers, strings, arrays and objects; an object keeps its pairs in
    document order. *)
#[warnings="-register-all"]
Inductive json : Type :=
| JNull
| JInt (z : Z)
| JStr (s : string)
| JArr (items : list json)
| JObj (pairs : list (string * json)).

(** [mapM] in the exception monad, left to right. *)
Fixpoint outcome_mapM {A B} (f : A -> outcome B) (xs : list A) : outcome (list B) :=
  match xs with
  | [] => Ok []
  | x :: xs' =>
      match f x with
      | Ok y =>
          match outcome_mapM f xs' with
          | Ok ys => Ok (y :: ys)
          | Raise e => Raise e
          | OutOfFuel => OutOfFuel
          | OutOfModel => OutOfModel
          end
      | Raise e => Raise e
      | OutOfFuel => OutOfFuel
      | OutOfModel => OutOfModel
      end
  end.

Definition json_of_name (name : option string) : json :=
  match name with
  | Some s => JStr s
  | None => JNull
  end.

(** [TypeInfoCodec.encode]: [dumps(typeinfo, cls=_TypeEncoder, ...)]. An
    object that is not a JSON value goes through [_TypeEncoder.default],
    which calls its [_to_json] and lets [dumps] continue on the dictionary it
    returns; each branch below is the dictionary of one [_to_json]. A
    [tinfo_t] has no [_to_json]: [default] raises [TypeError]. *)
Fixpoint encode (n : Node) : outcome json :=
  match n with
  | NTypeInfo _ name size =>
      Ok (JObj [("T", JInt 0); ("n", json_of_name name); ("s", JInt size)])
  | NArray _ base_type_name nelements _ =>
      Ok (JObj [("T", JInt 1); ("b", JStr base_type_name); ("n", JInt nelements)])
  | NPointer _ target_type_name _ _ =>
      match target_type_name with
      | TName s => Ok (JObj [("T", JInt 2); ("t", JStr s)])
      | TInfo _ => Raise TypeError
      end
  | NField _ name type_name _ =>
      Ok (JObj [("T", JInt 3); ("n", JStr name); ("t", JStr type_name)])
  | NPadding size =>
      Ok (JObj [("T", JInt 4); ("s", JInt size)])
  | NStruct _ name layout _ =>
      match outcome_mapM encode layout with
      | Ok l => Ok (JObj [("T", JInt 5); ("n", json_of_name name); ("l", JArr l)])
      | Raise e => Raise e
      | OutOfFuel => OutOfFuel
      | OutOfModel => OutOfModel
      end
  | NUnion _ name members padding _ =>
      match outcome_mapM encode members with
      | Ok m =>
          match
            match padding with
            | Some p => encode p
            | None => Ok JNull
            end
          with
          | Ok p => Ok (JObj [("T", JInt 6); ("n", json_of_name name);
                              ("m", JArr m); ("p", p)])
          | Raise e => Raise e
          | OutOfFuel => OutOfFuel
          | OutOfModel => OutOfModel
          end
      | Raise e => Raise e
      | OutOfFuel => OutOfFuel
      | OutOfModel => OutOfModel
      end
  | NVoid => Ok (JObj [("T", JInt 7)])
  end.

(** What [loads] with an [object_hook] builds: every JSON object has been
    replaced by what the hook returned for it. *)
#[warnings="-register-all"]
Inductive pyval : Type :=
| PNone
| PInt (z : Z)
| PStr (s : string)
| PList (items : list pyval)
| PNode (n : Node).

(** The dictionary [d] handed to the hook: the pairs of one JSON object, in
    document order, values already decoded. *)
Abbreviation dict := (list (string * pyval)).

(** [d[key]]; when a key occurs twice the later pair has replaced the
    earlier one. *)
Fixpoint dict_get (key : string) (d : dict) : option pyval :=
  match d with
  | [] => None
  | (k, v) :: d' =>
      match dict_get key d' with
      | Some v' => Some v'
      | None => if bool_decide (k = key) then Some v else None
      end
  end.

Definition subscript {St} (d : dict) (key : string) : M St pyval :=
  match dict_get key d with
  | Some v => ret v
  | None => raise (KeyError key)
  end.

(** Reading a decoded value at the type the constructor's annotation gives
    its parameter; any other value is outside the model. *)
Definition as_int {St} (v : pyval) : M St Z :=
  fun st => match v with PInt z => (Ok z, st) | _ => (OutOfModel, st) end.

Definition as_str {St} (v : pyval) : M St string :=
  fun st => match v with PStr s => (Ok s, st) | _ => (OutOfModel, st) end.

Definition as_name {St} (v : pyval) : M St (option string) :=
  fun st =>
    match v with
    | PNone => (Ok None, st)
    | PStr s => (Ok (Some s), st)
    | _ => (OutOfModel, st)
    end.

Fixpoint nodes_of (items : list pyval) : option (list Node) :=
  match items with
  | [] => Some []
  | PNode n :: items' =>
      match nodes_of items' with
      | Some ns => Some (n :: ns)
      | None => None
      end
  | _ :: _ => None
  end.

Definition as_nodes {St} (v : pyval) : M St (list Node) :=
  fun st =>
    match v with
    | PList items =>
        match nodes_of items with
        | Some ns => (Ok ns, st)
        | None => (OutOfModel, st)
        end
    | _ => (OutOfModel, st)
    end.

Definition as_padding {St} (v : pyval) : M St (option Node) :=
  fun st =>
    match v with
    | PNone => (Ok None, st)
    | PNode p => (Ok (Some p), st)
    | _ => (OutOfModel, st)
    end.

Section FromJson.
Context (ida : Provider).

(** [TypeInfo._from_json(cls, lib, d)] *)
Definition TypeInfo_from_json (lib : lib_id) (d : dict) : M TypeLib Node :=
  let* n := subscript d "n" in
  let* s := subscript d "s" in
  let* name := as_name n in
  let* size := as_int s in
  TypeInfo_init lib name size.

(** [Array._from_json(cls, lib, d)] *)
Definition Array_from_json (lib : lib_id) (d : dict) : M TypeLib Node :=
  let* b := subscript d "b" in
  let* n := subscript d "n" in
  let* base_type_name := as_str b in
  let* nelements := as_int n in
  Array_init lib base_type_name nelements.

(** [Pointer._from_json(cls, lib, d)] *)
Definition Pointer_from_json (lib : lib_id) (d : dict) : M TypeLib Node :=
  let* t := subscript d "t" in
  let* target_type_name := as_str t in
  Pointer_init ida lib (TName target_type_name).

(** [UDT.Field._from_json(cls, lib, d)] *)
Definition Field_from_json (lib : lib_id) (d : dict) : M TypeLib Node :=
  let* n := subscript d "n" in
  let* t := subscript d "t" in
  let* name := as_str n in
  let* type_name := as_str t in
  Field_init lib name type_name.

(** [UDT.Padding._from_json(cls, d)] *)
Definition Padding_from_json (d : dict) : M unit Node :=
  let* s := subscript d "s" in
  let* size := as_int s in
  ret (Padding_init size).

(** [Struct._from_json(cls, lib, d)] *)
Definition Struct_from_json (lib : lib_id) (d : dict) : M TypeLib Node :=
  let* n := subscript d "n" in
  let* l := subscript d "l" in
  let* name := as_name n in
  let* layout := as_nodes l in
  Struct_init lib name (Sequence layout).

(** [Union._from_json(cls, lib, d)] *)
Definition Union_from_json (lib : lib_id) (d : dict) : M TypeLib Node :=
  let* n := subscript d "n" in
  let* m := subscript d "m" in
  let* p := subscript d "p" in
  let* name := as_name n in
  let* members := as_nodes m in
  let* padding := as_padding p in
  Union_init lib name (Sequence members) padding.

(** [Void._from_json(cls, d)] *)
Definition Void_from_json (d : dict) : M unit Node := ret Void_init.

(** A [_from_json] classmethod with the parameters its [def] declares
    after [cls]. *)
Inductive from_json_method : Type :=
| Lib_and_d (f : lib_id -> dict -> M TypeLib Node)
| Only_d (f : dict -> M unit Node).

(** The dictionary literal of [as_typeinfo], read at [d["T"]]. *)
Definition class_table (T : Z) : option from_json_method :=
  if bool_decide (T = 0) then Some (Lib_and_d TypeInfo_from_json)
  else if bool_decide (T = 1) then Some (Lib_and_d Array_from_json)
  else if bool_decide (T = 2) then Some (Lib_and_d Pointer_from_json)
  else if bool_decide (T = 3) then Some (Lib_and_d Field_from_json)
  else if bool_decide (T = 4) then Some (Only_d Padding_from_json)
  else if bool_decide (T = 5) then Some (Lib_and_d Struct_from_json)
  else if bool_decide (T = 6) then Some (Lib_and_d Union_from_json)
  else if bool_decide (T = 7) then Some (Only_d Void_from_json)
  else None.

(** The call [cls._from_json(d)]: one positional argument. A method that
    declares [(cls, lib, d)] is left without its [d] and the call raises
    [TypeError]; a method that declares [(cls, d)] runs. *)
Definition call_from_json (m : from_json_method) (d : dict) : outcome Node :=
  match m with
  | Lib_and_d _ => Raise TypeError
  | Only_d f => (f d tt).1
  end.

(** [as_typeinfo(d)], the [object_hook]. Looking up a key that is not one
    of the integers 0..7 raises [KeyError]; a list is not hashable. *)
Definition as_typeinfo (d : dict) : outcome pyval :=
  match dict_get "T" d with
  | None => Raise (KeyError "T")
  | Some (PInt T) =>
      match class_table T with
      | Some m =>
          match call_from_json m d with
          | Ok n => Ok (PNode n)
          | Raise e => Raise e
          | OutOfFuel => OutOfFuel
          | OutOfModel => OutOfModel
          end
      | None => Raise KeyError_tag
      end
  | Some (PList _) => Raise TypeError
  | Some _ => Raise KeyError_tag
  end.

(** [TypeInfoCodec.decode]: [loads(encoded, object_hook=as_typeinfo)].
    The values of an object are decoded before the hook sees the object. *)
Fixpoint decode (encoded : json) : outcome pyval :=
  match encoded with
  | JNull => Ok PNone
  | JInt z => Ok (PInt z)
  | JStr s => Ok (PStr s)
  | JArr items =>
      match outcome_mapM decode items with
      | Ok vs => Ok (PList vs)
      | Raise e => Raise e
      | OutOfFuel => OutOfFuel
      | OutOfModel => OutOfModel
      end
  | JObj pairs =>
      match outcome_mapM
              (fun kv : string * json =>
                 match decode kv.2 with
                 | Ok v => Ok (kv.1, v)
                 | Raise e => Raise e
                 | OutOfFuel => OutOfFuel
                 | OutOfModel => OutOfModel
                 end) pairs
      with
      | Ok d => as_typeinfo d
      | Raise e => Raise e
      | OutOfFuel => OutOfFuel
      | OutOfModel => OutOfModel
      end
  end.

(** [TypeInfoCodec.decode(TypeInfoCodec.encode(node))] *)
Definition roundtrip (node : Node) : outcome pyval :=
  match encode node with
  | Ok j => decode j
  | Raise e => Raise e
  | OutOfFuel => OutOfFuel
  | OutOfModel => OutOfModel
  end.

End FromJson.

(** ** Reference definitions for the statements below *)

(** The sum of the sizes of a layout, written as a fold from the right. *)
Definition sum_of_sizes (ns : list Node) : Z :=
  foldr (fun n acc => node_size n + acc) 0 ns.

(** [g] is the greatest of the integers [xs], and 0 when there are none. *)
Definition greatest_of (xs : list Z) (g : Z) : Prop :=
  match xs with
  | [] => g = 0
  | _ :: _ => g ∈ xs /\ forall x, x ∈ xs -> x <= g
  end.

(** The size of a union with these members and this padding: the greatest
    member size, plus the size of the padding when there is one. *)
Definition max_plus_padding (members : list Node) (padding : option Node)
    (size : Z) : Prop :=
  exists g, greatest_of (node_size <$> members) g /\
            size = g + from_option node_size 0 padding.

(** The attributes an [__eq__] method reads, the others set to a fixed
    value: derived sizes and the derived name of a pointer are dropped, and
    with [with_lib = false] so is the catalog; what is left then are the
    semantic fields of the node. *)
Fixpoint fields (with_lib : bool) (n : Node) : Node :=
  let keep (l : lib_id) := if with_lib then l else 0%nat in
  match n with
  | NTypeInfo l name size => NTypeInfo (keep l) name size
  | NArray l b n _ => NArray (keep l) b n 0
  | NPointer l t _ _ => NPointer (keep l) t "" 0
  | NField l name t _ => NField (keep l) name t 0
  | NPadding size => NPadding size
  | NStruct l name layout _ => NStruct (keep l) name (map (fields with_lib) layout) 0
  | NUnion l name members padding _ =>
      NUnion (keep l) name (map (fields with_lib) members)
        (option_map (fields with_lib) padding) 0
  | NVoid => NVoid
  end.

Definition semantic_fields : Node -> Node := fields false.

Section Reference.
Context (ida : Provider).

(** The members [add] reads from a user-defined type, in index order. *)
Definition udt_members (typ : tinfo_t) : list udt_member_t :=
  find_udt_member ida typ <$> seqZ 0 (get_udt_nmembers ida typ).

(** The types a call of [add] on [typ] passes to its recursive calls when
    [typ] is not skipped. *)
Definition children (typ : tinfo_t) : list tinfo_t :=
  if is_void ida typ then []
  else if is_ptr ida typ then [get_pointed_object ida typ]
  else if is_array ida typ then [get_array_element ida typ]
  else if is_udt ida typ then
    if is_union ida typ || is_struct ida typ
    then member_type <$> udt_members typ
    else []
  else [].

(** The type graph below [root]. *)
Inductive reach (root : tinfo_t) : tinfo_t -> Prop :=
| reach_root : reach root root
| reach_child t c : reach root t -> c ∈ children t -> reach root c.

(** A type that is none of void, pointer, array, user-defined: the last
    branch of [add]. *)
Definition is_leaf (typ : tinfo_t) : bool :=
  negb (is_void ida typ) && negb (is_ptr ida typ) &&
  negb (is_array ida typ) && negb (is_udt ida typ).

(** A type that takes the struct branch of [add]. *)
Definition takes_struct_branch (typ : tinfo_t) : bool :=
  negb (is_void ida typ) && negb (is_ptr ida typ) &&
  negb (is_array ida typ) && is_udt ida typ &&
  negb (is_union ida typ) && is_struct ida typ.

(** A struct all of whose members have leaf types with a signature other
    than the struct's own. *)
Definition struct_of_leaves (typ : tinfo_t) : bool :=
  takes_struct_branch typ &&
  forallb (fun m => is_leaf (member_type m) &&
                    bool_decide (dstr ida (member_type m) <> dstr ida typ))
          (udt_members typ).

(** Where a member ends, in bits. *)
Definition member_end (m : udt_member_t) : Z :=
  member_offset m + member_size m.

(** The layout entries one member contributes when the previous member
    ended at bit [expected]: a padding for the gap unless the member starts
    right there, then the field, whose size is the size of the library
    entry of its type. *)
Definition member_entries (self : lib_id) (data : TypeLib) (expected : Z)
    (m : udt_member_t) : list Node :=
  (if bool_decide (member_offset m = expected) then []
   else [NPadding ((member_offset m - expected) / 8)])
  ++ [NField self (member_name m) (dstr ida (member_type m))
        (from_option node_size 0 (data !! dstr ida (member_type m)))].

(** The layout of a struct with members [ms], stated member by member:
    member [i] is compared with the end of member [i-1] (with 0 for the
    first). *)
Definition expected_layout (self : lib_id) (data : TypeLib)
    (start : Z) (ms : list udt_member_t) : list Node :=
  concat (zip_with (member_entries self data) (start :: (member_end <$> ms)) ms).

End Reference.

(** What [loads] does with one pair of an object: the value is decoded,
    the key kept. *)
Definition decode_pair (ida : Provider) (kv : string * json)
  : outcome (string * pyval) :=
  match decode ida kv.2 with
  | Ok v => Ok (kv.1, v)
  | Raise e => Raise e
  | OutOfFuel => OutOfFuel
  | OutOfModel => OutOfModel
  end.

(** What decoding the encoding of [n] gives: a node without a [lib]
    attribute comes back, any other ends in [TypeError]. *)
Definition roundtrip_outcome (ida : Provider) (n : Node) : Prop :=
  forall j, encode n = Ok j ->
            decode ida j = match node_lib n with
                           | Some _ => Raise TypeError
                           | None => Ok (PNode n)
                           end.

(** The number of entries of a catalog whose node satisfies [P]. *)
Definition count_entries (P : Node -> bool) (data : TypeLib) : nat :=
  size (filter (fun kv : string * Node => P kv.2 = true) data).

Definition is_Struct (n : Node) : bool :=
  match n with NStruct _ _ _ _ => true | _ => false end.

Definition is_Pointer (n : Node) : bool :=
  match n with NPointer _ _ _ _ => true | _ => false end.

(** [st'] is [st] after some steps of [add]: library entries are kept,
    and the signatures marked in between are new, pairwise different, and
    are exactly what the worklist gained. *)
Definition extends (st st' : AddState) : Prop :=
  lib_data st ⊆ lib_data st' /\
  exists new : list string,
    trace st' = trace st ++ new /\
    NoDup new /\
    (forall sig, sig ∈ new -> sig ∉ worklist st) /\
    worklist st' = worklist st ∪ list_to_set new.

(** ** Predicates used in the proofs *)

(** A library operation keeps what is stored. *)
Definition lib_grows {A} (m : M TypeLib A) : Prop :=
  forall data, data ⊆ (m data).2.

(** Every command run by [add] extends the state, whatever its outcome. *)
Definition ext {A} (m : M AddState A) : Prop := forall st, extends st (m st).2.

(** A command that never exhausts the recursion budget. *)
Definition fueled {St A} (m : M St A) : Prop := forall st, (m st).1 <> OutOfFuel.

(** No command of the normaliser leaves the model: [add] ends in [Ok], in a
    raised exception, or runs out of budget. *)
Definition modelled {St A} (m : M St A) : Prop :=
  forall st, (m st).1 <> OutOfModel.

(** Every signature below [typ] lies in the finite set [U]. *)
Definition within (ida : Provider) (U : gset string) (typ : tinfo_t) : Prop :=
  forall t, reach ida typ t -> dstr ida t ∈ U.

(** Every type marked between [st] and [st'] has had all the types it
    refers to handled: each is void or marked in [st']. *)
Definition explored (ida : Provider) (root : tinfo_t) (st st' : AddState) : Prop :=
  forall x, reach ida root x ->
            dstr ida x ∈ worklist st' -> dstr ida x ∉ worklist st ->
            forall c, c ∈ children ida x ->
                      is_void ida c = true \/ dstr ida c ∈ worklist st'.

Definition handled (ida : Provider) (st' : AddState) (c : tinfo_t) : Prop :=
  is_void ida c = true \/ dstr ida c ∈ worklist st'.

(** While the members of the struct [own] are visited: [own] is marked and
    not stored yet, and every other marked signature is stored. *)
Definition members_inv (own : string) (st : AddState) : Prop :=
  own ∈ worklist st /\ lib_data st !! own = None /\
  forall sig, sig ∈ worklist st -> sig <> own -> is_Some (lib_data st !! sig).

(** ** Invariants of a catalog *)

(** The name under which a constructor stores the node it builds:
    [self.name] for [TypeInfo], [Pointer], [Struct] and [Union],
    [str(self)] for [Array]; [UDT.Field], [UDT.Padding] and [Void] store
    nothing. *)
Definition node_key (n : Node) : option string :=
  match n with
  | NTypeInfo _ name _ => name
  | NArray _ b n _ => Some (Array_str b n)
  | NPointer _ _ name _ => Some name
  | NStruct _ name _ _ => name
  | NUnion _ name _ _ _ => name
  | NField _ _ _ _ | NPadding _ | NVoid => None
  end.

(** Every entry is stored under its own name and refers to the library
    [self] it is stored in. *)
Definition well_keyed (self : lib_id) (data : TypeLib) : Prop :=
  forall key n, data !! key = Some n ->
                node_key n = Some key /\ node_lib n = Some self.

(** A member of a stored struct or union: a padding, or a field whose size
    is the size of the entry of its type. *)
Definition member_ok (data : TypeLib) (m : Node) : Prop :=
  match m with
  | NField _ _ t s => exists ty, data !! t = Some ty /\ s = node_size ty
  | NPadding _ => True
  | _ => False
  end.

(** The size of a stored node agrees with what the catalog says about the
    types it refers to. *)
Definition size_ok (data : TypeLib) (n : Node) : Prop :=
  match n with
  | NArray _ b n s => exists ty, data !! b = Some ty /\ s = node_size ty * n
  | NPointer _ _ _ s => s = 8
  | NStruct _ _ layout s =>
      s = sum_of_sizes layout /\ Forall (member_ok data) layout
  | NUnion _ _ members padding s =>
      max_plus_padding members padding s /\ Forall (member_ok data) members
  | _ => True
  end.

Definition coherent (data : TypeLib) : Prop :=
  forall key n, data !! key = Some n -> size_ok data n.

(** The two invariants together, and on the library of a state of [add]. *)
Definition catalog_ok (self : lib_id) (data : TypeLib) : Prop :=
  well_keyed self data /\ coherent data.

Definition lib_ok (self : lib_id) (st : AddState) : Prop :=
  catalog_ok self (lib_data st).

(** The only exception a command raises is [KeyError] for a string key. *)
Definition raises_only_KeyError {St A} (m : M St A) : Prop :=
  forall st, match (m st).1 with
             | Ok _ | Raise (KeyError _) | OutOfFuel => True
             | _ => False
             end.

(** The state [st] with the library replaced by [L]. *)
Definition with_lib (L : TypeLib) (st : AddState) : AddState :=
  {| lib_data := L; worklist := worklist st; trace := trace st |}.

(** The field a member of a union or struct becomes, its size read from
    the library. *)
Definition member_field (ida : Provider) (self : lib_id) (data : TypeLib)
    (m : udt_member_t) : Node :=
  NField self (member_name m) (dstr ida (member_type m))
    (from_option node_size 0 (data !! dstr ida (member_type m))).

(** A union all of whose members have leaf types with a signature other
    than the union's own. *)
Definition union_of_leaves (ida : Provider) (typ : tinfo_t) : bool :=
  negb (is_void ida typ) && negb (is_ptr ida typ) &&
  negb (is_array ida typ) && is_udt ida typ && is_union ida typ &&
  forallb (fun m => is_leaf ida (member_type m) &&
                    bool_decide (dstr ida (member_type m) <> dstr ida typ))
          (udt_members ida typ).

(** Where the last of the members [ms] ends, in bits; [start] when there is
    none. *)
Definition last_end (start : Z) (ms : list udt_member_t) : Z :=
  foldl (fun _ m => member_end m) start ms.

(** The members start and end at byte boundaries and the library holds
    their types with the size the provider reports for the member. *)
Definition byte_members (ida : Provider) (data : TypeLib)
    (ms : list udt_member_t) : Prop :=
  Forall (fun m =>
            (8 | member_offset m) /\
            exists ty, data !! dstr ida (member_type m) = Some ty /\
                       member_size m = 8 * node_size ty) ms.

(** ** Reference definitions for the codec *)

(** Some [Pointer] in the node holds a [tinfo_t] as its target, as the ones
    built by [TypeLib.add] do. *)
Fixpoint holds_tinfo (n : Node) : bool :=
  match n with
  | NPointer _ (TInfo _) _ _ => true
  | NStruct _ _ layout _ => existsb holds_tinfo layout
  | NUnion _ _ members padding _ =>
      existsb holds_tinfo members || from_option holds_tinfo false padding
  | _ => false
  end.

(** Nested induction on documents. *)
Section json_ind.
Variable P : json -> Prop.
Hypothesis HNull : P JNull.
Hypothesis HInt : forall z, P (JInt z).
Hypothesis HStr : forall s, P (JStr s).
Hypothesis HArr : forall items, Forall P items -> P (JArr items).
Hypothesis HObj : forall pairs,
    Forall (fun kv : string * json => P kv.2) pairs -> P (JObj pairs).

Fixpoint json_nested_ind (j : json) : P j :=
  match j with
  | JNull => HNull
  | JInt z => HInt z
  | JStr s => HStr s
  | JArr items =>
      HArr items
        ((fix go (js : list json) : Forall P js :=
            match js with
            | [] => Forall_nil_2 P
            | x :: xs => Forall_cons_2 P x xs (json_nested_ind x) (go xs)
            end) items)
  | JObj pairs =>
      HObj pairs
        ((fix go (kvs : list (string * json))
           : Forall (fun kv : string * json => P kv.2) kvs :=
            match kvs with
            | [] => Forall_nil_2 _
            | kv :: kvs' =>
                Forall_cons_2 (fun kv : string * json => P kv.2) kv kvs'
                  (json_nested_ind kv.2) (go kvs')
            end) pairs)
  end.
End json_ind.

(** The value of [key] in a JSON object; the later pair wins, as in the
    dictionary [loads] builds. *)
Fixpoint json_get (key : string) (pairs : list (string * json)) : option json :=
  match pairs with
  | [] => None
  | (k, v) :: pairs' =>
      match json_get key pairs' with
      | Some v' => Some v'
      | None => if bool_decide (k = key) then Some v else None
      end
  end.

(** Every object of the document has discriminant 4 ([UDT.Padding]) or 7
    ([Void]). *)
Fixpoint only_Padding_Void (j : json) : bool :=
  match j with
  | JArr items => forallb only_Padding_Void items
  | JObj pairs =>
      match json_get "T" pairs with
      | Some (JInt T) => bool_decide (T = 4 \/ T = 7)
      | _ => false
      end
      && forallb (fun kv : string * json => only_Padding_Void kv.2) pairs
  | _ => true
  end.

(** The classes whose [_to_json] dictionary has no nested object:
    [TypeInfo], [Array], [UDT.Field], and [Pointer] with a string target. *)
Definition is_flat (n : Node) : bool :=
  match n with
  | NTypeInfo _ _ _ | NArray _ _ _ _ | NField _ _ _ _
  | NPointer _ (TName _) _ _ => true
  | _ => false
  end.

(** The name whose library entry the constructor of the node reads. *)
Definition refers_to (n : Node) : option string :=
  match n with
  | NArray _ b _ _ => Some b
  | NField _ _ t _ => Some t
  | _ => None
  end.

(** ** Hashing and rendering: [__hash__] and [__str__] *)

Section Hash.
(** Python's built-in [hash] on [None], on integers, on strings, on a tuple
    given the hashes of its elements, and on a [tinfo_t]; [hash_obj] is what
    [hash(x)] makes of the integer that [x.__hash__()] returned. *)
Context (hash_none : Z) (hash_int : Z -> Z) (hash_str : string -> Z)
        (hash_tuple : list Z -> Z) (hash_tinfo : tinfo_t -> Z)
        (hash_obj : Z -> Z).

Definition hash_name (name : option string) : Z :=
  match name with
  | Some s => hash_str s
  | None => hash_none
  end.

(** What [n.__hash__()] returns. *)
Fixpoint node_hash (n : Node) : Z :=
  match n with
  | NTypeInfo _ name size => hash_tuple [hash_name name; hash_int size]
  | NArray _ b n _ => hash_tuple [hash_int n; hash_str b]
  | NPointer _ t _ _ =>
      match t with
      | TName s => hash_str s
      | TInfo t => hash_tinfo t
      end
  | NField _ name t _ => hash_tuple [hash_str name; hash_str t]
  | NPadding size => size
  | NStruct _ name layout _ =>
      hash_tuple [hash_name name;
                  hash_tuple (map (fun l => hash_obj (node_hash l)) layout)]
  | NUnion _ name members padding _ =>
      hash_tuple [hash_name name;
                  hash_tuple (map (fun m => hash_obj (node_hash m)) members);
                  match padding with
                  | Some p => hash_obj (node_hash p)
                  | None => hash_none
                  end]
  | NVoid => 0
  end.
End Hash.

(** [str(n)]: the [__str__] of each class. [f"{self.name}"] prints [None]
    for a [TypeInfo] without a name. *)
Fixpoint node_str (ida : Provider) (n : Node) : string :=
  match n with
  | NTypeInfo _ name _ =>
      match name with
      | Some s => s
      | None => "None"
      end
  | NArray _ b n _ => Array_str b n
  | NPointer _ t _ _ => Pointer_str ida t
  | NField _ name t _ => t +:+ " " +:+ name
  | NPadding size => "PADDING (" +:+ pretty size +:+ ")"
  | NStruct _ name layout _ =>
      foldl (fun ret l => ret +:+ node_str ida l +:+ "; ")
        match name with
        | None => "struct { "
        | Some s => "struct " +:+ s +:+ " { "
        end layout
      +:+ "}"
  | NUnion _ name members padding _ =>
      match padding with
      | Some p =>
          foldl (fun ret m => ret +:+ node_str ida m +:+ "; ")
            match name with
            | None => "union { "
            | Some s => "union " +:+ s +:+ " { "
            end members
          +:+ node_str ida p +:+ "; "
      | None =>
          foldl (fun ret m => ret +:+ node_str ida m +:+ "; ")
            match name with
            | None => "union { "
            | Some s => "union " +:+ s +:+ " { "
            end members
      end
      +:+ "}"
  | NVoid => "void"
  end.

(** ** More small providers *)

(** [int[10]]: handle 0 is the array, handle 1 is [int]. *)
Definition ida_int_array : Provider := {|
  dstr t := match t with O => "int[10]" | _ => "int" end;
  tinfo_str t := match t with O => "int[10]" | _ => "int" end;
  is_void _ := false;
  is_ptr _ := false;
  is_array t := match t with O => true | _ => false end;
  is_udt _ := false;
  is_union _ := false;
  is_struct _ := false;
  get_pointed_object _ := 0%nat;
  get_array_element _ := 1%nat;
  get_array_details _ := {| elem_type := 1; nelems := 10 |};
  get_udt_nmembers _ := 0;
  find_udt_member _ _ :=
    {| member_name := ""; member_offset := 0; member_size := 0; member_type := 0 |};
  get_size t := match t with O => 40 | _ => 4 end;
|}.

(** [union u { int a; long b; short c; }]: handle 0 is the union, handles
    1, 2 and 3 are [int], [long] and [short]. *)
Definition ida_union3 : Provider := {|
  dstr t := match t with
            | O => "u" | 1%nat => "int" | 2%nat => "long" | _ => "short"
            end;
  tinfo_str t := match t with
                 | O => "u" | 1%nat => "int" | 2%nat => "long" | _ => "short"
                 end;
  is_void _ := false;
  is_ptr _ := false;
  is_array _ := false;
  is_udt t := match t with O => true | _ => false end;
  is_union t := match t with O => true | _ => false end;
  is_struct _ := false;
  get_pointed_object _ := 0%nat;
  get_array_element _ := 0%nat;
  get_array_details _ := {| elem_type := 0; nelems := 0 |};
  get_udt_nmembers t := match t with O => 3 | _ => 0 end;
  find_udt_member _ n :=
    if bool_decide (n = 0)
    then {| member_name := "a"; member_offset := 0; member_size := 32;
            member_type := 1 |}
    else if bool_decide (n = 1)
    then {| member_name := "b"; member_offset := 0; member_size := 64;
            member_type := 2 |}
    else {| member_name := "c"; member_offset := 0; member_size := 16;
            member_type := 3 |};
  get_size t := match t with
                | O => 8 | 1%nat => 4 | 2%nat => 8 | _ => 2
                end;
|}.

(** [void *]: handle 0 is the pointer, handle 1 is void. *)
Definition ida_void_pointer : Provider := {|
  dstr t := match t with O => "void *" | _ => "void" end;
  tinfo_str t := match t with O => "void *" | _ => "void" end;
  is_void t := match t with O => false | _ => true end;
  is_ptr t := match t with O => true | _ => false end;
  is_array _ := false;
  is_udt _ := false;
  is_union _ := false;
  is_struct _ := false;
  get_pointed_object _ := 1%nat;
  get_array_element _ := 0%nat;
  get_array_details _ := {| elem_type := 0; nelems := 0 |};
  get_udt_nmembers _ := 0;
  find_udt_member _ _ :=
    {| member_name := ""; member_offset := 0; member_size := 0; member_type := 0 |};
  get_size t := match t with O => 8 | _ => 0 end;
|}.

(** [struct A { struct B *b; }; struct B { struct A a; int x; };]: handle 0
    is [A], handle 1 the pointer to [B], handle 2 is [B], and every other
    handle [int]. [A] reaches [B] through a pointer and [B] holds an [A] by
    value. *)
Definition ida_value_cycle : Provider := {|
  dstr t := match t with O => "A" | 1%nat => "B *" | 2%nat => "B" | _ => "int" end;
  tinfo_str t :=
    match t with O => "A" | 1%nat => "B *" | 2%nat => "B" | _ => "int" end;
  is_void _ := false;
  is_ptr t := match t with 1%nat => true | _ => false end;
  is_array _ := false;
  is_udt t := match t with O | 2%nat => true | _ => false end;
  is_union _ := false;
  is_struct t := match t with O | 2%nat => true | _ => false end;
  get_pointed_object _ := 2%nat;
  get_array_element _ := 0%nat;
  get_array_details _ := {| elem_type := 0; nelems := 0 |};
  get_udt_nmembers t := match t with O => 1 | 2%nat => 2 | _ => 0 end;
  find_udt_member t n :=
    match t with
    | O => {| member_name := "b"; member_offset := 0; member_size := 64;
              member_type := 1 |}
    | _ => if bool_decide (n = 0)
           then {| member_name := "a"; member_offset := 0; member_size := 64;
                   member_type := 0 |}
           else {| member_name := "x"; member_offset := 64; member_size := 32;
                   member_type := 3 |}
    end;
  get_size t := match t with O | 1%nat => 8 | 2%nat => 12 | _ => 4 end;
|}.

(** * Verified properties *)

(** ** Catalog operations *)

Lemma contains_true key (data : TypeLib) :
  contains key data = true <-> is_Some (data !! key).
Proof. unfold contains. apply bool_decide_eq_true. Qed.

Lemma contains_false key (data : TypeLib) :
  contains key data = false <-> data !! key = None.
Proof.
  unfold contains. rewrite bool_decide_eq_false, eq_None_not_Some. done.
Qed.

Lemma setitem_present key item (data : TypeLib) :
  is_Some (data !! key) -> setitem key item data = (Ok tt, data).
Proof. intros H. unfold setitem. by rewrite (proj2 (contains_true _ _) H). Qed.

Lemma setitem_absent key item (data : TypeLib) :
  data !! key = None -> setitem key item data = (Ok tt, <[key := item]> data).
Proof. intros H. unfold setitem. by rewrite (proj2 (contains_false _ _) H). Qed.

Lemma setitem_Ok key item (data : TypeLib) : (setitem key item data).1 = Ok tt.
Proof. unfold setitem. by destruct (contains key data). Qed.

(** The dictionary only grows, and an entry that is there stays as it is. *)
Lemma setitem_subseteq key item (data : TypeLib) :
  data ⊆ (setitem key item data).2.
Proof.
  unfold setitem. destruct (contains key data) eqn:E; simpl; [done|].
  apply insert_subseteq. by apply contains_false.
Qed.

Lemma setitem_lookup key item (data : TypeLib) :
  is_Some ((setitem key item data).2 !! key).
Proof.
  unfold setitem. destruct (contains key data) eqn:E; simpl.
  - by apply contains_true.
  - rewrite lookup_insert_eq. eauto.
Qed.

Lemma getitem_present key item (data : TypeLib) :
  data !! key = Some item -> getitem key data = (Ok item, data).
Proof. intros H. unfold getitem. by rewrite H. Qed.

Lemma getitem_absent key (data : TypeLib) :
  data !! key = None -> getitem key data = (Raise (KeyError key), data).
Proof. intros H. unfold getitem. by rewrite H. Qed.

(** C5, as the claim states it, fails on a catalog that already holds the
    name: with ["x"] bound to [Void], [put("x", A)] and [put("x", B)] both
    do nothing and [get("x")] is still [Void], not [A]. *)
Lemma put_put_get_counterexample :
  let data : TypeLib := {[ "x" := NVoid ]} in
  let A := NPadding 1 in
  let B := NPadding 2 in
  A <> B /\
  (getitem "x" (setitem "x" B (setitem "x" A data).2).2).1 <> Ok A.
Proof. vm_compute. split; intros H; discriminate H. Qed.

(** C5 (amended): in a catalog that does not hold the name [x] yet,
    [put(x, A)] followed by [put(x, B)] leaves [get(x)] equal to [A], and the
    second [put] changes nothing; in any catalog, [put] under a name that is
    present leaves the catalog as it was. *)
Theorem put_first_write_wins (data : TypeLib) (x : string) (A B : Node) :
  data !! x = None ->
  let data1 := (setitem x A data).2 in
  let data2 := (setitem x B data1).2 in
  (getitem x data2).1 = Ok A /\ data2 = data1 /\
  (forall (data' : TypeLib) (C : Node),
      data' !! x = Some C ->
      (setitem x B data').2 = data' /\ (getitem x (setitem x B data').2).1 = Ok C).
Proof.
  intros Hx data1 data2. subst data2 data1.
  rewrite (setitem_absent _ _ _ Hx). simpl.
  rewrite setitem_present by (rewrite lookup_insert_eq; eauto). simpl.
  split; [|split].
  - rewrite (getitem_present x A); [done|]. by rewrite lookup_insert_eq.
  - done.
  - intros data' C HC. rewrite setitem_present by eauto. simpl.
    by rewrite (getitem_present x C).
Qed.

Lemma put_first_write_wins_witness :
  (getitem "x" (setitem "x" (NPadding 2)
                  (setitem "x" (NPadding 1) (∅ : TypeLib)).2).2).1
  = Ok (NPadding 1).
Proof.
  exact (proj1 (put_first_write_wins ∅ "x" (NPadding 1) (NPadding 2)
                  (lookup_empty "x"))).
Defined.

(** ** Lookup failures *)

Lemma bind_getitem_absent {B} key (k : Node -> M TypeLib B) (data : TypeLib) :
  data !! key = None -> bind (getitem key) k data = (Raise (KeyError key), data).
Proof. intros H. unfold bind. by rewrite (getitem_absent _ _ H). Qed.

Lemma bind_getitem_present {B} key item (k : Node -> M TypeLib B) (data : TypeLib) :
  data !! key = Some item -> bind (getitem key) k data = k item data.
Proof. intros H. unfold bind. by rewrite (getitem_present _ _ _ H). Qed.

(** C7: [get(name)] returns the stored node when the name is present and
    raises [KeyError] (the spec's NotFound) when it is absent, leaving the
    catalog as it was. The error is not handled anywhere: whatever code
    follows the lookup is skipped, and the two constructors that look a name
    up, [Array] and [UDT.Field], end with the same [KeyError]. *)
Theorem getitem_found_or_KeyError (data : TypeLib) (name : string) :
  match data !! name with
  | Some node => getitem name data = (Ok node, data)
  | None =>
      getitem name data = (Raise (KeyError name), data) /\
      (forall B (k : Node -> M TypeLib B),
          bind (getitem name) k data = (Raise (KeyError name), data)) /\
      (forall lib nelements,
          Array_init lib name nelements data = (Raise (KeyError name), data)) /\
      (forall lib field_name,
          Field_init lib field_name name data = (Raise (KeyError name), data))
  end.
Proof.
  destruct (data !! name) as [node|] eqn:E.
  - by apply getitem_present.
  - split; [by apply getitem_absent|].
    split; [intros; by apply bind_getitem_absent|].
    split; intros; unfold Array_init, Field_init; by apply bind_getitem_absent.
Qed.

(** ** Sizes of structs and unions *)

Lemma foldl_add_sizes (acc : Z) (ns : list Node) :
  foldl (fun a l => a + node_size l) acc ns = acc + sum_of_sizes ns.
Proof.
  revert acc. induction ns as [|n ns IH]; intros acc; simpl; [lia|].
  rewrite IH. lia.
Qed.

Lemma layout_size_sum (layout : list Node) :
  layout_size layout = sum_of_sizes layout.
Proof. unfold layout_size. rewrite foldl_add_sizes. lia. Qed.

Lemma sum_of_sizes_app (xs ys : list Node) :
  sum_of_sizes (xs ++ ys) = sum_of_sizes xs + sum_of_sizes ys.
Proof. induction xs as [|x xs IH]; simpl; lia. Qed.

Lemma foldl_max_ge (x : Z) (xs : list Z) :
  x <= foldl Z.max x xs /\ Forall (fun y => y <= foldl Z.max x xs) xs.
Proof.
  revert x. induction xs as [|y ys IH]; intros x; simpl; [split; [lia|constructor]|].
  destruct (IH (Z.max x y)) as [H1 H2]. split; [lia|].
  constructor; [lia|done].
Qed.

Lemma foldl_max_elem (x : Z) (xs : list Z) : foldl Z.max x xs ∈ x :: xs.
Proof.
  revert x. induction xs as [|y ys IH]; intros x; simpl; [set_solver|].
  specialize (IH (Z.max x y)).
  apply elem_of_cons in IH as [IH|IH].
  - rewrite IH. destruct (Z.max_spec x y) as [[_ ->]|[_ ->]]; set_solver.
  - set_solver.
Qed.

(** [py_max] returns a greatest element of a non-empty list. *)
Lemma py_max_spec (xs : list Z) :
  match py_max xs with
  | Ok m => m ∈ xs /\ Forall (fun y => y <= m) xs
  | Raise ValueError => xs = []
  | _ => False
  end.
Proof.
  destruct xs as [|x xs]; simpl; [done|].
  split; [apply foldl_max_elem|].
  destruct (foldl_max_ge x xs). by constructor.
Qed.

(** [union_size] is the greatest member size plus the padding's size. *)
Lemma union_size_spec (members : list Node) (padding : option Node) :
  max_plus_padding members padding (union_size members padding).
Proof.
  exists (match py_max (node_size <$> members) with Ok m => m | _ => 0 end).
  split; [|unfold union_size; destruct padding; simpl; lia].
  pose proof (py_max_spec (node_size <$> members)) as H.
  destruct members as [|m0 ms]; [done|].
  destruct (py_max (node_size <$> m0 :: ms)) as [g| | |] eqn:E; try done.
  destruct H as [Hin Hall]. split; [done|].
  intros x Hx. rewrite Forall_forall in Hall. by apply Hall.
Qed.

Lemma greatest_of_unique (xs : list Z) (g g' : Z) :
  greatest_of xs g -> greatest_of xs g' -> g = g'.
Proof.
  destruct xs as [|x xs]; simpl; [by intros -> ->|].
  intros [H1 H2] [H1' H2']. specialize (H2 _ H1'). specialize (H2' _ H1). lia.
Qed.

Lemma max_plus_padding_unique members padding (s s' : Z) :
  max_plus_padding members padding s -> max_plus_padding members padding s' ->
  s = s'.
Proof.
  intros (g & Hg & ->) (g' & Hg' & ->).
  by rewrite (greatest_of_unique _ _ _ Hg Hg').
Qed.


Lemma Union_init_unfold lib name (members : iterable) padding (data : TypeLib) :
  let u := NUnion lib name (tuple_of members) padding
             (union_size (iterated_again members) padding) in
  Union_init lib name members padding data
  = (Ok u, match name with Some n => (setitem n u data).2 | None => data end).
Proof.
  unfold Union_init. destruct name as [n|]; [|done].
  simpl. unfold bind, setitem, ret. by destruct (contains n data).
Qed.


(** C6: [Union.__init__] keeps [tuple(members)] and takes the size from a
    second iteration over the parameter [members]. When that is a list or a
    tuple, the size is the greatest of the members' sizes (0 without
    members) plus the size of the padding when one is given, and members of
    sizes 4, 8 and 2 without padding give size 8. When it is an iterator,
    the second iteration is empty: the node keeps its members and its size
    is that of the padding alone, so members of sizes 4, 8 and 2 without
    padding give a union of size 0. *)
Theorem Union_size_from_second_iteration (lib : lib_id) (name : option string)
    (members : iterable) (padding : option Node) (data : TypeLib) :
  exists size : Z,
    (Union_init lib name members padding data).1
    = Ok (NUnion lib name (tuple_of members) padding size) /\
    (forall items, members = Sequence items ->
                   max_plus_padding (tuple_of members) padding size) /\
    (forall items, members = Iterator items ->
                   size = from_option node_size 0 padding) /\
    (forall m1 m2 m3,
        node_size m1 = 4 -> node_size m2 = 8 -> node_size m3 = 2 ->
        padding = None ->
        (members = Sequence [m1; m2; m3] -> size = 8) /\
        (members = Iterator [m1; m2; m3] -> size = 0)).
Proof.
  exists (union_size (iterated_again members) padding).
  split; [by rewrite Union_init_unfold|].
  split; [intros items ->; apply union_size_spec|].
  split; [intros items ->; by destruct padding|].
  intros m1 m2 m3 H1 H2 H3 ->. split; intros ->; [|done].
  unfold union_size. simpl. rewrite H1, H2, H3. done.
Qed.

Lemma Union_size_from_second_iteration_witness :
  (Union_init 0 None
     (Iterator [NField 0 "a" "int" 4; NField 0 "b" "long" 8; NField 0 "c" "short" 2])
     None ∅).1
  = Ok (NUnion 0 None
          [NField 0 "a" "int" 4; NField 0 "b" "long" 8; NField 0 "c" "short" 2]
          None 0) /\
  (Union_init 0 None
     (Sequence [NField 0 "a" "int" 4; NField 0 "b" "long" 8; NField 0 "c" "short" 2])
     None ∅).1
  = Ok (NUnion 0 None
          [NField 0 "a" "int" 4; NField 0 "b" "long" 8; NField 0 "c" "short" 2]
          None 8).
Proof.
  split.
  - destruct (Union_size_from_second_iteration 0 None
                (Iterator [NField 0 "a" "int" 4; NField 0 "b" "long" 8;
                           NField 0 "c" "short" 2])
                None ∅) as (size & Hu & _ & _ & H).
    rewrite Hu. f_equal. f_equal.
    exact (proj2 (H (NField 0 "a" "int" 4) (NField 0 "b" "long" 8)
                    (NField 0 "c" "short" 2) eq_refl eq_refl eq_refl eq_refl)
                 eq_refl).
  - destruct (Union_size_from_second_iteration 0 None
                (Sequence [NField 0 "a" "int" 4; NField 0 "b" "long" 8;
                           NField 0 "c" "short" 2])
                None ∅) as (size & Hu & _ & _ & H).
    rewrite Hu. f_equal. f_equal.
    exact (proj1 (H (NField 0 "a" "int" 4) (NField 0 "b" "long" 8)
                    (NField 0 "c" "short" 2) eq_refl eq_refl eq_refl eq_refl)
                 eq_refl).
Defined.

(** ** Equality *)

Lemma node_eq_Struct l n layout s l' n' layout' s' :
  node_eq (NStruct l n layout s) (NStruct l' n' layout' s')
  = bool_decide (l = l') && bool_decide (n = n') && tuple_eq layout layout'.
Proof. reflexivity. Qed.

Lemma node_eq_Union l n ms p s l' n' ms' p' s' :
  node_eq (NUnion l n ms p s) (NUnion l' n' ms' p' s')
  = bool_decide (l = l') && bool_decide (n = n') && tuple_eq ms ms'
    && padding_eq p p'.
Proof. reflexivity. Qed.

Lemma target_eq_true (t t' : target) : target_eq t t' = true <-> t = t'.
Proof.
  destruct t, t'; simpl; rewrite ?bool_decide_eq_true;
    split; intros H; try discriminate; congruence.
Qed.

Lemma tuple_eq_true_iff (f : Node -> Node) (xs ys : list Node) :
  Forall (fun x => forall y, node_eq x y = true <-> f x = f y) xs ->
  tuple_eq xs ys = true <-> map f xs = map f ys.
Proof.
  intros H. revert ys. induction H as [|x xs Hx _ IH]; intros [|y ys]; simpl;
    try (split; intros; discriminate); [done|].
  rewrite andb_true_iff, Hx, IH. split; [intros [-> ->]; done|].
  intros E. by injection E.
Qed.

(** [a == b] holds exactly when the attributes [__eq__] reads coincide,
    catalogs included. *)
Lemma node_eq_true_iff (a b : Node) :
  node_eq a b = true <-> fields true a = fields true b.
Proof.
  revert b. induction a as
    [l n s|l bt n s|l t n s|l n t s|s|l n layout s IH|l n ms p s IHm IHp|]
    using Node_nested_ind; intros b; destruct b;
    try (simpl; split; intros; discriminate).
  - simpl. rewrite !andb_true_iff, !bool_decide_eq_true. split.
    + intros [[-> ->] ->]. done.
    + intros E. by injection E.
  - simpl. rewrite !andb_true_iff, !bool_decide_eq_true. split.
    + intros [[-> ->] ->]. done.
    + intros E. by injection E.
  - simpl. rewrite !andb_true_iff, !bool_decide_eq_true, target_eq_true. split.
    + intros [-> ->]. done.
    + intros E. by injection E.
  - simpl. rewrite !andb_true_iff, !bool_decide_eq_true. split.
    + intros [[-> ->] ->]. done.
    + intros E. by injection E.
  - simpl. rewrite bool_decide_eq_true. split; congruence.
  - rewrite node_eq_Struct. simpl.
    rewrite !andb_true_iff, !bool_decide_eq_true,
      (tuple_eq_true_iff (fields true) _ _ IH). split.
    + intros [[-> ->] ->]. done.
    + intros E. by injection E.
  - rewrite node_eq_Union. simpl.
    rewrite !andb_true_iff, !bool_decide_eq_true,
      (tuple_eq_true_iff (fields true) _ _ IHm).
    assert (padding_eq p padding = true
            <-> option_map (fields true) p = option_map (fields true) padding)
      as ->.
    { destruct p as [q|], padding as [q'|]; simpl in *;
        try (split; intros; discriminate); [|done].
      rewrite IHp. split; congruence. }
    split.
    + intros [[[-> ->] ->] ->]. done.
    + intros E. by injection E.
  - done.
Qed.

(** Dropping the catalog from equal keys leaves equal semantic fields. *)
Lemma fields_true_false (a b : Node) :
  fields true a = fields true b -> fields false a = fields false b.
Proof.
  revert b. induction a as
    [l n s|l bt n s|l t n s|l n t s|s|l n layout s IH|l n ms p s IHm IHp|]
    using Node_nested_ind; intros b; destruct b; simpl;
    intros E; try discriminate; try (injection E as; subst; done).
  - injection E as -> -> E. f_equal.
    revert layout0 E. induction IH as [|x xs Hx _ IHxs]; intros [|y ys] E;
      simpl in *; try discriminate; [done|].
    injection E as E1 E2. f_equal; eauto.
  - injection E as -> -> E Ep. f_equal.
    + revert members E. induction IHm as [|x xs Hx _ IHxs]; intros [|y ys] E;
        simpl in *; try discriminate; [done|].
      injection E as E1 E2. f_equal; eauto.
    + destruct p as [q|], padding as [q'|]; simpl in *; try discriminate; [|done].
      injection Ep as Ep. f_equal. eauto.
  - done.
Qed.

Lemma fields_true_lib (a b : Node) :
  fields true a = fields true b -> node_lib a = node_lib b.
Proof. destruct a, b; simpl; intros E; try discriminate; congruence. Qed.

(** C8: equality is tied to the catalog. Two nodes that hold different
    catalogs compare unequal whatever their other fields are, so also
    when their semantic fields are identical; and two nodes compare equal
    only when their semantic fields agree and their [lib] attributes are the
    same. [UDT.Padding] and [Void] have no [lib] attribute and belong to
    no catalog: for them equality is equality of the size, respectively of
    the class. *)
Theorem equality_scoped_to_catalog (a b : Node) :
  (forall la lb,
      node_lib a = Some la -> node_lib b = Some lb -> la <> lb ->
      node_eq a b = false) /\
  (node_eq a b = true ->
   semantic_fields a = semantic_fields b /\ node_lib a = node_lib b) /\
  (node_lib a = None -> (node_eq a b = true <-> a = b)).
Proof.
  split; [|split].
  - intros la lb Ha Hb Hne. apply not_true_is_false. intros E.
    apply node_eq_true_iff, fields_true_lib in E. congruence.
  - intros E. apply node_eq_true_iff in E. split.
    + by apply fields_true_false.
    + by apply fields_true_lib.
  - intros Ha. rewrite node_eq_true_iff.
    destruct a; try discriminate Ha; destruct b; simpl;
      split; intros E; try discriminate E; congruence.
Qed.

Lemma equality_scoped_to_catalog_witness :
  semantic_fields (NStruct 1 (Some "s") [NField 1 "x" "int" 4; NPadding 4] 8)
  = semantic_fields (NStruct 2 (Some "s") [NField 2 "x" "int" 4; NPadding 4] 8)
  /\ node_eq (NStruct 1 (Some "s") [NField 1 "x" "int" 4; NPadding 4] 8)
             (NStruct 2 (Some "s") [NField 2 "x" "int" 4; NPadding 4] 8) = false
  /\ node_eq (NTypeInfo 1 (Some "int") 4) (NTypeInfo 1 (Some "int") 4) = true.
Proof.
  split; [reflexivity|]. split; [|reflexivity].
  apply (proj1 (equality_scoped_to_catalog
                  (NStruct 1 (Some "s") [NField 1 "x" "int" 4; NPadding 4] 8)
                  (NStruct 2 (Some "s") [NField 2 "x" "int" 4; NPadding 4] 8))
           1%nat 2%nat); [reflexivity|reflexivity|lia].
Defined.

(** ** Reasoning in the monad *)

Lemma bind_unfold {St A B} (m : M St A) (k : A -> M St B) (st : St) :
  bind m k st =
  match m st with
  | (Ok a, st') => k a st'
  | (Raise e, st') => (Raise e, st')
  | (OutOfFuel, st') => (OutOfFuel, st')
  | (OutOfModel, st') => (OutOfModel, st')
  end.
Proof. reflexivity. Qed.

Lemma bind_Ok_inv {St A B} (m : M St A) (k : A -> M St B) st b st' :
  bind m k st = (Ok b, st') ->
  exists a st1, m st = (Ok a, st1) /\ k a st1 = (Ok b, st').
Proof.
  rewrite bind_unfold. destruct (m st) as [[a|e| |] st1]; try discriminate.
  eauto.
Qed.

Lemma bind_fuel {St A B} (m : M St A) (k : A -> M St B) st :
  (m st).1 <> OutOfFuel ->
  (forall a st1, m st = (Ok a, st1) -> (k a st1).1 <> OutOfFuel) ->
  (bind m k st).1 <> OutOfFuel.
Proof.
  intros Hm Hk. rewrite bind_unfold.
  destruct (m st) as [[a|e| |] st1]; simpl in *; try done. by apply Hk.
Qed.

(** ** The library and the worklist only grow *)

#[local] Instance extends_refl : Reflexive extends.
Proof.
  intros st. split; [done|]. exists []. rewrite app_nil_r. simpl.
  split; [done|]. split; [constructor|]. split; [set_solver|set_solver].
Qed.

#[local] Instance extends_trans : Transitive extends.
Proof.
  intros a b c [Hl1 (n1 & Ht1 & Hd1 & Hf1 & Hw1)] [Hl2 (n2 & Ht2 & Hd2 & Hf2 & Hw2)].
  split; [by etrans|]. exists (n1 ++ n2).
  split; [by rewrite Ht2, Ht1, app_assoc|].
  split.
  { apply NoDup_app. split; [done|]. split; [|done].
    intros sig H1 H2. apply (Hf2 sig H2). rewrite Hw1. set_solver. }
  split.
  { intros sig [H|H]%elem_of_app; [by apply Hf1|].
    intros Hin. apply (Hf2 sig H). rewrite Hw1. set_solver. }
  rewrite Hw2, Hw1, list_to_set_app_L. set_solver.
Qed.

Lemma extends_worklist st st' : extends st st' -> worklist st ⊆ worklist st'.
Proof. intros [_ (n & _ & _ & _ & ->)]. set_solver. Qed.

Lemma extends_lookup st st' key item :
  extends st st' -> lib_data st !! key = Some item ->
  lib_data st' !! key = Some item.
Proof. intros [H _] Hk. by eapply lookup_weaken. Qed.

Lemma ext_ret {A} (a : A) : ext (ret a).
Proof. intros st. simpl. reflexivity. Qed.

Lemma ext_bind {A B} (m : M AddState A) (k : A -> M AddState B) :
  ext m -> (forall a, ext (k a)) -> ext (bind m k).
Proof.
  intros Hm Hk st. rewrite bind_unfold. specialize (Hm st).
  destruct (m st) as [[a|e| |] st1]; simpl in *; try done.
  etrans; [exact Hm|]. apply Hk.
Qed.

Lemma lib_grows_ret {A} (a : A) : lib_grows (ret a).
Proof. intros data. done. Qed.

Lemma lib_grows_bind {A B} (m : M TypeLib A) (k : A -> M TypeLib B) :
  lib_grows m -> (forall a, lib_grows (k a)) -> lib_grows (bind m k).
Proof.
  intros Hm Hk data. rewrite bind_unfold. specialize (Hm data).
  destruct (m data) as [[a|e| |] d1]; simpl in *; try done.
  etrans; [exact Hm|]. apply Hk.
Qed.

Lemma lib_grows_setitem key item : lib_grows (setitem key item).
Proof. intros data. apply setitem_subseteq. Qed.

Lemma lib_grows_getitem key : lib_grows (getitem key).
Proof. intros data. unfold getitem. by destruct (data !! key). Qed.

Create HintDb lib_grows.
#[local] Hint Resolve lib_grows_ret lib_grows_bind lib_grows_setitem
  lib_grows_getitem : lib_grows.

Lemma lib_grows_TypeInfo_init lib name size :
  lib_grows (TypeInfo_init lib name size).
Proof. unfold TypeInfo_init. destruct name; auto with lib_grows. Qed.

Lemma lib_grows_Array_init lib base n : lib_grows (Array_init lib base n).
Proof. unfold Array_init. auto 6 with lib_grows. Qed.

Lemma lib_grows_Pointer_init ida lib t : lib_grows (Pointer_init ida lib t).
Proof. unfold Pointer_init. auto with lib_grows. Qed.

Lemma lib_grows_Field_init lib name t : lib_grows (Field_init lib name t).
Proof. unfold Field_init. auto with lib_grows. Qed.

Lemma lib_grows_Struct_init lib name layout :
  lib_grows (Struct_init lib name layout).
Proof. unfold Struct_init. destruct name; auto with lib_grows. Qed.

Lemma lib_grows_Union_init lib name ms p : lib_grows (Union_init lib name ms p).
Proof. unfold Union_init. destruct name; auto with lib_grows. Qed.

#[local] Hint Resolve lib_grows_TypeInfo_init lib_grows_Array_init
  lib_grows_Pointer_init lib_grows_Field_init lib_grows_Struct_init
  lib_grows_Union_init : lib_grows.

Lemma ext_in_lib {A} (m : M TypeLib A) : lib_grows m -> ext (in_lib m).
Proof.
  intros Hm st. unfold in_lib. specialize (Hm (lib_data st)).
  destruct (m (lib_data st)) as [r data]. simpl in *.
  split; [done|]. exists []. simpl. rewrite app_nil_r.
  split; [done|]. split; [constructor|]. split; set_solver.
Qed.

Lemma extends_worklist_add sig st :
  sig ∉ worklist st -> extends st (worklist_add sig st).2.
Proof.
  intros H. split; [done|]. exists [sig]. simpl.
  split; [done|]. split; [apply NoDup_singleton|].
  split; [set_solver|set_solver].
Qed.

Section Growth.
Context (ida : Provider) (self : lib_id).

Lemma ext_union_members rec typ ns members :
  (forall t, ext (rec t)) -> ext (union_members ida self rec typ ns members).
Proof.
  intros Hrec. revert members. induction ns as [|n ns IH]; intros members; simpl.
  - apply ext_ret.
  - apply ext_bind; [apply Hrec|]. intros _.
    apply ext_bind; [apply ext_in_lib; auto with lib_grows|]. intros f. apply IH.
Qed.

Lemma ext_struct_layout rec typ ns layout next :
  (forall t, ext (rec t)) -> ext (struct_layout ida self rec typ ns layout next).
Proof.
  intros Hrec. revert layout next.
  induction ns as [|n ns IH]; intros layout next; simpl.
  - apply ext_ret.
  - apply ext_bind; [apply Hrec|]. intros _.
    apply ext_bind; [apply ext_in_lib; auto with lib_grows|]. intros f. apply IH.
Qed.

Lemma ext_add fuel typ : ext (add ida self fuel typ).
Proof.
  revert typ. induction fuel as [|fuel IH]; intros typ st; simpl; [reflexivity|].
  destruct (bool_decide (dstr ida typ ∈ worklist st)) eqn:Hin; simpl;
    [reflexivity|].
  destruct (is_void ida typ); [reflexivity|].
  apply bool_decide_eq_false in Hin.
  rewrite bind_unfold.
  pose proof (extends_worklist_add _ _ Hin) as H1.
  destruct (worklist_add (dstr ida typ) st) as [[[]|e| |] st1] eqn:E1;
    try discriminate E1. simpl in H1.
  etrans; [exact H1|]. clear H1 E1 Hin.
  revert st1.
  repeat match goal with
         | |- forall st1, extends st1 (?m st1).2 => change (ext m)
         | |- ext (if ?b then _ else _) => destruct b
         | |- ext (bind _ _) => apply ext_bind
         | |- ext (ret _) => apply ext_ret
         | |- ext (in_lib _) => apply ext_in_lib; auto with lib_grows
         | |- ext (add _ _ _ _) => apply IH
         | |- ext (union_members _ _ _ _ _ _) => apply ext_union_members
         | |- ext (struct_layout _ _ _ _ _ _ _) => apply ext_struct_layout
         | |- forall _, _ => intros ?
         end.
Qed.

End Growth.

(** ** Termination *)

Lemma fueled_ret {St A} (a : A) : fueled (ret (St := St) a).
Proof. intros st. done. Qed.

Lemma fueled_bind {St A B} (m : M St A) (k : A -> M St B) :
  fueled m -> (forall a, fueled (k a)) -> fueled (bind m k).
Proof. intros Hm Hk st. apply bind_fuel; [apply Hm|]. intros a st1 _. apply Hk. Qed.

Lemma fueled_setitem key item : fueled (setitem key item).
Proof. intros data. by rewrite setitem_Ok. Qed.

Lemma fueled_getitem key : fueled (getitem key).
Proof. intros data. unfold getitem. by destruct (data !! key). Qed.

Create HintDb fueled.
#[local] Hint Resolve fueled_ret fueled_bind fueled_setitem fueled_getitem : fueled.

Lemma fueled_TypeInfo_init lib name size : fueled (TypeInfo_init lib name size).
Proof. unfold TypeInfo_init. destruct name; auto with fueled. Qed.

Lemma fueled_Array_init lib base n : fueled (Array_init lib base n).
Proof. unfold Array_init. auto 6 with fueled. Qed.

Lemma fueled_Pointer_init ida lib t : fueled (Pointer_init ida lib t).
Proof. unfold Pointer_init. auto with fueled. Qed.

Lemma fueled_Field_init lib name t : fueled (Field_init lib name t).
Proof. unfold Field_init. auto with fueled. Qed.

Lemma fueled_Struct_init lib name layout : fueled (Struct_init lib name layout).
Proof. unfold Struct_init. destruct name; auto with fueled. Qed.

Lemma fueled_Union_init lib name ms p : fueled (Union_init lib name ms p).
Proof. unfold Union_init. destruct name; auto with fueled. Qed.

#[local] Hint Resolve fueled_TypeInfo_init fueled_Array_init fueled_Pointer_init
  fueled_Field_init fueled_Struct_init fueled_Union_init : fueled.

Lemma fueled_in_lib {A} (m : M TypeLib A) : fueled m -> fueled (in_lib m).
Proof.
  intros Hm st. unfold in_lib. specialize (Hm (lib_data st)).
  by destruct (m (lib_data st)).
Qed.

Lemma in_lib_worklist {A} (m : M TypeLib A) st :
  worklist (in_lib m st).2 = worklist st.
Proof. unfold in_lib. by destruct (m (lib_data st)). Qed.

Lemma in_lib_trace {A} (m : M TypeLib A) st : trace (in_lib m st).2 = trace st.
Proof. unfold in_lib. by destruct (m (lib_data st)). Qed.

Section Termination.
Context (ida : Provider) (self : lib_id).

Lemma reach_trans root t c : reach ida root t -> reach ida t c -> reach ida root c.
Proof. intros Ht Hc. induction Hc; [done|]. by eapply reach_child. Qed.

Lemma reach_of_child typ c : c ∈ children ida typ -> reach ida typ c.
Proof. intros H. eapply reach_child; [apply reach_root|done]. Qed.

Lemma within_child U typ c : within ida U typ -> c ∈ children ida typ -> within ida U c.
Proof.
  intros Hw Hc t Ht. apply Hw. eapply reach_trans; [|exact Ht].
  by apply reach_of_child.
Qed.

Lemma member_type_child typ n :
  is_void ida typ = false -> is_ptr ida typ = false ->
  is_array ida typ = false -> is_udt ida typ = true ->
  is_union ida typ || is_struct ida typ = true ->
  n ∈ seqZ 0 (get_udt_nmembers ida typ) ->
  member_type (find_udt_member ida typ n) ∈ children ida typ.
Proof.
  intros Hv Hp Ha Hu Hs Hn. unfold children, udt_members.
  rewrite Hv, Hp, Ha, Hu, Hs.
  apply list_elem_of_fmap. eexists; split; [done|].
  apply list_elem_of_fmap. eauto.
Qed.

(** The two loops finish when every recursive call they make does, in any
    state whose worklist contains [wl]. *)
Lemma union_members_fuel rec typ (wl : gset string) ns members st :
  (forall t, ext (rec t)) ->
  (forall n st', n ∈ ns -> wl ⊆ worklist st' ->
                 (rec (member_type (find_udt_member ida typ n)) st').1 <> OutOfFuel) ->
  wl ⊆ worklist st ->
  (union_members ida self rec typ ns members st).1 <> OutOfFuel.
Proof.
  intros Hext. revert members st.
  induction ns as [|n ns IH]; intros members st Hrec Hwl; simpl; [done|].
  apply bind_fuel; [apply Hrec; [set_solver|done]|].
  intros [] st1 E1.
  assert (wl ⊆ worklist st1) as Hwl1.
  { etrans; [exact Hwl|]. apply extends_worklist.
    pose proof (Hext (member_type (find_udt_member ida typ n)) st) as H.
    by rewrite E1 in H. }
  apply bind_fuel; [apply fueled_in_lib; auto with fueled|].
  intros f st2 E2. apply IH.
  - intros n' st' Hn'. apply Hrec. set_solver.
  - replace st2 with (in_lib (Field_init self (member_name (find_udt_member ida typ n)) (dstr ida (member_type (find_udt_member ida typ n)))) st1).2
      by (by rewrite E2).
    by rewrite in_lib_worklist.
Qed.

Lemma struct_layout_fuel rec typ (wl : gset string) ns layout next st :
  (forall t, ext (rec t)) ->
  (forall n st', n ∈ ns -> wl ⊆ worklist st' ->
                 (rec (member_type (find_udt_member ida typ n)) st').1 <> OutOfFuel) ->
  wl ⊆ worklist st ->
  (struct_layout ida self rec typ ns layout next st).1 <> OutOfFuel.
Proof.
  intros Hext. revert layout next st.
  induction ns as [|n ns IH]; intros layout next st Hrec Hwl; simpl; [done|].
  apply bind_fuel; [apply Hrec; [set_solver|done]|].
  intros [] st1 E1.
  assert (wl ⊆ worklist st1) as Hwl1.
  { etrans; [exact Hwl|]. apply extends_worklist.
    pose proof (Hext (member_type (find_udt_member ida typ n)) st) as H.
    by rewrite E1 in H. }
  apply bind_fuel; [apply fueled_in_lib; auto with fueled|].
  intros f st2 E2. apply IH.
  - intros n' st' Hn'. apply Hrec. set_solver.
  - replace st2 with (in_lib (Field_init self (member_name (find_udt_member ida typ n)) (dstr ida (member_type (find_udt_member ida typ n)))) st1).2
      by (by rewrite E2).
    by rewrite in_lib_worklist.
Qed.

(** [add] returns or raises as soon as the budget exceeds the number of
    signatures of [U] that are not marked yet. *)
Lemma add_terminates (U : gset string) fuel typ st :
  within ida U typ ->
  (size (U ∖ worklist st) < fuel)%nat ->
  (add ida self fuel typ st).1 <> OutOfFuel.
Proof.
  revert typ st. induction fuel as [|fuel IH]; intros typ st Hw Hsz; [lia|].
  simpl.
  destruct (bool_decide (dstr ida typ ∈ worklist st)) eqn:Hin; simpl; [done|].
  destruct (is_void ida typ) eqn:Hvoid; [done|].
  apply bool_decide_eq_false in Hin.
  rewrite bind_unfold. simpl.
  set (st1 := {| lib_data := lib_data st;
                 worklist := {[dstr ida typ]} ∪ worklist st;
                 trace := trace st ++ [dstr ida typ] |}).
  assert (forall c st2, c ∈ children ida typ -> worklist st1 ⊆ worklist st2 ->
                        (add ida self fuel c st2).1 <> OutOfFuel) as Hrec.
  { intros c st2 Hc Hsub. apply IH; [by eapply within_child|].
    assert (U ∖ worklist st2 ⊂ U ∖ worklist st) as Hlt.
    { split; [set_solver|]. intros Hsup.
      assert (dstr ida typ ∈ U ∖ worklist st) as H1.
      { apply elem_of_difference. split; [apply Hw, reach_root|done]. }
      apply Hsup in H1. set_solver. }
    apply subset_size in Hlt. lia. }
  clearbody st1.
  destruct (is_ptr ida typ) eqn:Hptr.
  { apply bind_fuel; [apply fueled_in_lib; auto with fueled|].
    intros p st2 E2. apply Hrec.
    - unfold children. rewrite Hvoid, Hptr. set_solver.
    - replace st2 with (in_lib (Pointer_init ida self (TInfo (get_pointed_object ida typ))) st1).2
        by (by rewrite E2).
      by rewrite in_lib_worklist. }
  destruct (is_array ida typ) eqn:Harr.
  { apply bind_fuel.
    - apply Hrec; [|done]. unfold children. rewrite Hvoid, Hptr, Harr. set_solver.
    - intros [] st2 _. apply fueled_bind; [apply fueled_in_lib; auto with fueled|].
      intros. apply fueled_ret. }
  destruct (is_udt ida typ) eqn:Hudt.
  2:{ apply fueled_bind; [apply fueled_in_lib; auto with fueled|].
      intros. apply fueled_ret. }
  destruct (is_union ida typ) eqn:Hunion.
  { apply bind_fuel.
    - apply (union_members_fuel _ _ (worklist st1)); [apply ext_add| |done].
      intros n st' Hn Hsub. apply Hrec; [|done].
      apply member_type_child; try done. by rewrite Hunion.
    - intros ms st2 _. apply fueled_bind; [apply fueled_in_lib; auto with fueled|].
      intros. apply fueled_ret. }
  destruct (is_struct ida typ) eqn:Hstruct; [|done].
  apply bind_fuel.
  - apply (struct_layout_fuel _ _ (worklist st1)); [apply ext_add| |done].
    intros n st' Hn Hsub. apply Hrec; [|done].
    apply member_type_child; try done. by rewrite Hunion, Hstruct.
  - intros ms st2 _. apply fueled_bind; [apply fueled_in_lib; auto with fueled|].
    intros. apply fueled_ret.
Qed.

End Termination.

(** ** Every reachable signature is visited *)

Section Exploration.
Context (ida : Provider) (self : lib_id) (root : tinfo_t).

(** The signature identifies the type, for the types below [root]. *)
Hypothesis dstr_inj :
  forall x y, reach ida root x -> reach ida root y ->
              dstr ida x = dstr ida y -> x = y.

Lemma handled_mono st st' c :
  worklist st ⊆ worklist st' -> handled ida st c -> handled ida st' c.
Proof. intros Hsub [H|H]; [by left|right; set_solver]. Qed.

Lemma explored_same st st' : worklist st' = worklist st -> explored ida root st st'.
Proof. intros E x _ H1 H2. rewrite E in H1. done. Qed.

Lemma explored_trans a b c :
  worklist b ⊆ worklist c -> explored ida root a b -> explored ida root b c -> explored ida root a c.
Proof.
  intros Hsub Hab Hbc x Hx Hin Hout ch Hch.
  destruct (decide (dstr ida x ∈ worklist b)) as [Hb|Hb].
  - apply (handled_mono b); [done|]. by apply (Hab x).
  - by apply (Hbc x).
Qed.

Lemma explored_mark typ st st1 st' :
  reach ida root typ ->
  worklist st1 = {[dstr ida typ]} ∪ worklist st ->
  worklist st1 ⊆ worklist st' ->
  explored ida root st1 st' ->
  (forall c, c ∈ children ida typ -> handled ida st' c) ->
  explored ida root st st' /\ handled ida st' typ.
Proof.
  intros Hr Hw Hsub He Hc. split; [|right; set_solver].
  intros x Hx Hin Hout c Hch.
  destruct (decide (dstr ida x = dstr ida typ)) as [E|E].
  - apply dstr_inj in E; [|done..]. subst x. by apply Hc.
  - apply (He x); [done..| |done]. rewrite Hw. set_solver.
Qed.

Lemma in_lib_Ok_explored {A} (m : M TypeLib A) st a st' :
  in_lib m st = (Ok a, st') -> worklist st' = worklist st.
Proof. intros E. rewrite <- (in_lib_worklist m st). by rewrite E. Qed.

Lemma rec_worklist (rec : tinfo_t -> M AddState unit)
    (Hext : forall t, ext (rec t)) t st (r : outcome unit) st' :
  rec t st = (r, st') -> worklist st ⊆ worklist st'.
Proof.
  intros E. apply extends_worklist. specialize (Hext t st). by rewrite E in Hext.
Qed.

Lemma union_members_explores rec typ ns members st ms st' :
  (forall t, ext (rec t)) ->
  (forall n s s', n ∈ ns ->
      rec (member_type (find_udt_member ida typ n)) s = (Ok tt, s') ->
      explored ida root s s' /\ handled ida s' (member_type (find_udt_member ida typ n))) ->
  union_members ida self rec typ ns members st = (Ok ms, st') ->
  worklist st ⊆ worklist st' /\ explored ida root st st' /\
  forall n, n ∈ ns -> handled ida st' (member_type (find_udt_member ida typ n)).
Proof.
  intros Hext. revert members st.
  induction ns as [|n ns IH]; intros members st Hrec E; simpl in E.
  - injection E as _ <-. split; [done|]. split; [by apply explored_same|].
    intros n Hn. by apply not_elem_of_nil in Hn.
  - apply bind_Ok_inv in E as ([] & st1 & E1 & E).
    apply bind_Ok_inv in E as (f & st2 & E2 & E).
    apply IH in E as (Hs3 & He3 & Hh3); [|intros; apply Hrec; set_solver].
    pose proof (rec_worklist rec Hext _ _ _ _ E1) as Hs1.
    pose proof (in_lib_Ok_explored _ _ _ _ E2) as Hs2.
    destruct (Hrec n st st1 ltac:(set_solver) E1) as [He1 Hh1].
    split; [set_solver|]. split.
    + apply (explored_trans _ st1); [set_solver|done|].
      apply (explored_trans _ st2); [done|by apply explored_same|done].
    + intros n' [->|Hn']%elem_of_cons; [|by apply Hh3].
      apply (handled_mono st1); [set_solver|done].
Qed.

Lemma struct_layout_explores rec typ ns layout next st ms st' :
  (forall t, ext (rec t)) ->
  (forall n s s', n ∈ ns ->
      rec (member_type (find_udt_member ida typ n)) s = (Ok tt, s') ->
      explored ida root s s' /\ handled ida s' (member_type (find_udt_member ida typ n))) ->
  struct_layout ida self rec typ ns layout next st = (Ok ms, st') ->
  worklist st ⊆ worklist st' /\ explored ida root st st' /\
  forall n, n ∈ ns -> handled ida st' (member_type (find_udt_member ida typ n)).
Proof.
  intros Hext. revert layout next st.
  induction ns as [|n ns IH]; intros layout next st Hrec E; simpl in E.
  - injection E as _ <-. split; [done|]. split; [by apply explored_same|].
    intros n Hn. by apply not_elem_of_nil in Hn.
  - apply bind_Ok_inv in E as ([] & st1 & E1 & E).
    apply bind_Ok_inv in E as (f & st2 & E2 & E).
    apply IH in E as (Hs3 & He3 & Hh3); [|intros; apply Hrec; set_solver].
    pose proof (rec_worklist rec Hext _ _ _ _ E1) as Hs1.
    pose proof (in_lib_Ok_explored _ _ _ _ E2) as Hs2.
    destruct (Hrec n st st1 ltac:(set_solver) E1) as [He1 Hh1].
    split; [set_solver|]. split.
    + apply (explored_trans _ st1); [set_solver|done|].
      apply (explored_trans _ st2); [done|by apply explored_same|done].
    + intros n' [->|Hn']%elem_of_cons; [|by apply Hh3].
      apply (handled_mono st1); [set_solver|done].
Qed.

Lemma add_explores fuel typ st st' :
  reach ida root typ ->
  add ida self fuel typ st = (Ok tt, st') ->
  explored ida root st st' /\ handled ida st' typ.
Proof.
  revert typ st st'. induction fuel as [|fuel IH]; intros typ st st' Hr E;
    simpl in E; [discriminate|].
  destruct (bool_decide (dstr ida typ ∈ worklist st)) eqn:Hin; simpl in E.
  { injection E as <-. apply bool_decide_eq_true in Hin.
    split; [by apply explored_same|by right]. }
  destruct (is_void ida typ) eqn:Hvoid.
  { injection E as <-. split; [by apply explored_same|by left]. }
  apply bool_decide_eq_false in Hin.
  rewrite bind_unfold in E. simpl in E.
  set (st1 := {| lib_data := lib_data st;
                 worklist := {[dstr ida typ]} ∪ worklist st;
                 trace := trace st ++ [dstr ida typ] |}) in E.
  assert (worklist st1 = {[dstr ida typ]} ∪ worklist st) as Hw1 by done.
  clearbody st1.
  assert (forall c s s', c ∈ children ida typ ->
            add ida self fuel c s = (Ok tt, s') ->
            explored ida root s s' /\ handled ida s' c) as Hrec.
  { intros c s s' Hc. apply IH. by eapply reach_child. }
  destruct (is_ptr ida typ) eqn:Hptr.
  { apply bind_Ok_inv in E as (p & st2 & E2 & E).
    pose proof (in_lib_Ok_explored _ _ _ _ E2) as Hs2.
    pose proof (rec_worklist _ (ext_add ida self fuel) _ _ _ _ E) as Hs3.
    apply Hrec in E as [He Hh];
      [|unfold children; rewrite Hvoid, Hptr; set_solver].
    apply (explored_mark typ st st1); [done|done|set_solver| |].
    - apply (explored_trans _ st2); [done|by apply explored_same|done].
    - intros c Hc. unfold children in Hc. rewrite Hvoid, Hptr in Hc.
      apply list_elem_of_singleton in Hc as ->. done. }
  destruct (is_array ida typ) eqn:Harr.
  { apply bind_Ok_inv in E as ([] & st2 & E2 & E).
    apply bind_Ok_inv in E as (a & st3 & E3 & E). injection E as <-.
    pose proof (in_lib_Ok_explored _ _ _ _ E3) as Hs3.
    pose proof (rec_worklist _ (ext_add ida self fuel) _ _ _ _ E2) as Hs2.
    apply Hrec in E2 as [He Hh];
      [|unfold children; rewrite Hvoid, Hptr, Harr; set_solver].
    apply (explored_mark typ st st1); [done|done|set_solver| |].
    - apply (explored_trans _ st2); [set_solver|done|by apply explored_same].
    - intros c Hc. unfold children in Hc. rewrite Hvoid, Hptr, Harr in Hc.
      apply list_elem_of_singleton in Hc as ->.
      apply (handled_mono st2); [set_solver|done]. }
  destruct (is_udt ida typ) eqn:Hudt.
  2:{ apply bind_Ok_inv in E as (a & st2 & E2 & E). injection E as <-.
      pose proof (in_lib_Ok_explored _ _ _ _ E2) as Hs2.
      apply (explored_mark typ st st1); [done|done|set_solver| |].
      - by apply explored_same.
      - intros c Hc. unfold children in Hc.
        rewrite Hvoid, Hptr, Harr, Hudt in Hc. by apply not_elem_of_nil in Hc. }
  destruct (is_union ida typ) eqn:Hunion.
  { apply bind_Ok_inv in E as (ms & st2 & E2 & E).
    apply bind_Ok_inv in E as (a & st3 & E3 & E). injection E as <-.
    pose proof (in_lib_Ok_explored _ _ _ _ E3) as Hs3.
    apply union_members_explores in E2 as (Hs2 & He2 & Hh2);
      [|apply ext_add|].
    2:{ intros n s s' Hn. apply Hrec. apply member_type_child; try done.
        by rewrite Hunion. }
    apply (explored_mark typ st st1); [done|done|set_solver| |].
    - apply (explored_trans _ st2); [set_solver|done|by apply explored_same].
    - intros c Hc. unfold children, udt_members in Hc.
      rewrite Hvoid, Hptr, Harr, Hudt, Hunion in Hc. simpl in Hc.
      apply list_elem_of_fmap in Hc as (m & -> & Hm).
      apply list_elem_of_fmap in Hm as (n & -> & Hn).
      apply (handled_mono st2); [set_solver|by apply Hh2]. }
  destruct (is_struct ida typ) eqn:Hstruct.
  { apply bind_Ok_inv in E as (ms & st2 & E2 & E).
    apply bind_Ok_inv in E as (a & st3 & E3 & E). injection E as <-.
    pose proof (in_lib_Ok_explored _ _ _ _ E3) as Hs3.
    apply struct_layout_explores in E2 as (Hs2 & He2 & Hh2);
      [|apply ext_add|].
    2:{ intros n s s' Hn. apply Hrec. apply member_type_child; try done.
        by rewrite Hunion, Hstruct. }
    apply (explored_mark typ st st1); [done|done|set_solver| |].
    - apply (explored_trans _ st2); [set_solver|done|by apply explored_same].
    - intros c Hc. unfold children, udt_members in Hc.
      rewrite Hvoid, Hptr, Harr, Hudt, Hunion, Hstruct in Hc. simpl in Hc.
      apply list_elem_of_fmap in Hc as (m & -> & Hm).
      apply list_elem_of_fmap in Hm as (n & -> & Hn).
      apply (handled_mono st2); [set_solver|by apply Hh2]. }
  injection E as <-.
  apply (explored_mark typ st st1); [done|done|set_solver| |].
  - by apply explored_same.
  - intros c Hc. unfold children in Hc.
    rewrite Hvoid, Hptr, Harr, Hudt, Hunion, Hstruct in Hc.
    by apply not_elem_of_nil in Hc.
Qed.

(** After a call from outside that returns, every type below [root] that
    is not void has its signature marked. *)
Lemma add_fresh_marks_reachable fuel data st' x :
  add_fresh ida self fuel root data = (Ok tt, st') ->
  reach ida root x -> is_void ida x = false -> dstr ida x ∈ worklist st'.
Proof.
  intros E Hx. unfold add_fresh in E.
  apply add_explores in E as [He Hh]; [|apply reach_root].
  induction Hx as [|t c Ht IHt Hc]; intros Hv.
  - destruct Hh as [Hh|Hh]; [congruence|done].
  - assert (is_void ida t = false) as Hvt.
    { destruct (is_void ida t) eqn:Evt; [|done].
      unfold children in Hc. rewrite Evt in Hc. by apply not_elem_of_nil in Hc. }
    destruct (He t Ht (IHt Hvt) ltac:(simpl; set_solver) c Hc) as [H|H];
      [congruence|done].
Qed.

End Exploration.

(** ** The layout of a struct *)

Lemma in_lib_Field_init_Ok lib name t st f st' :
  in_lib (Field_init lib name t) st = (Ok f, st') ->
  exists ty, lib_data st !! t = Some ty /\
             f = NField lib name t (node_size ty) /\ st' = st.
Proof.
  unfold in_lib, Field_init. rewrite bind_unfold. unfold getitem.
  destruct (lib_data st !! t) as [ty|] eqn:E; simpl; [|discriminate].
  intros H. injection H as <- <-. exists ty. by destruct st.
Qed.

Lemma in_lib_Field_init_present lib name t ty st :
  lib_data st !! t = Some ty ->
  in_lib (Field_init lib name t) st = (Ok (NField lib name t (node_size ty)), st).
Proof.
  intros E. unfold in_lib, Field_init. rewrite bind_unfold. unfold getitem.
  rewrite E. simpl. by destruct st.
Qed.

Section Layout.
Context (ida : Provider) (self : lib_id).

Lemma expected_layout_cons data start m ms :
  expected_layout ida self data start (m :: ms)
  = member_entries ida self data start m
    ++ expected_layout ida self data (member_end m) ms.
Proof. reflexivity. Qed.

Lemma expected_layout_ext data data' start ms :
  (forall m, m ∈ ms ->
             data !! dstr ida (member_type m) = data' !! dstr ida (member_type m)) ->
  expected_layout ida self data start ms = expected_layout ida self data' start ms.
Proof.
  revert start. induction ms as [|m ms IH]; intros start H; [done|].
  rewrite !expected_layout_cons, IH by (intros; apply H; set_solver).
  unfold member_entries. rewrite (H m) by set_solver. done.
Qed.

(** The loop builds the layout that [expected_layout] describes. *)
Lemma struct_layout_spec rec typ ns layout next st L st' :
  (forall t, ext (rec t)) ->
  struct_layout ida self rec typ ns layout next st = (Ok L, st') ->
  extends st st' /\
  L = layout ++ expected_layout ida self (lib_data st') next
                  (find_udt_member ida typ <$> ns).
Proof.
  intros Hext. revert layout next st.
  induction ns as [|n ns IH]; intros layout next st E; simpl in E.
  - injection E as <- <-. split; [reflexivity|].
    by rewrite app_nil_r.
  - apply bind_Ok_inv in E as ([] & st1 & E1 & E).
    apply bind_Ok_inv in E as (f & st2 & E2 & E).
    apply in_lib_Field_init_Ok in E2 as (ty & Hty & -> & ->).
    apply IH in E as [Hx ->].
    assert (extends st st1) as Hx1.
    { pose proof (Hext (member_type (find_udt_member ida typ n)) st) as H.
      by rewrite E1 in H. }
    split; [by etrans|].
    rewrite fmap_cons, expected_layout_cons. unfold member_entries.
    rewrite (extends_lookup _ _ _ _ Hx Hty). simpl.
    unfold Padding_init.
    destruct (decide (member_offset (find_udt_member ida typ n) = next)) as [Eo|Eo].
    + rewrite (bool_decide_eq_false_2 (_ ≠ _)) by (intros H; by apply H).
      rewrite (bool_decide_eq_true_2 (_ = _)) by done.
      simpl. by rewrite <- app_assoc.
    + rewrite (bool_decide_eq_true_2 (_ ≠ _)) by done.
      rewrite (bool_decide_eq_false_2 (_ = _)) by done.
      simpl. by rewrite <- !app_assoc.
Qed.

(** One unfolding of [add]. *)
Lemma add_S fuel typ st :
  add ida self (S fuel) typ st =
  if bool_decide (dstr ida typ ∈ worklist st) || is_void ida typ
  then (Ok tt, st)
  else
    (let* _ := worklist_add (dstr ida typ) in
     if is_ptr ida typ then
       let* _ := in_lib (Pointer_init ida self
                           (TInfo (get_pointed_object ida typ))) in
       add ida self fuel (get_pointed_object ida typ)
     else if is_array ida typ then
       let* _ := add ida self fuel (get_array_element ida typ) in
       let* _ := in_lib (Array_init self
                           (dstr ida (elem_type (get_array_details ida typ)))
                           (nelems (get_array_details ida typ))) in
       ret tt
     else if is_udt ida typ then
       if is_union ida typ then
         let* members :=
           union_members ida self (add ida self fuel) typ
             (seqZ 0 (get_udt_nmembers ida typ)) [] in
         let* _ := in_lib (Union_init self (Some (dstr ida typ))
                             (Sequence members) None) in
         ret tt
       else if is_struct ida typ then
         let* layout :=
           struct_layout ida self (add ida self fuel) typ
             (seqZ 0 (get_udt_nmembers ida typ)) [] 0 in
         let* _ := in_lib (Struct_init self (Some (dstr ida typ))
                             (Sequence layout)) in
         ret tt
       else ret tt
     else
       let* _ := in_lib (TypeInfo_init self (Some (dstr ida typ))
                           (get_size ida typ)) in
       ret tt) st.
Proof. reflexivity. Qed.

Lemma add_leaf own fuel t st :
  is_leaf ida t = true -> dstr ida t <> own -> members_inv own st ->
  exists st', add ida self (S fuel) t st = (Ok tt, st') /\
              members_inv own st' /\ is_Some (lib_data st' !! dstr ida t).
Proof.
  unfold is_leaf. rewrite !andb_true_iff, !negb_true_iff.
  intros [[[Hv Hp] Ha] Hu] Hne (Hown & Hnone & Hall). simpl.
  destruct (bool_decide (dstr ida t ∈ worklist st)) eqn:Hin; simpl.
  { apply bool_decide_eq_true in Hin. exists st.
    split; [done|]. split; [done|]. by apply Hall. }
  rewrite Hv, bind_unfold. simpl. rewrite Hp, Ha, Hu.
  rewrite bind_unfold. unfold in_lib, TypeInfo_init. simpl.
  rewrite bind_unfold.
  pose proof (setitem_Ok (dstr ida t)
                (NTypeInfo self (Some (dstr ida t)) (get_size ida t)) (lib_data st)) as HOk.
  pose proof (setitem_subseteq (dstr ida t)
                (NTypeInfo self (Some (dstr ida t)) (get_size ida t)) (lib_data st)) as Hsub.
  pose proof (setitem_lookup (dstr ida t)
                (NTypeInfo self (Some (dstr ida t)) (get_size ida t)) (lib_data st)) as Hl.
  assert ((setitem (dstr ida t)
             (NTypeInfo self (Some (dstr ida t)) (get_size ida t)) (lib_data st)).2
          !! own = None) as Hown'.
  { unfold setitem. destruct (contains _ _); simpl; [done|].
    by rewrite lookup_insert_ne. }
  destruct (setitem _ _ _) as [r data']. simpl in *. subst r. simpl.
  eexists. split; [reflexivity|]. simpl.
  split; [|done]. split; [set_solver|]. split; [done|].
  intros sig [Hs|Hs]%elem_of_union Hso.
  - apply elem_of_singleton in Hs as ->. done.
  - destruct (Hall sig Hs Hso) as [x Hx]. exists x. by eapply lookup_weaken.
Qed.

Lemma struct_layout_of_leaves own fuel typ ns layout next st :
  (forall n, n ∈ ns ->
      is_leaf ida (member_type (find_udt_member ida typ n)) = true /\
      dstr ida (member_type (find_udt_member ida typ n)) <> own) ->
  members_inv own st ->
  exists L st',
    struct_layout ida self (add ida self (S fuel)) typ ns layout next st
    = (Ok L, st') /\ members_inv own st'.
Proof.
  revert layout next st. induction ns as [|n ns IH];
    intros layout next st Hleaf Hinv; cbn [struct_layout].
  - by exists layout, st.
  - destruct (Hleaf n ltac:(set_solver)) as [Hl Hne].
    destruct (add_leaf own fuel _ st Hl Hne Hinv) as (st1 & E1 & Hinv1 & [ty Hty]).
    rewrite bind_unfold, E1, bind_unfold.
    rewrite (in_lib_Field_init_present _ _ _ ty) by done.
    apply IH; [|done]. intros; apply Hleaf; set_solver.
Qed.

(** Normalising a struct whose member types are leaves: the call returns,
    and a library that did not hold the struct's name now holds a [Struct]
    with the expected layout, whose size is the sum of the layout. *)
Lemma add_struct_of_leaves typ data fuel :
  takes_struct_branch ida typ = true ->
  (forall m, m ∈ udt_members ida typ ->
             is_leaf ida (member_type m) = true /\
             dstr ida (member_type m) <> dstr ida typ) ->
  data !! dstr ida typ = None ->
  (2 <= fuel)%nat ->
  exists st',
    add_fresh ida self fuel typ data = (Ok tt, st') /\
    let layout := expected_layout ida self (lib_data st') 0 (udt_members ida typ) in
    lib_data st' !! dstr ida typ
    = Some (NStruct self (Some (dstr ida typ)) layout (sum_of_sizes layout)).
Proof.
  unfold takes_struct_branch. rewrite !andb_true_iff, !negb_true_iff.
  intros [[[[[Hv Hp] Ha] Hu] Hun] Hs] Hleaf Hnone Hfuel.
  destruct fuel as [|[|fuel]]; [lia..|]. clear Hfuel.
  unfold add_fresh. rewrite add_S. cbn [worklist].
  rewrite (bool_decide_eq_false_2 (_ ∈ _)) by set_solver.
  rewrite Hv, bind_unfold. cbn [orb worklist_add lib_data worklist trace app].
  rewrite Hp, Ha, Hu, Hun, Hs.
  set (st1 := {| lib_data := data; worklist := {[dstr ida typ]} ∪ ∅;
                 trace := [dstr ida typ] |}).
  assert (members_inv (dstr ida typ) st1) as Hinv.
  { split; [set_solver|]. split; [done|]. intros sig Hsig Hne. set_solver. }
  destruct (struct_layout_of_leaves (dstr ida typ) fuel typ
              (seqZ 0 (get_udt_nmembers ida typ)) [] 0 st1) as (L & st2 & E & Hinv2);
    [|done|].
  { intros n Hn. apply Hleaf. unfold udt_members.
    apply list_elem_of_fmap. eauto. }
  rewrite bind_unfold, E.
  apply struct_layout_spec in E as [Hx ->]; [|apply ext_add].
  destruct Hinv2 as (_ & Hnone2 & _).
  rewrite bind_unfold. unfold in_lib, Struct_init. rewrite bind_unfold.
  rewrite (setitem_absent _ _ _ Hnone2). simpl.
  eexists. split; [reflexivity|]. simpl.
  rewrite lookup_insert_eq, layout_size_sum. fold (udt_members ida typ).
  set (L := expected_layout ida self (lib_data st2) 0 (udt_members ida typ)).
  set (N := NStruct self (Some (dstr ida typ)) L (sum_of_sizes L)).
  assert (expected_layout ida self (<[dstr ida typ := N]> (lib_data st2)) 0
            (udt_members ida typ) = L) as ->; [|done].
  symmetry. apply expected_layout_ext.
  intros m Hm. rewrite lookup_insert_ne; [done|].
  intros Heq. by destruct (Hleaf m Hm) as [_ []].
Qed.

End Layout.

(** ** Padding *)

Lemma struct_of_leaves_inv ida typ :
  struct_of_leaves ida typ = true ->
  takes_struct_branch ida typ = true /\
  forall m, m ∈ udt_members ida typ ->
            is_leaf ida (member_type m) = true /\
            dstr ida (member_type m) <> dstr ida typ.
Proof.
  unfold struct_of_leaves. rewrite andb_true_iff, forallb_forall.
  intros [H1 H2]. split; [done|]. intros m Hm%list_elem_of_In.
  apply H2 in Hm. apply andb_true_iff in Hm as [Hl Hd].
  by apply bool_decide_eq_true in Hd.
Qed.

(** The entries of a member that starts at a byte boundary, when the
    previous member ended at one: the padding is the difference in bytes. *)
Lemma member_entries_bytes ida self data (m : udt_member_t) (byte_offset byte_expected : Z) :
  member_offset m = 8 * byte_offset ->
  member_entries ida self data (8 * byte_expected) m =
  (if bool_decide (byte_offset = byte_expected) then []
   else [NPadding (byte_offset - byte_expected)])
  ++ [NField self (member_name m) (dstr ida (member_type m))
        (from_option node_size 0 (data !! dstr ida (member_type m)))].
Proof.
  intros E. unfold member_entries. rewrite E. f_equal.
  destruct (decide (byte_offset = byte_expected)) as [->|Hne].
  - by rewrite !bool_decide_eq_true_2.
  - rewrite !bool_decide_eq_false_2 by lia. do 2 f_equal.
    replace (8 * byte_offset - 8 * byte_expected)
      with ((byte_offset - byte_expected) * 8) by lia.
    by rewrite Z.div_mul.
Qed.

(** C4: a struct is normalised to the layout in which every member that
    does not start where the previous one ended (the first: at 0) is preceded
    by a [Padding] of the gap, [(offset - expected) // 8] bytes, which for
    byte-aligned members is the difference of the byte offsets; the size is
    the sum of the layout. Two 32-bit [int] members at bit offsets 0 and 64
    give [[Field a; Padding 4; Field b]] and size 12. *)
Theorem struct_padding_insertion :
  (* whenever the loop of the struct branch completes *)
  (forall ida self fuel typ st L st',
      struct_layout ida self (add ida self fuel) typ
        (seqZ 0 (get_udt_nmembers ida typ)) [] 0 st = (Ok L, st') ->
      L = expected_layout ida self (lib_data st') 0 (udt_members ida typ)) /\
  (* it does complete, and the struct is stored, when the members are leaves *)
  (forall ida self typ (data : TypeLib) fuel,
      struct_of_leaves ida typ = true ->
      data !! dstr ida typ = None ->
      (2 <= fuel)%nat ->
      exists st',
        add_fresh ida self fuel typ data = (Ok tt, st') /\
        let layout := expected_layout ida self (lib_data st') 0 (udt_members ida typ) in
        lib_data st' !! dstr ida typ
        = Some (NStruct self (Some (dstr ida typ)) layout (sum_of_sizes layout))) /\
  (* what one member contributes, in bytes *)
  (forall ida self data (m : udt_member_t) (byte_offset byte_expected : Z),
      member_offset m = 8 * byte_offset ->
      member_entries ida self data (8 * byte_expected) m =
      (if bool_decide (byte_offset = byte_expected) then []
       else [NPadding (byte_offset - byte_expected)])
      ++ [NField self (member_name m) (dstr ida (member_type m))
            (from_option node_size 0 (data !! dstr ida (member_type m)))]) /\
  (* the example *)
  (forall self fuel,
      (2 <= fuel)%nat ->
      exists st',
        add_fresh (ida_two_ints 64) self fuel 0 ∅ = (Ok tt, st') /\
        lib_data st' !! "pair"
        = Some (NStruct self (Some "pair")
                  [NField self "a" "int" 4; NPadding 4; NField self "b" "int" 4] 12)).
Proof.
  split; [|split; [|split]].
  - intros ida self fuel typ st L st' E.
    apply struct_layout_spec in E as [_ ->]; [done|apply ext_add].
  - intros ida self typ data fuel [Hs Hl]%struct_of_leaves_inv Hnone Hfuel.
    by apply add_struct_of_leaves.
  - intros. by apply member_entries_bytes.
  - intros self fuel Hfuel.
    destruct (add_struct_of_leaves (ida_two_ints 64) self 0%nat ∅ fuel)
      as (st' & E & H); [done| |done|done|].
    { by apply (struct_of_leaves_inv (ida_two_ints 64) 0%nat). }
    exists st'. split; [done|]. cbv zeta in H.
    change (dstr (ida_two_ints 64) 0) with "pair" in H. rewrite H. clear H.
    assert (lib_data st' !! "int" = Some (NTypeInfo self (Some "int") 4)) as Hint.
    { destruct fuel as [|[|fuel]]; [lia..|].
      vm_compute in E. injection E as <-. reflexivity. }
    unfold expected_layout, udt_members. simpl. unfold member_entries. simpl.
    rewrite Hint. reflexivity.
Qed.

Lemma struct_padding_insertion_witness :
  exists st',
    add_fresh (ida_two_ints 64) 7 2 0 ∅ = (Ok tt, st') /\
    lib_data st' !! "pair"
    = Some (NStruct 7 (Some "pair")
              (expected_layout (ida_two_ints 64) 7 (lib_data st') 0
                 (udt_members (ida_two_ints 64) 0))
              (sum_of_sizes
                 (expected_layout (ida_two_ints 64) 7 (lib_data st') 0
                    (udt_members (ida_two_ints 64) 0)))).
Proof.
  apply (proj1 (proj2 struct_padding_insertion) (ida_two_ints 64) 7%nat 0%nat ∅ 2%nat).
  - reflexivity.
  - reflexivity.
  - lia.
Defined.

(** The entries of a member that starts before the previous one ended. *)
Lemma member_entries_overlap ida self data (expected : Z) (m : udt_member_t) :
  member_offset m < expected ->
  exists p,
    p = (member_offset m - expected) / 8 /\ p < 0 /\
    member_entries ida self data expected m
    = [NPadding p;
       NField self (member_name m) (dstr ida (member_type m))
         (from_option node_size 0 (data !! dstr ida (member_type m)))] /\
    sum_of_sizes (member_entries ida self data expected m)
    = from_option node_size 0 (data !! dstr ida (member_type m)) + p.
Proof.
  intros Hlt. exists ((member_offset m - expected) / 8).
  split; [done|]. split; [apply Z.div_lt_upper_bound; lia|].
  unfold member_entries. rewrite bool_decide_eq_false_2 by lia.
  split; [done|]. simpl. lia.
Qed.

(** C10: a member whose bit offset is below the expected next offset raises
    nothing. The loop puts a [Padding] of [(offset - expected) // 8] bytes,
    a negative number, in front of its [Field], and since the size of the
    struct is the sum of the layout it is lower by that amount. Two 32-bit
    [int] members at bit offsets 0 and 16 give
    [[Field a; Padding (-2); Field b]] and size 6. *)
Theorem overlapping_members_negative_padding :
  (* the call returns and stores the struct with the expected layout *)
  (forall ida self typ (data : TypeLib) fuel,
      struct_of_leaves ida typ = true ->
      data !! dstr ida typ = None ->
      (2 <= fuel)%nat ->
      exists st',
        add_fresh ida self fuel typ data = (Ok tt, st') /\
        let layout := expected_layout ida self (lib_data st') 0 (udt_members ida typ) in
        lib_data st' !! dstr ida typ
        = Some (NStruct self (Some (dstr ida typ)) layout (sum_of_sizes layout))) /\
  (* in which an overlapping member has a negative padding before it *)
  (forall ida self data (expected : Z) (m : udt_member_t),
      member_offset m < expected ->
      exists p,
        p = (member_offset m - expected) / 8 /\ p < 0 /\
        member_entries ida self data expected m
        = [NPadding p;
           NField self (member_name m) (dstr ida (member_type m))
             (from_option node_size 0 (data !! dstr ida (member_type m)))] /\
        sum_of_sizes (member_entries ida self data expected m)
        = from_option node_size 0 (data !! dstr ida (member_type m)) + p) /\
  (* the sum runs over paddings and fields alike *)
  (forall ida self data start m ms,
      sum_of_sizes (expected_layout ida self data start (m :: ms))
      = sum_of_sizes (member_entries ida self data start m)
        + sum_of_sizes (expected_layout ida self data (member_end m) ms)) /\
  (* the example *)
  (forall self fuel,
      (2 <= fuel)%nat ->
      exists st',
        add_fresh (ida_two_ints 16) self fuel 0 ∅ = (Ok tt, st') /\
        lib_data st' !! "pair"
        = Some (NStruct self (Some "pair")
                  [NField self "a" "int" 4; NPadding (-2); NField self "b" "int" 4] 6)).
Proof.
  split; [|split; [|split]].
  - intros ida self typ data fuel [Hs Hl]%struct_of_leaves_inv Hnone Hfuel.
    by apply add_struct_of_leaves.
  - intros. by apply member_entries_overlap.
  - intros. by rewrite expected_layout_cons, sum_of_sizes_app.
  - intros self fuel Hfuel.
    destruct (add_struct_of_leaves (ida_two_ints 16) self 0%nat ∅ fuel)
      as (st' & E & H); [done| |done|done|].
    { by apply (struct_of_leaves_inv (ida_two_ints 16) 0%nat). }
    exists st'. split; [done|]. cbv zeta in H.
    change (dstr (ida_two_ints 16) 0) with "pair" in H. rewrite H. clear H.
    assert (lib_data st' !! "int" = Some (NTypeInfo self (Some "int") 4)) as Hint.
    { destruct fuel as [|[|fuel]]; [lia..|].
      vm_compute in E. injection E as <-. reflexivity. }
    unfold expected_layout, udt_members. simpl. unfold member_entries. simpl.
    rewrite Hint. reflexivity.
Qed.

Lemma overlapping_members_negative_padding_witness :
  (exists st',
      add_fresh (ida_two_ints 16) 7 2 0 ∅ = (Ok tt, st') /\
      lib_data st' !! "pair"
      = Some (NStruct 7 (Some "pair")
                (expected_layout (ida_two_ints 16) 7 (lib_data st') 0
                   (udt_members (ida_two_ints 16) 0))
                (sum_of_sizes
                   (expected_layout (ida_two_ints 16) 7 (lib_data st') 0
                      (udt_members (ida_two_ints 16) 0))))) /\
  (exists p,
      p = (16 - 32) / 8 /\ p < 0 /\
      member_entries (ida_two_ints 16) 7 ∅ 32
        (find_udt_member (ida_two_ints 16) 0 1)
      = [NPadding p; NField 7 "b" "int" 0] /\
      sum_of_sizes
        (member_entries (ida_two_ints 16) 7 ∅ 32
           (find_udt_member (ida_two_ints 16) 0 1)) = 0 + p).
Proof.
  split.
  - apply (proj1 overlapping_members_negative_padding
             (ida_two_ints 16) 7%nat 0%nat ∅ 2%nat).
    + reflexivity.
    + reflexivity.
    + lia.
  - exact (proj1 (proj2 overlapping_members_negative_padding)
             (ida_two_ints 16) 7%nat ∅ 32
             (find_udt_member (ida_two_ints 16) 0 1) eq_refl).
Defined.

(** ** The budget is only a bound *)

Lemma bind_fuel_inv {St A B} (m : M St A) (k : A -> M St B) st :
  (bind m k st).1 <> OutOfFuel ->
  (m st).1 <> OutOfFuel /\
  forall a st1, m st = (Ok a, st1) -> (k a st1).1 <> OutOfFuel.
Proof.
  rewrite bind_unfold. destruct (m st) as [[a|e| |] st1]; simpl; intros H.
  - split; [done|]. intros a' st1' E. by injection E as <- <-.
  - split; [done|]. intros a' st1' E. discriminate.
  - done.
  - split; [done|]. intros a' st1' E. discriminate.
Qed.

Lemma bind_agree {St A B} (m m' : M St A) (k k' : A -> M St B) st :
  m' st = m st ->
  (forall a st1, m st = (Ok a, st1) -> k' a st1 = k a st1) ->
  bind m' k' st = bind m k st.
Proof.
  intros Em Ek. rewrite !bind_unfold, Em.
  destruct (m st) as [[a|e| |] st1]; try done. by apply Ek.
Qed.

Section Fuel.
Context (ida : Provider) (self : lib_id).

Lemma union_members_agree (rec rec' : tinfo_t -> M AddState unit) typ ns members st :
  (forall t s, (rec t s).1 <> OutOfFuel -> rec' t s = rec t s) ->
  (union_members ida self rec typ ns members st).1 <> OutOfFuel ->
  union_members ida self rec' typ ns members st
  = union_members ida self rec typ ns members st.
Proof.
  intros Hrec. revert members st.
  induction ns as [|n ns IH]; intros members st H; cbn [union_members] in *; [done|].
  apply bind_fuel_inv in H as [H1 H2].
  apply bind_agree; [by apply Hrec|]. intros [] st1 E1.
  specialize (H2 _ _ E1). apply bind_fuel_inv in H2 as [_ H3].
  apply bind_agree; [done|]. intros f st2 E2. apply IH. by eapply H3.
Qed.

Lemma struct_layout_agree (rec rec' : tinfo_t -> M AddState unit) typ ns layout next st :
  (forall t s, (rec t s).1 <> OutOfFuel -> rec' t s = rec t s) ->
  (struct_layout ida self rec typ ns layout next st).1 <> OutOfFuel ->
  struct_layout ida self rec' typ ns layout next st
  = struct_layout ida self rec typ ns layout next st.
Proof.
  intros Hrec. revert layout next st.
  induction ns as [|n ns IH]; intros layout next st H; cbn [struct_layout] in *; [done|].
  apply bind_fuel_inv in H as [H1 H2].
  apply bind_agree; [by apply Hrec|]. intros [] st1 E1.
  specialize (H2 _ _ E1). apply bind_fuel_inv in H2 as [_ H3].
  apply bind_agree; [done|]. intros f st2 E2. apply IH. by eapply H3.
Qed.

(** A larger budget does not change the outcome of a call that ended. *)
Lemma add_fuel_mono fuel fuel' typ st :
  (fuel <= fuel')%nat ->
  (add ida self fuel typ st).1 <> OutOfFuel ->
  add ida self fuel' typ st = add ida self fuel typ st.
Proof.
  revert fuel' typ st. induction fuel as [|fuel IH]; intros fuel' typ st Hle H;
    [done|].
  destruct fuel' as [|fuel']; [lia|]. assert (fuel <= fuel')%nat as Hle' by lia.
  rewrite add_S in H. rewrite !add_S.
  destruct (bool_decide (dstr ida typ ∈ worklist st) || is_void ida typ); [done|].
  apply bind_fuel_inv in H as [_ H].
  apply bind_agree; [done|]. intros [] st1 E1. specialize (H _ _ E1).
  destruct (is_ptr ida typ).
  { apply bind_fuel_inv in H as [_ H].
    apply bind_agree; [done|]. intros p st2 E2. apply IH; [done|]. by eapply H. }
  destruct (is_array ida typ).
  { apply bind_fuel_inv in H as [H _].
    apply bind_agree; [by apply IH|]. done. }
  destruct (is_udt ida typ); [|done].
  destruct (is_union ida typ).
  { apply bind_fuel_inv in H as [H _].
    apply bind_agree; [|done]. apply union_members_agree; [|done].
    intros t s Hts. by apply IH. }
  destruct (is_struct ida typ); [|done].
  apply bind_fuel_inv in H as [H _].
  apply bind_agree; [|done]. apply struct_layout_agree; [|done].
  intros t s Hts. by apply IH.
Qed.

End Fuel.

(** ** Cycles *)

Lemma modelled_ret {St A} (a : A) : modelled (ret (St := St) a).
Proof. intros st. done. Qed.

Lemma modelled_bind {St A B} (m : M St A) (k : A -> M St B) :
  modelled m -> (forall a, modelled (k a)) -> modelled (bind m k).
Proof.
  intros Hm Hk st. rewrite bind_unfold. specialize (Hm st).
  destruct (m st) as [[a|e| |] st1]; simpl in *; try done. apply Hk.
Qed.

Lemma modelled_in_lib {A} (m : M TypeLib A) : modelled m -> modelled (in_lib m).
Proof.
  intros Hm st. unfold in_lib. specialize (Hm (lib_data st)).
  by destruct (m (lib_data st)).
Qed.

Lemma modelled_setitem key item : modelled (setitem key item).
Proof. intros data. by rewrite setitem_Ok. Qed.

Lemma modelled_getitem key : modelled (getitem key).
Proof. intros data. unfold getitem. by destruct (data !! key). Qed.

Ltac modelled_step :=
  match goal with
  | |- modelled (match ?x with Some _ => _ | None => _ end) => destruct x
  | |- modelled (if ?b then _ else _) => destruct b
  | |- modelled (bind _ _) => apply modelled_bind
  | |- modelled (ret _) => apply modelled_ret
  | |- modelled (in_lib _) => apply modelled_in_lib
  | |- modelled (setitem _ _) => apply modelled_setitem
  | |- modelled (getitem _) => apply modelled_getitem
  | |- forall _, _ => intros ?
  end.

Section Cycles.
Context (ida : Provider) (self : lib_id).

Lemma modelled_union_members rec typ ns members :
  (forall t, modelled (rec t)) ->
  modelled (union_members ida self rec typ ns members).
Proof.
  intros Hrec. revert members. induction ns as [|n ns IH]; intros members;
    cbn [union_members]; unfold Field_init;
    repeat first [apply Hrec | apply IH | modelled_step].
Qed.

Lemma modelled_struct_layout rec typ ns layout next :
  (forall t, modelled (rec t)) ->
  modelled (struct_layout ida self rec typ ns layout next).
Proof.
  intros Hrec. revert layout next.
  induction ns as [|n ns IH]; intros layout next;
    cbn [struct_layout]; unfold Field_init;
    repeat first [apply Hrec | apply IH | modelled_step].
Qed.

Lemma modelled_add fuel typ : modelled (add ida self fuel typ).
Proof.
  revert typ. induction fuel as [|fuel IH]; intros typ st; [done|].
  rewrite add_S.
  destruct (bool_decide (dstr ida typ ∈ worklist st) || is_void ida typ); [done|].
  revert st.
  match goal with |- forall st, (?m st).1 <> OutOfModel => change (modelled m) end.
  apply modelled_bind; [intros st; done|]. intros _.
  unfold Pointer_init, Array_init, Union_init, Struct_init, TypeInfo_init.
  repeat first [apply IH
               | apply modelled_union_members
               | apply modelled_struct_layout
               | modelled_step].
Qed.

(** What a call from outside leaves in [trace] and [worklist]. *)
Lemma add_fresh_trace fuel root (data : TypeLib) :
  let st' := (add_fresh ida self fuel root data).2 in
  data ⊆ lib_data st' /\ NoDup (trace st') /\
  worklist st' = list_to_set (trace st').
Proof.
  unfold add_fresh.
  destruct (ext_add ida self fuel root
              {| lib_data := data; worklist := ∅; trace := [] |})
    as [Hl (new & Ht & Hd & _ & Hw)].
  simpl in *. rewrite Ht. split; [done|]. split; [done|].
  rewrite Hw. set_solver.
Qed.

(** Entering the pointer branch: the pointer's signature is marked and the
    [Pointer] node is stored in the state in which the recursion into the
    pointee starts. *)
Lemma add_pointer_order fuel typ st :
  dstr ida typ ∉ worklist st -> is_void ida typ = false ->
  is_ptr ida typ = true ->
  let pointee := get_pointed_object ida typ in
  let node := NPointer self (TInfo pointee) (tinfo_str ida pointee +:+ " *") 8 in
  add ida self (S fuel) typ st
  = add ida self fuel pointee
      {| lib_data := (setitem (tinfo_str ida pointee +:+ " *") node (lib_data st)).2;
         worklist := {[dstr ida typ]} ∪ worklist st;
         trace := trace st ++ [dstr ida typ] |}.
Proof.
  intros Hin Hv Hp pointee node. rewrite add_S.
  rewrite (bool_decide_eq_false_2 _ Hin), Hv, bind_unfold.
  cbn [orb worklist_add]. rewrite Hp, bind_unfold.
  unfold in_lib, Pointer_init, Pointer_str, target_str.
  cbn [lib_data worklist trace]. rewrite bind_unfold.
  fold pointee. change Pointer_WIDTH with 8. fold node.
  pose proof (setitem_Ok (tinfo_str ida pointee +:+ " *") node (lib_data st)) as H.
  destruct (setitem _ _ _) as [r d]. simpl in H. subst r. done.
Qed.

(** A struct whose only member is a pointer to the struct itself. *)
Lemma add_self_pointer (s p : tinfo_t) (data : TypeLib) fuel :
  takes_struct_branch ida s = true ->
  get_udt_nmembers ida s = 1 ->
  member_type (find_udt_member ida s 0) = p ->
  is_void ida p = false -> is_ptr ida p = true ->
  get_pointed_object ida p = s ->
  dstr ida p <> dstr ida s ->
  tinfo_str ida s +:+ " *" = dstr ida p ->
  data !! dstr ida s = None -> data !! dstr ida p = None ->
  (3 <= fuel)%nat ->
  let m := find_udt_member ida s 0 in
  let field := NField self (member_name m) (dstr ida p) 8 in
  let layout :=
    if bool_decide (member_offset m = 0) then [field]
    else [NPadding (member_offset m / 8); field] in
  exists st',
    add_fresh ida self fuel s data = (Ok tt, st') /\
    trace st' = [dstr ida s; dstr ida p] /\
    lib_data st'
    = <[dstr ida s := NStruct self (Some (dstr ida s)) layout (sum_of_sizes layout)]>
        (<[dstr ida p := NPointer self (TInfo s) (dstr ida p) 8]> data).
Proof.
  unfold takes_struct_branch. rewrite !andb_true_iff, !negb_true_iff.
  intros [[[[[Hv Hp] Ha] Hu] Hun] Hs] Hn Hm Hvp Hpp Hpo Hne Hstr Hds Hdp Hfuel.
  destruct fuel as [|[|[|fuel]]]; [lia..|]. clear Hfuel.
  unfold add_fresh. rewrite add_S. cbn [worklist].
  rewrite (bool_decide_eq_false_2 (_ ∈ _)) by set_solver.
  rewrite Hv, bind_unfold. cbn [orb worklist_add lib_data worklist trace app].
  rewrite Hp, Ha, Hu, Hun, Hs, Hn.
  change (seqZ 0 1) with [0].
  cbn [struct_layout]. rewrite Hm.
  rewrite !bind_unfold.
  rewrite add_S. cbn [worklist].
  rewrite (bool_decide_eq_false_2 (_ ∈ _)) by set_solver.
  rewrite Hvp, bind_unfold. cbn [orb worklist_add lib_data worklist trace app].
  rewrite Hpp, Hpo.
  rewrite bind_unfold.
  unfold in_lib at 1. cbn [lib_data worklist trace].
  unfold Pointer_init, Pointer_str, target_str. rewrite Hstr.
  rewrite bind_unfold, (setitem_absent _ _ _ Hdp).
  cbn [ret].
  rewrite add_S. cbn [worklist].
  rewrite (bool_decide_eq_true_2 (_ ∈ _)) by set_solver.
  cbn [orb]. rewrite bind_unfold.
  rewrite (in_lib_Field_init_present _ _ _
             (NPointer self (TInfo s) (dstr ida p) Pointer_WIDTH))
    by (cbn [lib_data]; apply lookup_insert_eq).
  cbn [ret node_size]. rewrite bind_unfold.
  unfold in_lib, Struct_init. cbn [lib_data worklist trace].
  rewrite bind_unfold, setitem_absent by (by rewrite lookup_insert_ne).
  cbn [ret].
  eexists. split; [reflexivity|]. cbn [trace lib_data]. split; [done|].
  rewrite layout_size_sum. do 3 f_equal.
  all: unfold Padding_init; change Pointer_WIDTH with 8;
    rewrite Z.sub_0_r;
    destruct (decide (member_offset (find_udt_member ida s 0) = 0)) as [E|E];
    [ rewrite (bool_decide_eq_false_2 (_ ≠ _)) by (intros H; by apply H);
      by rewrite (bool_decide_eq_true_2 (_ = _))
    | rewrite (bool_decide_eq_true_2 (_ ≠ _)) by done;
      by rewrite (bool_decide_eq_false_2 (_ = _)) ].
Qed.

End Cycles.

(** A call that ends need not return: below a struct that points to an
    array of itself, [Array] looks the struct up while the struct is marked
    but not stored yet, and the call ends with [KeyError]. *)
Example add_raises_KeyError :
  (add_fresh ida_pointer_to_array_of_self 7 4 0 ∅).1 = Raise (KeyError "node").
Proof. vm_compute. reflexivity. Qed.

Lemma count_entries_two (P : Node -> bool) (k1 k2 : string) (v1 v2 : Node) :
  k1 <> k2 -> P v1 = true -> P v2 = false ->
  count_entries P (<[k1 := v1]> (<[k2 := v2]> ∅)) = 1%nat /\
  count_entries P (<[k2 := v2]> (<[k1 := v1]> ∅)) = 1%nat.
Proof.
  intros Hne H1 H2. unfold count_entries. split.
  - rewrite map_filter_insert_True by done.
    rewrite map_filter_insert_False by (simpl; congruence).
    rewrite delete_empty, map_filter_empty.
    by rewrite map_size_insert_None, map_size_empty.
  - rewrite map_filter_insert_False by (simpl; congruence).
    rewrite delete_insert_ne, delete_empty by done.
    rewrite map_filter_insert_True by done.
    rewrite map_filter_empty.
    by rewrite map_size_insert_None, map_size_empty.
Qed.

(** The types below [A] in [ida_value_cycle] are the handles 0 to 3. *)
Lemma reach_value_cycle (x : tinfo_t) :
  reach ida_value_cycle 0 x -> (x <= 3)%nat.
Proof.
  induction 1 as [|t c Ht IH Hc]; [lia|].
  destruct t as [|[|[|[|t]]]]; try lia; vm_compute in Hc.
  all: repeat (apply elem_of_cons in Hc as [->|Hc]; [lia|]);
    try by apply elem_of_nil in Hc.
Qed.

(** C3: normalisation ends, and each signature is marked at most once, but
    not every signature below the root is marked. A call that ends may end
    by raising: the constructors raise [KeyError] for a name that is not
    stored, and only when the call returns has every type below the root
    other than void been marked. The outcome is the same for every budget
    above the number of signatures. The recursion into a pointee starts
    with the [Pointer] node stored and the pointer marked. A struct whose
    one member is a pointer to the struct itself is normalised into a
    library holding one [Struct] and one [Pointer]. For
    [struct A { struct B *b; }; struct B { struct A a; int x; };], a finite
    graph of four types with four signatures, [add] on [A] raises
    [KeyError('A')]: the field [a] of [B] looks [A] up while [A] is marked
    and not stored yet. [int] is never marked, and the library is left with
    the [Pointer] alone, without any [Struct]. *)
Theorem normalization_ends_visits_at_most_once :
  (forall ida self root (data : TypeLib) (U : gset string) fuel,
      within ida U root ->
      (size U < fuel)%nat ->
      exists r st',
        add_fresh ida self fuel root data = (r, st') /\
        (r = Ok tt \/ exists e, r = Raise e) /\
        NoDup (trace st') /\
        worklist st' = list_to_set (trace st') /\
        (r = Ok tt ->
         (forall x y, reach ida root x -> reach ida root y ->
                      dstr ida x = dstr ida y -> x = y) ->
         forall x, reach ida root x -> is_void ida x = false ->
                   dstr ida x ∈ trace st')) /\
  (forall ida self root (data : TypeLib) (U : gset string) fuel fuel',
      within ida U root ->
      (size U < fuel)%nat -> (size U < fuel')%nat ->
      add_fresh ida self fuel' root data = add_fresh ida self fuel root data) /\
  (forall ida self fuel typ st,
      dstr ida typ ∉ worklist st -> is_void ida typ = false ->
      is_ptr ida typ = true ->
      let pointee := get_pointed_object ida typ in
      let node := NPointer self (TInfo pointee) (tinfo_str ida pointee +:+ " *") 8 in
      add ida self (S fuel) typ st
      = add ida self fuel pointee
          {| lib_data := (setitem (tinfo_str ida pointee +:+ " *") node (lib_data st)).2;
             worklist := {[dstr ida typ]} ∪ worklist st;
             trace := trace st ++ [dstr ida typ] |}) /\
  (forall ida self (s p : tinfo_t) fuel,
      takes_struct_branch ida s = true ->
      get_udt_nmembers ida s = 1 ->
      member_type (find_udt_member ida s 0) = p ->
      is_void ida p = false -> is_ptr ida p = true ->
      get_pointed_object ida p = s ->
      dstr ida p <> dstr ida s ->
      tinfo_str ida s +:+ " *" = dstr ida p ->
      (3 <= fuel)%nat ->
      let m := find_udt_member ida s 0 in
      let field := NField self (member_name m) (dstr ida p) 8 in
      let layout :=
        if bool_decide (member_offset m = 0) then [field]
        else [NPadding (member_offset m / 8); field] in
      exists st',
        add_fresh ida self fuel s ∅ = (Ok tt, st') /\
        trace st' = [dstr ida s; dstr ida p] /\
        lib_data st'
        = <[dstr ida s := NStruct self (Some (dstr ida s)) layout (sum_of_sizes layout)]>
            (<[dstr ida p := NPointer self (TInfo s) (dstr ida p) 8]> ∅) /\
        size (lib_data st') = 2%nat /\
        count_entries is_Struct (lib_data st') = 1%nat /\
        count_entries is_Pointer (lib_data st') = 1%nat) /\
  (forall self fuel,
      (4 <= fuel)%nat ->
      within ida_value_cycle {[ "A"; "B *"; "B"; "int" ]} 0 /\
      (forall x y, reach ida_value_cycle 0 x -> reach ida_value_cycle 0 y ->
                   dstr ida_value_cycle x = dstr ida_value_cycle y -> x = y) /\
      reach ida_value_cycle 0 3 /\
      is_void ida_value_cycle 3 = false /\
      exists st',
        add_fresh ida_value_cycle self fuel 0 ∅ = (Raise (KeyError "A"), st') /\
        trace st' = ["A"; "B *"; "B"] /\
        (dstr ida_value_cycle 3 ∉ worklist st') /\
        lib_data st' = {[ "B *" := NPointer self (TInfo 2) "B *" 8 ]} /\
        count_entries is_Struct (lib_data st') = 0%nat).
Proof.
  split; [|split; [|split; [|split]]].
  - intros ida self root data U fuel Hw Hsz.
    destruct (add_fresh ida self fuel root data) as [r st'] eqn:E.
    exists r, st'. split; [done|].
    pose proof (add_fresh_trace ida self fuel root data) as (_ & Hd & Hwl).
    rewrite E in Hd, Hwl. simpl in Hd, Hwl.
    split; [|split; [done|split; [done|]]].
    + pose proof (add_terminates ida self U fuel root
                    {| lib_data := data; worklist := ∅; trace := [] |} Hw) as Hf.
      pose proof (modelled_add ida self fuel root
                    {| lib_data := data; worklist := ∅; trace := [] |}) as Hm.
      unfold add_fresh in E. rewrite E in Hf, Hm. simpl in Hf, Hm.
      destruct r as [[]|e| |].
      * by left.
      * right. by exists e.
      * exfalso. apply Hf; [|done]. simpl.
        replace (U ∖ ∅) with U by set_solver. done.
      * done.
    + intros -> Hinj x Hx Hv.
      apply (elem_of_list_to_set (C := gset string)). rewrite <- Hwl.
      by eapply add_fresh_marks_reachable.
  - intros ida self root data U fuel fuel' Hw Hf Hf'. unfold add_fresh.
    assert (forall n, (size U < n)%nat ->
              (add ida self n root
                 {| lib_data := data; worklist := ∅; trace := [] |}).1 <> OutOfFuel)
      as Hend.
    { intros n Hn. apply (add_terminates ida self U); [done|]. simpl.
      replace (U ∖ ∅) with U by set_solver. done. }
    destruct (Nat.le_ge_cases fuel fuel') as [Hle|Hle].
    + apply add_fuel_mono; [done|by apply Hend].
    + symmetry. apply add_fuel_mono; [done|by apply Hend].
  - intros. by apply add_pointer_order.
  - intros ida self s p fuel Hs Hn Hm Hvp Hpp Hpo Hne Hstr Hfuel.
    destruct (add_self_pointer ida self s p ∅ fuel) as (st' & E & Ht & Hl);
      try done.
    exists st'. split; [done|]. split; [done|]. split; [done|].
    rewrite Hl. split.
    + rewrite map_size_insert_None, map_size_insert_None, map_size_empty;
        [done|done|]. by rewrite lookup_insert_ne.
    + split.
      * eapply (proj1 (count_entries_two is_Struct _ _ _ _ _ _ _)).
      * eapply (proj2 (count_entries_two is_Pointer _ _ _ _ _ _ _)).
  - intros self fuel Hfuel.
    split; [intros t _; destruct t as [|[|[|t]]]; simpl; set_solver|].
    split.
    { intros x y Hx%reach_value_cycle Hy%reach_value_cycle.
      destruct x as [|[|[|[|x]]]]; [| | | |lia];
        destruct y as [|[|[|[|y]]]]; try lia; simpl; congruence. }
    split.
    { apply (reach_child _ _ 2%nat); [|vm_compute; set_solver].
      apply (reach_child _ _ 1%nat); [|vm_compute; set_solver].
      apply (reach_child _ _ 0%nat); [apply reach_root|vm_compute; set_solver]. }
    split; [done|].
    unfold add_fresh.
    rewrite (add_fuel_mono ida_value_cycle self 4 fuel) by (done || vm_compute; done).
    eexists. split; [vm_compute; reflexivity|].
    cbn [trace worklist lib_data]. split; [done|].
    split; [vm_compute; set_solver|]. split; [vm_compute; reflexivity|].
    vm_compute. reflexivity.
  Unshelve. all: done.
Qed.

Lemma normalization_ends_visits_at_most_once_witness :
  (exists r st',
      add_fresh ida_self_pointer 7 3 0 ∅ = (r, st') /\
      (r = Ok tt \/ exists e, r = Raise e) /\
      NoDup (trace st') /\
      worklist st' = list_to_set (trace st')) /\
  (exists st',
      add_fresh ida_self_pointer 7 3 0 ∅ = (Ok tt, st') /\
      trace st' = ["node"; "node *"] /\
      size (lib_data st') = 2%nat /\
      count_entries is_Struct (lib_data st') = 1%nat /\
      count_entries is_Pointer (lib_data st') = 1%nat) /\
  (exists st',
      add_fresh ida_value_cycle 7 4 0 ∅ = (Raise (KeyError "A"), st') /\
      trace st' = ["A"; "B *"; "B"] /\
      ("int" ∉ worklist st') /\
      lib_data st' = {[ "B *" := NPointer 7 (TInfo 2) "B *" 8 ]}).
Proof.
  split; [|split].
  - destruct (proj1 normalization_ends_visits_at_most_once
                ida_self_pointer 7%nat 0%nat ∅ {[ "node"; "node *" ]} 3%nat)
      as (r & st' & E & Hr & Hd & Hw & _).
    + intros t _. destruct t as [|t]; simpl; set_solver.
    + vm_compute. lia.
    + exists r, st'. auto.
  - destruct (proj1 (proj2 (proj2 (proj2 normalization_ends_visits_at_most_once)))
                ida_self_pointer 7%nat 0%nat 1%nat 3%nat)
      as (st' & E & Ht & _ & Hs & Hc1 & Hc2);
      [reflexivity| reflexivity | reflexivity | reflexivity | reflexivity
      | reflexivity | discriminate | reflexivity | lia |].
    exists st'. auto.
  - destruct (proj2 (proj2 (proj2 (proj2 normalization_ends_visits_at_most_once)))
                7%nat 4%nat)
      as (_ & _ & _ & _ & st' & E & Ht & Hw & Hl & _); [lia|].
    exists st'. auto.
Defined.

(** ** The codec *)

Lemma decode_JObj ida pairs :
  decode ida (JObj pairs) =
  match outcome_mapM (decode_pair ida) pairs with
  | Ok d => as_typeinfo ida d
  | Raise e => Raise e
  | OutOfFuel => OutOfFuel
  | OutOfModel => OutOfModel
  end.
Proof. reflexivity. Qed.

Lemma decode_JArr ida items :
  decode ida (JArr items) =
  match outcome_mapM (decode ida) items with
  | Ok vs => Ok (PList vs)
  | Raise e => Raise e
  | OutOfFuel => OutOfFuel
  | OutOfModel => OutOfModel
  end.
Proof. reflexivity. Qed.

Lemma encode_TypeError_or_Ok (n : Node) :
  encode n = Raise TypeError \/ exists j, encode n = Ok j.
Proof.
  induction n as
    [l n s|l bt n s|l t n s|l n t s|s|l n layout s IH|l n ms p s IHm IHp|]
    using Node_nested_ind; simpl; eauto.
  - destruct t; eauto.
  - assert (outcome_mapM encode layout = Raise TypeError
            \/ exists js, outcome_mapM encode layout = Ok js) as [->| [js ->]]; eauto.
    induction IH as [|x xs Hx _ IHxs]; simpl; [eauto|].
    destruct Hx as [->|[j ->]]; [eauto|].
    destruct IHxs as [->|[js ->]]; eauto.
  - assert (outcome_mapM encode ms = Raise TypeError
            \/ exists js, outcome_mapM encode ms = Ok js) as [->| [js ->]]; eauto.
    { induction IHm as [|x xs Hx _ IHxs]; simpl; [eauto|].
      destruct Hx as [->|[j ->]]; [eauto|].
      destruct IHxs as [->|[js ->]]; eauto. }
    destruct p as [q|]; simpl in *; [|eauto].
    destruct IHp as [->|[j ->]]; eauto.
Qed.

Lemma decode_items ida (ns : list Node) js :
  Forall (roundtrip_outcome ida) ns ->
  outcome_mapM encode ns = Ok js ->
  outcome_mapM (decode ida) js = Raise TypeError
  \/ exists vs, outcome_mapM (decode ida) js = Ok vs.
Proof.
  intros H. revert js. induction H as [|x xs Hx _ IH]; intros js E; simpl in E.
  - injection E as <-. simpl. eauto.
  - destruct (encode x) as [j| | |] eqn:Ex; try discriminate.
    destruct (outcome_mapM encode xs) as [js'| | |] eqn:Exs; try discriminate.
    injection E as <-. simpl. rewrite (Hx j Ex).
    destruct (node_lib x); [eauto|].
    destruct (IH js' eq_refl) as [->|[vs ->]]; eauto.
Qed.

Lemma decode_encode ida (n : Node) : roundtrip_outcome ida n.
Proof.
  induction n as
    [l n s|l bt n s|l t n s|l n t s|s|l n layout s IH|l n ms p s IHm IHp|]
    using Node_nested_ind; intros j E; simpl in E.
  - injection E as <-. by destruct n.
  - injection E as <-. done.
  - destruct t; [|discriminate]. injection E as <-. done.
  - injection E as <-. done.
  - injection E as <-. done.
  - destruct (outcome_mapM encode layout) as [js| | |] eqn:El; try discriminate.
    injection E as <-. rewrite decode_JObj. cbn [outcome_mapM].
    unfold decode_pair. cbn [fst snd].
    assert (decode ida (json_of_name n) = Ok (match n with Some x => PStr x | None => PNone end)) as ->
      by (by destruct n).
    rewrite decode_JArr.
    destruct (decode_items ida layout js IH El) as [->|[vs ->]]; [done|]. 
    by destruct n.
  - destruct (outcome_mapM encode ms) as [js| | |] eqn:El; try discriminate.
    destruct (match p with Some q => encode q | None => Ok JNull end) as [jp| | |] eqn:Ep;
      try discriminate.
    injection E as <-. rewrite decode_JObj. cbn [outcome_mapM].
    unfold decode_pair. cbn [fst snd].
    assert (decode ida (json_of_name n) = Ok (match n with Some x => PStr x | None => PNone end)) as ->
      by (by destruct n).
    rewrite decode_JArr.
    destruct (decode_items ida ms js IHm El) as [->|[vs ->]]; [done|].
    assert (decode ida jp = Raise TypeError \/ exists v, decode ida jp = Ok v) as [->|[v ->]].
    { destruct p as [q|]; simpl in *.
      - rewrite (IHp jp Ep). destruct (node_lib q); eauto.
      - injection Ep as <-. simpl. eauto. }
    + done.
    + by destruct n.
  - injection E as <-. done.
Qed.

Lemma roundtrip_unfold ida (n : Node) :
  roundtrip ida n =
  match encode n with
  | Ok j => decode ida j
  | Raise e => Raise e
  | OutOfFuel => OutOfFuel
  | OutOfModel => OutOfModel
  end.
Proof. reflexivity. Qed.

(** C1, on the code: [decode(encode(node))] gives the node back only for
    [UDT.Padding] and [Void]. For every node that carries a catalog
    ([TypeInfo], [Array], [Pointer], [UDT.Field], [Struct], [Union]) it
    raises [TypeError]: the hook calls [_from_json(d)] on a method declared
    [_from_json(cls, lib, d)], and [decode] has no catalog to pass. For the
    primitive [int] of size 4 the encoding is
    [{"T":0,"n":"int","s":4}] and decoding it raises. *)
Theorem roundtrip_raises_TypeError :
  (forall ida node lib,
      node_lib node = Some lib -> roundtrip ida node = Raise TypeError) /\
  (forall ida node,
      node_lib node = None -> roundtrip ida node = Ok (PNode node)) /\
  (forall ida lib,
      encode (NTypeInfo lib (Some "int") 4)
      = Ok (JObj [("T", JInt 0); ("n", JStr "int"); ("s", JInt 4)]) /\
      decode ida (JObj [("T", JInt 0); ("n", JStr "int"); ("s", JInt 4)])
      = Raise TypeError).
Proof.
  split; [|split].
  - intros ida node lib Hl. rewrite roundtrip_unfold.
    destruct (encode_TypeError_or_Ok node) as [->|[j E]]; [done|].
    rewrite E, (decode_encode ida node j E), Hl. done.
  - intros ida node Hl. rewrite roundtrip_unfold.
    destruct node; try discriminate; simpl; done.
  - intros ida lib. split; reflexivity.
Qed.

Lemma roundtrip_raises_TypeError_witness :
  roundtrip ida_self_pointer
    (NStruct 1 (Some "pair")
       [NField 1 "a" "int" 4; NPadding 4; NField 1 "b" "int" 4] 12)
  = Raise TypeError /\
  roundtrip ida_self_pointer (NPadding 4) = Ok (PNode (NPadding 4)).
Proof.
  split.
  - apply (proj1 roundtrip_raises_TypeError ida_self_pointer _ 1%nat).
    reflexivity.
  - apply (proj1 (proj2 roundtrip_raises_TypeError) ida_self_pointer).
    reflexivity.
Defined.

Lemma as_typeinfo_catalog_class ida (d : dict) T :
  dict_get "T" d = Some (PInt T) -> T ∈ [0; 1; 2; 3; 5; 6] ->
  as_typeinfo ida d = Raise TypeError.
Proof.
  intros Hd H. unfold as_typeinfo. rewrite Hd.
  repeat (apply elem_of_cons in H as [->|H]; [reflexivity|]).
  by apply not_elem_of_nil in H.
Qed.

Lemma subscript_present {St} (d : dict) key v (st : St) :
  dict_get key d = Some v -> subscript d key st = (Ok v, st).
Proof. intros H. unfold subscript. by rewrite H. Qed.

(** C2, on the code: [decode] takes the encoded document only. The hook
    dispatches on [d["T"]]; for the six classes whose [_from_json] expects a
    catalog the call [cls._from_json(d)] raises [TypeError], so nothing is
    reconstructed and no catalog is written; discriminants 4 and 7 build a
    [Padding] and [Void]; any other integer raises [KeyError]. The
    classmethods themselves, given a catalog, do what the claim says of
    [Array] and [Field]: they need the referenced name to resolve, and end
    in [KeyError] otherwise. *)
Theorem decode_dispatch_has_no_catalog :
  (forall ida (d : dict) T,
      dict_get "T" d = Some (PInt T) -> T ∈ [0; 1; 2; 3; 5; 6] ->
      as_typeinfo ida d = Raise TypeError) /\
  (forall ida (d : dict) size,
      dict_get "T" d = Some (PInt 4) -> dict_get "s" d = Some (PInt size) ->
      as_typeinfo ida d = Ok (PNode (NPadding size))) /\
  (forall ida (d : dict),
      dict_get "T" d = Some (PInt 7) -> as_typeinfo ida d = Ok (PNode NVoid)) /\
  (forall ida (d : dict) T,
      dict_get "T" d = Some (PInt T) -> ~ (0 <= T <= 7) ->
      as_typeinfo ida d = Raise KeyError_tag) /\
  (forall ida,
      decode ida (JObj [("T", JInt 1); ("b", JStr "int"); ("n", JInt 10)])
      = Raise TypeError) /\
  (forall lib (d : dict) base n (data : TypeLib),
      dict_get "b" d = Some (PStr base) -> dict_get "n" d = Some (PInt n) ->
      Array_from_json lib d data =
      match data !! base with
      | Some ty =>
          let self := NArray lib base n (node_size ty * n) in
          (Ok self, (setitem (Array_str base n) self data).2)
      | None => (Raise (KeyError base), data)
      end) /\
  (forall lib (d : dict) name type_name (data : TypeLib),
      dict_get "n" d = Some (PStr name) -> dict_get "t" d = Some (PStr type_name) ->
      Field_from_json lib d data =
      match data !! type_name with
      | Some ty => (Ok (NField lib name type_name (node_size ty)), data)
      | None => (Raise (KeyError type_name), data)
      end).
Proof.
  split; [|split; [|split; [|split; [|split; [|split]]]]].
  - intros ida d T HT Hin. by apply (as_typeinfo_catalog_class ida d T).
  - intros ida d size HT Hs. unfold as_typeinfo. rewrite HT.
    change (class_table ida 4) with (Some (Only_d Padding_from_json)).
    unfold call_from_json, Padding_from_json.
    rewrite bind_unfold, (subscript_present _ _ _ _ Hs). done.
  - intros ida d HT. unfold as_typeinfo. rewrite HT. done.
  - intros ida d T HT Hr. unfold as_typeinfo. rewrite HT.
    unfold class_table.
    repeat (rewrite bool_decide_eq_false_2 by lia).
    reflexivity.
  - intros ida. reflexivity.
  - intros lib d base n data Hb Hn.
    unfold Array_from_json, Array_init, bind, subscript, as_str, as_int, ret, getitem.
    rewrite Hb, Hn.
    destruct (data !! base) as [ty|]; [|done].
    pose proof (setitem_Ok (Array_str base n)
                  (NArray lib base n (node_size ty * n)) data) as H.
    destruct (setitem _ _ _) as [r data']. simpl in *. by subst r.
  - intros lib d name type_name data Hn Ht.
    unfold Field_from_json, Field_init, bind, subscript, as_str, ret, getitem.
    rewrite Hn, Ht.
    by destruct (data !! type_name) as [ty|].
Qed.

Lemma decode_dispatch_has_no_catalog_witness :
  as_typeinfo ida_self_pointer [("T", PInt 3); ("n", PStr "x"); ("t", PStr "int")]
  = Raise TypeError /\
  Field_from_json 1 [("T", PInt 3); ("n", PStr "x"); ("t", PStr "int")] ∅
  = (Raise (KeyError "int"), ∅) /\
  Array_from_json 1 [("T", PInt 1); ("b", PStr "int"); ("n", PInt 10)]
    {[ "int" := NTypeInfo 1 (Some "int") 4 ]}
  = (Ok (NArray 1 "int" 10 40),
     <[ "int[10]" := NArray 1 "int" 10 40 ]> {[ "int" := NTypeInfo 1 (Some "int") 4 ]}).
Proof.
  split; [|split].
  - apply (proj1 decode_dispatch_has_no_catalog ida_self_pointer _ 3);
      [reflexivity|set_solver].
  - exact (proj2 (proj2 (proj2 (proj2 (proj2 (proj2 decode_dispatch_has_no_catalog)))))
             1%nat [("T", PInt 3); ("n", PStr "x"); ("t", PStr "int")]
             "x" "int" ∅ eq_refl eq_refl).
  - exact (proj1 (proj2 (proj2 (proj2 (proj2 (proj2 decode_dispatch_has_no_catalog)))))
             1%nat [("T", PInt 1); ("b", PStr "int"); ("n", PInt 10)]
             "int" 10 {[ "int" := NTypeInfo 1 (Some "int") 4 ]} eq_refl eq_refl).
Defined.

(** * Further properties *)

Lemma member_ok_mono (data data' : TypeLib) m :
  data ⊆ data' -> member_ok data m -> member_ok data' m.
Proof.
  intros Hsub. destruct m; simpl; try done.
  intros (ty & Hty & ->). exists ty. split; [by eapply lookup_weaken|done].
Qed.

Lemma size_ok_mono (data data' : TypeLib) n :
  data ⊆ data' -> size_ok data n -> size_ok data' n.
Proof.
  intros Hsub. destruct n; simpl; try done.
  - intros (ty & Hty & ->). exists ty. split; [by eapply lookup_weaken|done].
  - intros [-> H]. split; [done|].
    eapply Forall_impl; [exact H|]. intros m. by apply member_ok_mono.
  - intros [Hs H]. split; [done|].
    eapply Forall_impl; [exact H|]. intros m. by apply member_ok_mono.
Qed.

Lemma setitem_lookup_inv key item (data : TypeLib) k n :
  (setitem key item data).2 !! k = Some n ->
  data !! k = Some n \/ (k = key /\ n = item /\ data !! key = None).
Proof.
  unfold setitem. destruct (contains key data) eqn:E; simpl; [by left|].
  apply contains_false in E.
  destruct (decide (k = key)) as [->|Hne].
  - rewrite lookup_insert_eq. intros [= <-]. right. done.
  - rewrite lookup_insert_ne by done. by left.
Qed.

Lemma well_keyed_setitem self key item (data : TypeLib) :
  well_keyed self data -> node_key item = Some key -> node_lib item = Some self ->
  well_keyed self (setitem key item data).2.
Proof.
  intros Hwk Hk Hl k n [H|(-> & -> & _)]%setitem_lookup_inv; [by apply Hwk|done].
Qed.

Lemma coherent_setitem key item (data : TypeLib) :
  coherent data -> size_ok data item -> coherent (setitem key item data).2.
Proof.
  intros Hc Hi k n H. apply (size_ok_mono data); [apply setitem_subseteq|].
  apply setitem_lookup_inv in H as [H|(-> & -> & _)]; [by eapply Hc|done].
Qed.

Lemma catalog_ok_setitem self key item (data : TypeLib) :
  catalog_ok self data ->
  node_key item = Some key -> node_lib item = Some self -> size_ok data item ->
  catalog_ok self (setitem key item data).2.
Proof.
  intros [H1 H2] Hk Hl Hs. split; [by apply well_keyed_setitem|by apply coherent_setitem].
Qed.

Lemma catalog_ok_TypeInfo_init self name size (data : TypeLib) :
  catalog_ok self data ->
  catalog_ok self (TypeInfo_init self (Some name) size data).2.
Proof.
  intros H. unfold TypeInfo_init. rewrite bind_unfold.
  pose proof (catalog_ok_setitem self name (NTypeInfo self (Some name) size) data H
                eq_refl eq_refl I) as H'.
  pose proof (setitem_Ok name (NTypeInfo self (Some name) size) data) as HOk.
  destruct (setitem _ _ _) as [r d]. simpl in *. by subst r.
Qed.

Lemma catalog_ok_Pointer_init ida self t (data : TypeLib) :
  catalog_ok self data -> catalog_ok self (Pointer_init ida self t data).2.
Proof.
  intros H. unfold Pointer_init. rewrite bind_unfold.
  pose proof (catalog_ok_setitem self (Pointer_str ida t)
                (NPointer self t (Pointer_str ida t) Pointer_WIDTH) data H
                eq_refl eq_refl eq_refl) as H'.
  pose proof (setitem_Ok (Pointer_str ida t)
                (NPointer self t (Pointer_str ida t) Pointer_WIDTH) data) as HOk.
  destruct (setitem _ _ _) as [r d]. simpl in *. by subst r.
Qed.

Lemma catalog_ok_Array_init self base n (data : TypeLib) :
  catalog_ok self data -> catalog_ok self (Array_init self base n data).2.
Proof.
  intros H. unfold Array_init. rewrite bind_unfold. unfold getitem.
  destruct (data !! base) as [ty|] eqn:E; [|done]. rewrite bind_unfold.
  assert (size_ok data (NArray self base n (node_size ty * n))) as Hs
    by (simpl; eauto).
  pose proof (catalog_ok_setitem self (Array_str base n)
                (NArray self base n (node_size ty * n)) data H
                eq_refl eq_refl Hs) as H'.
  pose proof (setitem_Ok (Array_str base n)
                (NArray self base n (node_size ty * n)) data) as HOk.
  destruct (setitem _ _ _) as [r d]. simpl in *. by subst r.
Qed.

Lemma catalog_ok_Struct_init self name layout (data : TypeLib) :
  catalog_ok self data -> Forall (member_ok data) layout ->
  catalog_ok self (Struct_init self (Some name) (Sequence layout) data).2.
Proof.
  intros H Hl. unfold Struct_init. rewrite bind_unfold.
  assert (size_ok data (NStruct self (Some name) layout (layout_size layout))) as Hs
    by (simpl; by rewrite layout_size_sum).
  pose proof (catalog_ok_setitem self name
                (NStruct self (Some name) layout (layout_size layout)) data H
                eq_refl eq_refl Hs) as H'.
  pose proof (setitem_Ok name
                (NStruct self (Some name) layout (layout_size layout)) data) as HOk.
  destruct (setitem _ _ _) as [r d]. simpl in *. by subst r.
Qed.

Lemma catalog_ok_Union_init self name members (data : TypeLib) :
  catalog_ok self data -> Forall (member_ok data) members ->
  catalog_ok self (Union_init self (Some name) (Sequence members) None data).2.
Proof.
  intros H Hl. unfold Union_init. rewrite bind_unfold.
  assert (size_ok data (NUnion self (Some name) members None
                          (union_size members None))) as Hs
    by (split; [apply union_size_spec|done]).
  pose proof (catalog_ok_setitem self name
                (NUnion self (Some name) members None (union_size members None))
                data H eq_refl eq_refl Hs) as H'.
  pose proof (setitem_Ok name
                (NUnion self (Some name) members None (union_size members None))
                data) as HOk.
  destruct (setitem _ _ _) as [r d]. simpl in *. by subst r.
Qed.

Lemma in_lib_lib_data {A} (m : M TypeLib A) st :
  lib_data (in_lib m st).2 = (m (lib_data st)).2.
Proof. unfold in_lib. by destruct (m (lib_data st)). Qed.

Lemma in_lib_Field_init_cases lib name t st :
  (exists ty, lib_data st !! t = Some ty /\
              in_lib (Field_init lib name t) st
              = (Ok (NField lib name t (node_size ty)), st)) \/
  (lib_data st !! t = None /\
   in_lib (Field_init lib name t) st = (Raise (KeyError t), st)).
Proof.
  destruct (lib_data st !! t) as [ty|] eqn:E.
  - left. exists ty. split; [done|]. by apply in_lib_Field_init_present.
  - right. split; [done|]. unfold in_lib, Field_init.
    rewrite (bind_getitem_absent _ _ _ E). by destruct st.
Qed.

Section Invariants.
Context (ida : Provider) (self : lib_id).

Local Abbreviation inv := (lib_ok self).

Lemma union_members_ok (rec : tinfo_t -> M AddState unit) typ ns members st :
  (forall t, ext (rec t)) ->
  (forall t s, inv s -> inv (rec t s).2) ->
  inv st -> Forall (member_ok (lib_data st)) members ->
  inv (union_members ida self rec typ ns members st).2 /\
  forall ms, (union_members ida self rec typ ns members st).1 = Ok ms ->
             Forall (member_ok (lib_data (union_members ida self rec typ ns members st).2)) ms.
Proof.
  intros Hext Hrec. revert members st.
  induction ns as [|n ns IH]; intros members st Hinv Hms; cbn [union_members].
  - split; [done|]. intros ms [= <-]. done.
  - rewrite bind_unfold.
    pose proof (Hrec (member_type (find_udt_member ida typ n)) st Hinv) as Hinv1.
    pose proof (Hext (member_type (find_udt_member ida typ n)) st) as [Hsub _].
    destruct (rec (member_type (find_udt_member ida typ n)) st) as [[[]|e| |] st1];
      simpl in *; try (split; [done|intros; discriminate]).
    rewrite bind_unfold.
    destruct (in_lib_Field_init_cases self (member_name (find_udt_member ida typ n))
                (dstr ida (member_type (find_udt_member ida typ n))) st1)
      as [(ty & Hty & ->)|[_ ->]]; [|split; [done|intros; discriminate]].
    apply IH; [done|].
    apply Forall_app. split.
    + eapply Forall_impl; [exact Hms|]. intros m. by apply member_ok_mono.
    + repeat constructor. simpl. eauto.
Qed.

Lemma struct_layout_ok (rec : tinfo_t -> M AddState unit) typ ns layout next st :
  (forall t, ext (rec t)) ->
  (forall t s, inv s -> inv (rec t s).2) ->
  inv st -> Forall (member_ok (lib_data st)) layout ->
  inv (struct_layout ida self rec typ ns layout next st).2 /\
  forall L, (struct_layout ida self rec typ ns layout next st).1 = Ok L ->
            Forall (member_ok (lib_data (struct_layout ida self rec typ ns layout next st).2)) L.
Proof.
  intros Hext Hrec. revert layout next st.
  induction ns as [|n ns IH]; intros layout next st Hinv Hms; cbn [struct_layout].
  - split; [done|]. intros ms [= <-]. done.
  - rewrite bind_unfold.
    pose proof (Hrec (member_type (find_udt_member ida typ n)) st Hinv) as Hinv1.
    pose proof (Hext (member_type (find_udt_member ida typ n)) st) as [Hsub _].
    destruct (rec (member_type (find_udt_member ida typ n)) st) as [[[]|e| |] st1];
      simpl in *; try (split; [done|intros; discriminate]).
    rewrite bind_unfold.
    destruct (in_lib_Field_init_cases self (member_name (find_udt_member ida typ n))
                (dstr ida (member_type (find_udt_member ida typ n))) st1)
      as [(ty & Hty & ->)|[_ ->]]; [|split; [done|intros; discriminate]].
    apply IH; [done|].
    apply Forall_app. split.
    + assert (Forall (member_ok (lib_data st1)) layout) as Hl.
      { eapply Forall_impl; [exact Hms|]. intros m. by apply member_ok_mono. }
      destruct (bool_decide _); [|done].
      apply Forall_app. split; [done|]. by repeat constructor.
    + repeat constructor. simpl. eauto.
Qed.

(** [add] keeps the catalog well keyed and coherent, whatever its outcome. *)
Lemma add_catalog_ok fuel typ st :
  inv st -> inv (add ida self fuel typ st).2.
Proof.
  revert typ st. induction fuel as [|fuel IH]; intros typ st Hinv; [done|].
  rewrite add_S.
  destruct (bool_decide (dstr ida typ ∈ worklist st) || is_void ida typ); [done|].
  rewrite bind_unfold. cbn [worklist_add].
  set (st1 := {| lib_data := lib_data st;
                 worklist := {[dstr ida typ]} ∪ worklist st;
                 trace := trace st ++ [dstr ida typ] |}).
  assert (inv st1) as Hinv1 by done. clearbody st1. clear Hinv st.
  destruct (is_ptr ida typ).
  { rewrite bind_unfold.
    pose proof (catalog_ok_Pointer_init ida self
                  (TInfo (get_pointed_object ida typ)) (lib_data st1) Hinv1) as H.
    rewrite <- in_lib_lib_data in H.
    destruct (in_lib _ st1) as [[p|e| |] st2]; simpl in *; try done.
    by apply IH. }
  destruct (is_array ida typ).
  { rewrite bind_unfold.
    pose proof (IH (get_array_element ida typ) st1 Hinv1) as H.
    destruct (add ida self fuel _ st1) as [[[]|e| |] st2]; simpl in *; try done.
    rewrite bind_unfold.
    pose proof (catalog_ok_Array_init self
                  (dstr ida (elem_type (get_array_details ida typ)))
                  (nelems (get_array_details ida typ)) (lib_data st2) H) as H'.
    rewrite <- in_lib_lib_data in H'.
    by destruct (in_lib _ st2) as [[p|e| |] st3]. }
  destruct (is_udt ida typ).
  2:{ rewrite bind_unfold.
      pose proof (catalog_ok_TypeInfo_init self (dstr ida typ) (get_size ida typ)
                    (lib_data st1) Hinv1) as H.
      rewrite <- in_lib_lib_data in H.
      by destruct (in_lib _ st1) as [[p|e| |] st2]. }
  destruct (is_union ida typ).
  { rewrite bind_unfold.
    destruct (union_members_ok (add ida self fuel) typ
                (seqZ 0 (get_udt_nmembers ida typ)) [] st1)
      as [H HL]; [apply ext_add|apply IH|done|done|].
    destruct (union_members _ _ _ _ _ _ st1) as [[ms|e| |] st2]; simpl in *; try done.
    rewrite bind_unfold.
    pose proof (catalog_ok_Union_init self (dstr ida typ) ms (lib_data st2) H
                  (HL ms eq_refl)) as H'.
    rewrite <- in_lib_lib_data in H'.
    by destruct (in_lib _ st2) as [[p|e| |] st3]. }
  destruct (is_struct ida typ); [|done].
  rewrite bind_unfold.
  destruct (struct_layout_ok (add ida self fuel) typ
              (seqZ 0 (get_udt_nmembers ida typ)) [] 0 st1)
    as [H HL]; [apply ext_add|apply IH|done|done|].
  destruct (struct_layout _ _ _ _ _ _ _ st1) as [[L|e| |] st2]; simpl in *; try done.
  rewrite bind_unfold.
  pose proof (catalog_ok_Struct_init self (dstr ida typ) L (lib_data st2) H
                (HL L eq_refl)) as H'.
  rewrite <- in_lib_lib_data in H'.
  by destruct (in_lib _ st2) as [[p|e| |] st3].
Qed.

End Invariants.

Lemma roK_ret {St A} (a : A) : raises_only_KeyError (ret (St := St) a).
Proof. intros st. done. Qed.

Lemma roK_bind {St A B} (m : M St A) (k : A -> M St B) :
  raises_only_KeyError m -> (forall a, raises_only_KeyError (k a)) ->
  raises_only_KeyError (bind m k).
Proof.
  intros Hm Hk st. rewrite bind_unfold. specialize (Hm st).
  destruct (m st) as [[a|e| |] st1]; simpl in *; try done. apply Hk.
Qed.

Lemma roK_in_lib {A} (m : M TypeLib A) :
  raises_only_KeyError m -> raises_only_KeyError (in_lib m).
Proof.
  intros Hm st. unfold in_lib. specialize (Hm (lib_data st)).
  by destruct (m (lib_data st)).
Qed.

Lemma roK_setitem key item : raises_only_KeyError (setitem key item).
Proof. intros data. by rewrite setitem_Ok. Qed.

Lemma roK_getitem key : raises_only_KeyError (getitem key).
Proof. intros data. unfold getitem. by destruct (data !! key). Qed.

Ltac roK_step :=
  match goal with
  | |- raises_only_KeyError (match ?x with Some _ => _ | None => _ end) => destruct x
  | |- raises_only_KeyError (if ?b then _ else _) => destruct b
  | |- raises_only_KeyError (bind _ _) => apply roK_bind
  | |- raises_only_KeyError (ret _) => apply roK_ret
  | |- raises_only_KeyError (in_lib _) => apply roK_in_lib
  | |- raises_only_KeyError (setitem _ _) => apply roK_setitem
  | |- raises_only_KeyError (getitem _) => apply roK_getitem
  | |- forall _, _ => intros ?
  end.

Section OnlyKeyError.
Context (ida : Provider) (self : lib_id).

Lemma roK_union_members rec typ ns members :
  (forall t, raises_only_KeyError (rec t)) ->
  raises_only_KeyError (union_members ida self rec typ ns members).
Proof.
  intros Hrec. revert members. induction ns as [|n ns IH]; intros members;
    cbn [union_members]; unfold Field_init;
    repeat first [apply Hrec | apply IH | roK_step].
Qed.

Lemma roK_struct_layout rec typ ns layout next :
  (forall t, raises_only_KeyError (rec t)) ->
  raises_only_KeyError (struct_layout ida self rec typ ns layout next).
Proof.
  intros Hrec. revert layout next.
  induction ns as [|n ns IH]; intros layout next;
    cbn [struct_layout]; unfold Field_init;
    repeat first [apply Hrec | apply IH | roK_step].
Qed.

Lemma roK_add fuel typ : raises_only_KeyError (add ida self fuel typ).
Proof.
  revert typ. induction fuel as [|fuel IH]; intros typ st; [done|].
  rewrite add_S.
  destruct (bool_decide (dstr ida typ ∈ worklist st) || is_void ida typ); [done|].
  revert st.
  match goal with
  | |- forall st, match (?m st).1 with _ => _ end => change (raises_only_KeyError m)
  end.
  apply roK_bind; [intros st; done|]. intros _.
  unfold Pointer_init, Array_init, Union_init, Struct_init, TypeInfo_init.
  repeat first [apply IH
               | apply roK_union_members
               | apply roK_struct_layout
               | roK_step].
Qed.

End OnlyKeyError.

(** ** Normalising again *)

Lemma in_lib_Ok_inv {A} (m : M TypeLib A) st a st' :
  in_lib m st = (Ok a, st') ->
  m (lib_data st) = (Ok a, lib_data st') /\
  worklist st' = worklist st /\ trace st' = trace st.
Proof.
  unfold in_lib. destruct (m (lib_data st)) as [r d]. intros [= -> <-]. done.
Qed.

Lemma in_lib_with_lib {A} (m : M TypeLib A) L st a st' :
  m L = (Ok a, L) -> worklist st' = worklist st -> trace st' = trace st ->
  in_lib m (with_lib L st) = (Ok a, with_lib L st').
Proof.
  intros E Hw Ht. unfold in_lib, with_lib. simpl. rewrite E, Hw, Ht. done.
Qed.

Lemma store_inv key item (data : TypeLib) a data' :
  (let* _ := setitem key item in ret item) data = (Ok a, data') ->
  key ∈ dom data'.
Proof.
  rewrite bind_unfold. pose proof (setitem_lookup key item data) as H.
  pose proof (setitem_Ok key item data) as HOk.
  destruct (setitem key item data) as [r d]. simpl in *. subst r.
  intros [= _ <-]. by apply elem_of_dom.
Qed.

Lemma store_present key item (L : TypeLib) :
  key ∈ dom L -> (let* _ := setitem key item in ret item) L = (Ok item, L).
Proof.
  intros H. rewrite bind_unfold, setitem_present by (by apply elem_of_dom). done.
Qed.

Lemma store_replay key item item' L st a st' :
  in_lib (let* _ := setitem key item in ret item) st = (Ok a, st') ->
  dom (lib_data st') ⊆ dom L ->
  in_lib (let* _ := setitem key item' in ret item') (with_lib L st)
  = (Ok item', with_lib L st').
Proof.
  intros E Hsub. apply in_lib_Ok_inv in E as (E & Hw & Ht).
  apply store_inv in E. apply in_lib_with_lib; [|done..].
  apply store_present. set_solver.
Qed.

Lemma Field_init_replay lib name t L st f st' :
  in_lib (Field_init lib name t) st = (Ok f, st') ->
  dom (lib_data st') ⊆ dom L ->
  exists f', in_lib (Field_init lib name t) (with_lib L st) = (Ok f', with_lib L st').
Proof.
  intros E Hsub. apply in_lib_Field_init_Ok in E as (ty & Hty & -> & ->).
  assert (t ∈ dom L) as [ty' Hty']%elem_of_dom.
  { apply Hsub. apply elem_of_dom. eauto. }
  exists (NField lib name t (node_size ty')).
  by apply in_lib_Field_init_present.
Qed.

Lemma Array_init_replay lib base n L st a st' :
  in_lib (Array_init lib base n) st = (Ok a, st') ->
  dom (lib_data st') ⊆ dom L ->
  exists a', in_lib (Array_init lib base n) (with_lib L st) = (Ok a', with_lib L st').
Proof.
  intros E Hsub. apply in_lib_Ok_inv in E as (E & Hw & Ht).
  unfold Array_init in E. apply bind_Ok_inv in E as (ty & d1 & E1 & E).
  unfold getitem in E1. destruct (lib_data st !! base) as [ty0|] eqn:Hb; [|discriminate].
  injection E1 as <- <-.
  pose proof (store_inv _ _ _ _ _ E) as Hk.
  assert (lib_data st ⊆ lib_data st') as Hgrow.
  { pose proof (lib_grows_Array_init lib base n (lib_data st)) as H.
    unfold Array_init in H. rewrite (bind_getitem_present _ _ _ _ Hb), E in H. done. }
  assert (base ∈ dom L) as [ty' Hty']%elem_of_dom.
  { apply Hsub. apply elem_of_dom. exists ty0. by eapply lookup_weaken. }
  exists (NArray lib base n (node_size ty' * n)).
  apply in_lib_with_lib; [|done..].
  unfold Array_init. rewrite (bind_getitem_present _ _ _ _ Hty').
  apply store_present. set_solver.
Qed.

Lemma ext_dom st st' : extends st st' -> dom (lib_data st) ⊆ dom (lib_data st').
Proof. intros [H _]. by apply subseteq_dom. Qed.

Section Replay.
Context (ida : Provider) (self : lib_id).

Lemma union_members_replay (rec : tinfo_t -> M AddState unit) L typ ns members members' st ms st' :
  (forall t, ext (rec t)) ->
  (forall t s s', rec t s = (Ok tt, s') -> dom (lib_data s') ⊆ dom L ->
                  rec t (with_lib L s) = (Ok tt, with_lib L s')) ->
  union_members ida self rec typ ns members st = (Ok ms, st') ->
  dom (lib_data st') ⊆ dom L ->
  exists ms', union_members ida self rec typ ns members' (with_lib L st)
              = (Ok ms', with_lib L st').
Proof.
  intros Hext Hrec. revert members members' st.
  induction ns as [|n ns IH]; intros members members' st E Hsub;
    cbn [union_members] in *.
  - injection E as _ <-. by exists members'.
  - apply bind_Ok_inv in E as ([] & st1 & E1 & E).
    apply bind_Ok_inv in E as (f & st2 & E2 & E).
    assert (dom (lib_data st2) ⊆ dom L) as Hsub2.
    { etrans; [|exact Hsub]. apply ext_dom.
      pose proof (ext_union_members ida self rec typ ns (members ++ [f]) Hext st2) as H.
      by rewrite E in H. }
    assert (dom (lib_data st1) ⊆ dom L) as Hsub1.
    { etrans; [|exact Hsub2]. apply ext_dom.
      pose proof (ext_in_lib _ (lib_grows_Field_init self
                    (member_name (find_udt_member ida typ n))
                    (dstr ida (member_type (find_udt_member ida typ n)))) st1) as H.
      by rewrite E2 in H. }
    destruct (Field_init_replay _ _ _ L _ _ _ E2 Hsub2) as [f' E2'].
    destruct (IH (members ++ [f]) (members' ++ [f']) st2 E Hsub) as [ms' E'].
    exists ms'. rewrite bind_unfold, (Hrec _ _ _ E1 Hsub1), bind_unfold, E2'. done.
Qed.

Lemma struct_layout_replay (rec : tinfo_t -> M AddState unit) L typ ns layout layout' next st ms st' :
  (forall t, ext (rec t)) ->
  (forall t s s', rec t s = (Ok tt, s') -> dom (lib_data s') ⊆ dom L ->
                  rec t (with_lib L s) = (Ok tt, with_lib L s')) ->
  struct_layout ida self rec typ ns layout next st = (Ok ms, st') ->
  dom (lib_data st') ⊆ dom L ->
  exists ms', struct_layout ida self rec typ ns layout' next (with_lib L st)
              = (Ok ms', with_lib L st').
Proof.
  intros Hext Hrec. revert layout layout' next st.
  induction ns as [|n ns IH]; intros layout layout' next st E Hsub;
    cbn [struct_layout] in *.
  - injection E as _ <-. by exists layout'.
  - apply bind_Ok_inv in E as ([] & st1 & E1 & E).
    apply bind_Ok_inv in E as (f & st2 & E2 & E).
    assert (dom (lib_data st2) ⊆ dom L) as Hsub2.
    { etrans; [|exact Hsub]. apply ext_dom.
      match type of E with
      | struct_layout _ _ _ _ _ ?l ?nx _ = _ =>
          pose proof (ext_struct_layout ida self rec typ ns l nx Hext st2) as H
      end.
      by rewrite E in H. }
    assert (dom (lib_data st1) ⊆ dom L) as Hsub1.
    { etrans; [|exact Hsub2]. apply ext_dom.
      pose proof (ext_in_lib _ (lib_grows_Field_init self
                    (member_name (find_udt_member ida typ n))
                    (dstr ida (member_type (find_udt_member ida typ n)))) st1) as H.
      by rewrite E2 in H. }
    destruct (Field_init_replay _ _ _ L _ _ _ E2 Hsub2) as [f' E2'].
    edestruct (IH _
                 ((if bool_decide (member_offset (find_udt_member ida typ n) ≠ next)
                   then layout' ++ [Padding_init ((member_offset (find_udt_member ida typ n) - next) / 8)]
                   else layout') ++ [f'])
                 (member_offset (find_udt_member ida typ n)
                  + member_size (find_udt_member ida typ n)) st2 E Hsub) as [ms' E'].
    exists ms'. rewrite bind_unfold, (Hrec _ _ _ E1 Hsub1), bind_unfold, E2'. done.
Qed.

(** A call that returned returns again, and changes nothing, in any library
    that already has all the names the first call left. *)
Lemma add_replay fuel typ st st' L :
  add ida self fuel typ st = (Ok tt, st') ->
  dom (lib_data st') ⊆ dom L ->
  add ida self fuel typ (with_lib L st) = (Ok tt, with_lib L st').
Proof.
  revert typ st st'. induction fuel as [|fuel IH]; intros typ st st' E Hsub;
    [discriminate|].
  rewrite add_S in *. cbn [with_lib worklist].
  destruct (bool_decide (dstr ida typ ∈ worklist st) || is_void ida typ).
  { by injection E as <-. }
  rewrite bind_unfold in *. cbn [worklist_add lib_data worklist trace] in *.
  set (st1 := {| lib_data := lib_data st;
                 worklist := {[dstr ida typ]} ∪ worklist st;
                 trace := trace st ++ [dstr ida typ] |}) in *.
  match goal with
  | |- _ ?s = _ => change s with (with_lib L st1)
  end.
  clearbody st1. clear st.
  assert (forall (k : M AddState unit) s r s',
             ext k -> k s = (r, s') -> dom (lib_data s') ⊆ dom L ->
             dom (lib_data s) ⊆ dom L) as Hback.
  { intros k s r s' Hk Ek Hs. etrans; [|exact Hs]. apply ext_dom.
    specialize (Hk s). by rewrite Ek in Hk. }
  destruct (is_ptr ida typ).
  { apply bind_Ok_inv in E as (p & st2 & E2 & E).
    pose proof (Hback _ _ _ _ (ext_add ida self fuel _) E Hsub) as Hsub2.
    rewrite bind_unfold.
    unfold Pointer_init in *.
    rewrite (store_replay _ _ _ L _ _ _ E2 Hsub2). by apply IH. }
  destruct (is_array ida typ).
  { apply bind_Ok_inv in E as ([] & st2 & E2 & E).
    apply bind_Ok_inv in E as (a & st3 & E3 & E). injection E as <-.
    destruct (Array_init_replay _ _ _ L _ _ _ E3 Hsub) as [a' E3'].
    assert (dom (lib_data st2) ⊆ dom L) as Hsub2.
    { etrans; [|exact Hsub]. apply ext_dom.
      pose proof (ext_in_lib _ (lib_grows_Array_init self
                    (dstr ida (elem_type (get_array_details ida typ)))
                    (nelems (get_array_details ida typ))) st2) as H.
      by rewrite E3 in H. }
    rewrite bind_unfold, (IH _ _ _ E2 Hsub2), bind_unfold, E3'. done. }
  destruct (is_udt ida typ).
  2:{ apply bind_Ok_inv in E as (a & st2 & E2 & E). injection E as <-.
      rewrite bind_unfold. unfold TypeInfo_init in *.
      by rewrite (store_replay _ _ _ L _ _ _ E2 Hsub). }
  destruct (is_union ida typ).
  { apply bind_Ok_inv in E as (ms & st2 & E2 & E).
    apply bind_Ok_inv in E as (a & st3 & E3 & E). injection E as <-.
    assert (dom (lib_data st2) ⊆ dom L) as Hsub2.
    { etrans; [|exact Hsub]. apply ext_dom.
      pose proof (ext_in_lib _ (lib_grows_Union_init self (Some (dstr ida typ)) (Sequence ms) None) st2) as H.
      by rewrite E3 in H. }
    destruct (union_members_replay (add ida self fuel) L typ
                (seqZ 0 (get_udt_nmembers ida typ)) [] [] st1 ms st2)
      as [ms' E2']; [apply ext_add|apply IH|done|done|].
    rewrite bind_unfold, E2', bind_unfold. unfold Union_init in *.
    by rewrite (store_replay _ _ _ L _ _ _ E3 Hsub). }
  destruct (is_struct ida typ); [|by injection E as <-].
  apply bind_Ok_inv in E as (ms & st2 & E2 & E).
  apply bind_Ok_inv in E as (a & st3 & E3 & E). injection E as <-.
  assert (dom (lib_data st2) ⊆ dom L) as Hsub2.
  { etrans; [|exact Hsub]. apply ext_dom.
    pose proof (ext_in_lib _ (lib_grows_Struct_init self (Some (dstr ida typ)) (Sequence ms)) st2) as H.
    by rewrite E3 in H. }
  destruct (struct_layout_replay (add ida self fuel) L typ
              (seqZ 0 (get_udt_nmembers ida typ)) [] [] 0 st1 ms st2)
    as [ms' E2']; [apply ext_add|apply IH|done|done|].
  rewrite bind_unfold, E2', bind_unfold. unfold Struct_init in *.
  by rewrite (store_replay _ _ _ L _ _ _ E3 Hsub).
Qed.

End Replay.

Lemma string_length_app (s1 s2 : string) :
  String.length (s1 +:+ s2) = (String.length s1 + String.length s2)%nat.
Proof. induction s1 as [|c s1 IH]; simpl; [done|]. by rewrite IH. Qed.

Lemma Array_str_ne base n : Array_str base n <> base.
Proof.
  intros E. apply (f_equal String.length) in E. unfold Array_str in E.
  rewrite !string_length_app in E. simpl in E. lia.
Qed.

Section Shapes.
Context (ida : Provider) (self : lib_id).

(** X7: an array of a leaf type is normalised into two entries: the
    element type with the size the provider reports, and the [Array], stored
    under [str(self)], whose size is the element size times the count. *)
Theorem array_normalization (a e : tinfo_t) (n : Z) (data : TypeLib) fuel :
  is_void ida a = false -> is_ptr ida a = false -> is_array ida a = true ->
  get_array_element ida a = e -> is_leaf ida e = true ->
  dstr ida e <> dstr ida a ->
  dstr ida (elem_type (get_array_details ida a)) = dstr ida e ->
  nelems (get_array_details ida a) = n ->
  data !! dstr ida e = None ->
  data !! Array_str (dstr ida e) n = None ->
  (2 <= fuel)%nat ->
  exists st',
    add_fresh ida self fuel a data = (Ok tt, st') /\
    trace st' = [dstr ida a; dstr ida e] /\
    lib_data st'
    = <[Array_str (dstr ida e) n :=
          NArray self (dstr ida e) n (get_size ida e * n)]>
        (<[dstr ida e := NTypeInfo self (Some (dstr ida e)) (get_size ida e)]> data).
Proof.
  unfold is_leaf. rewrite !andb_true_iff, !negb_true_iff.
  intros Hv Hp Ha He [[[Hve Hpe] Hae] Hue] Hne Hd Hn Hde Hda Hfuel.
  destruct fuel as [|[|fuel]]; [lia..|]. clear Hfuel.
  unfold add_fresh. rewrite add_S. cbn [worklist].
  rewrite (bool_decide_eq_false_2 (_ ∈ _)) by set_solver.
  rewrite Hv, bind_unfold. cbn [orb worklist_add lib_data worklist trace app].
  rewrite Hp, Ha, He, Hd, Hn.
  rewrite bind_unfold, add_S. cbn [worklist].
  rewrite (bool_decide_eq_false_2 (_ ∈ _)) by set_solver.
  rewrite Hve, bind_unfold. cbn [orb worklist_add lib_data worklist trace app].
  rewrite Hpe, Hae, Hue, bind_unfold.
  unfold in_lib at 1, TypeInfo_init. cbn [lib_data worklist trace].
  rewrite bind_unfold, (setitem_absent _ _ _ Hde). cbn [ret].
  rewrite bind_unfold.
  unfold in_lib, Array_init. cbn [lib_data worklist trace].
  rewrite (bind_getitem_present _ (NTypeInfo self (Some (dstr ida e)) (get_size ida e)))
    by apply lookup_insert_eq.
  rewrite bind_unfold, setitem_absent.
  2:{ rewrite lookup_insert_ne; [done|]. intros E. by apply (Array_str_ne (dstr ida e) n). }
  cbn [ret node_size]. eexists. split; [reflexivity|]. done.
Qed.

(** The loop of the union branch: one field per member, in order. *)
Lemma union_members_spec rec typ ns members st ms st' :
  (forall t, ext (rec t)) ->
  union_members ida self rec typ ns members st = (Ok ms, st') ->
  extends st st' /\
  ms = members ++ (member_field ida self (lib_data st') <$> (find_udt_member ida typ <$> ns)).
Proof.
  intros Hext. revert members st.
  induction ns as [|n ns IH]; intros members st E; cbn [union_members] in E.
  - injection E as <- <-. split; [reflexivity|]. by rewrite app_nil_r.
  - apply bind_Ok_inv in E as ([] & st1 & E1 & E).
    apply bind_Ok_inv in E as (f & st2 & E2 & E).
    apply in_lib_Field_init_Ok in E2 as (ty & Hty & -> & ->).
    apply IH in E as [Hx ->].
    assert (extends st st1) as Hx1.
    { pose proof (Hext (member_type (find_udt_member ida typ n)) st) as H.
      by rewrite E1 in H. }
    split; [by etrans|].
    rewrite !fmap_cons. unfold member_field at 2.
    rewrite (extends_lookup _ _ _ _ Hx Hty). simpl.
    by rewrite <- app_assoc.
Qed.

Lemma union_members_of_leaves own fuel typ ns members st :
  (forall n, n ∈ ns ->
      is_leaf ida (member_type (find_udt_member ida typ n)) = true /\
      dstr ida (member_type (find_udt_member ida typ n)) <> own) ->
  members_inv own st ->
  exists ms st',
    union_members ida self (add ida self (S fuel)) typ ns members st
    = (Ok ms, st') /\ members_inv own st'.
Proof.
  revert members st. induction ns as [|n ns IH];
    intros members st Hleaf Hinv; cbn [union_members].
  - by exists members, st.
  - destruct (Hleaf n ltac:(set_solver)) as [Hl Hne].
    destruct (add_leaf ida self own fuel _ st Hl Hne Hinv) as (st1 & E1 & Hinv1 & [ty Hty]).
    rewrite bind_unfold, E1, bind_unfold.
    rewrite (in_lib_Field_init_present _ _ _ ty) by done.
    apply IH; [|done]. intros; apply Hleaf; set_solver.
Qed.

Lemma member_field_ext (data data' : TypeLib) (ms : list udt_member_t) :
  (forall m, m ∈ ms ->
             data !! dstr ida (member_type m) = data' !! dstr ida (member_type m)) ->
  member_field ida self data <$> ms = member_field ida self data' <$> ms.
Proof.
  intros H. apply list_fmap_ext. intros i m Hm. unfold member_field.
  rewrite (H m); [done|]. by eapply list_elem_of_lookup_2.
Qed.

(** X8: a union of leaf types is normalised into a [Union] with one field
    per member, in order, no padding, and the greatest member size as its
    size (0 without members); the offsets of the members play no part. *)
Theorem union_normalization typ (data : TypeLib) fuel :
  union_of_leaves ida typ = true ->
  data !! dstr ida typ = None ->
  (2 <= fuel)%nat ->
  exists st' size,
    add_fresh ida self fuel typ data = (Ok tt, st') /\
    let members := member_field ida self (lib_data st') <$> udt_members ida typ in
    lib_data st' !! dstr ida typ
    = Some (NUnion self (Some (dstr ida typ)) members None size) /\
    greatest_of (node_size <$> members) size.
Proof.
  unfold union_of_leaves. rewrite !andb_true_iff, !negb_true_iff, forallb_forall.
  intros [[[[[Hv Hp] Ha] Hu] Hun] Hleaf0] Hnone Hfuel.
  assert (forall m, m ∈ udt_members ida typ ->
            is_leaf ida (member_type m) = true /\
            dstr ida (member_type m) <> dstr ida typ) as Hleaf.
  { intros m Hm%list_elem_of_In. apply Hleaf0 in Hm.
    apply andb_true_iff in Hm as [Hl Hd]. by apply bool_decide_eq_true in Hd. }
  clear Hleaf0.
  destruct fuel as [|[|fuel]]; [lia..|]. clear Hfuel.
  unfold add_fresh. rewrite add_S. cbn [worklist].
  rewrite (bool_decide_eq_false_2 (_ ∈ _)) by set_solver.
  rewrite Hv, bind_unfold. cbn [orb worklist_add lib_data worklist trace app].
  rewrite Hp, Ha, Hu, Hun.
  set (st1 := {| lib_data := data; worklist := {[dstr ida typ]} ∪ ∅;
                 trace := [dstr ida typ] |}).
  assert (members_inv (dstr ida typ) st1) as Hinv.
  { split; [set_solver|]. split; [done|]. intros sig Hsig Hne. set_solver. }
  destruct (union_members_of_leaves (dstr ida typ) fuel typ
              (seqZ 0 (get_udt_nmembers ida typ)) [] st1) as (ms & st2 & E & Hinv2);
    [|done|].
  { intros n Hn. apply Hleaf. unfold udt_members.
    apply list_elem_of_fmap. eauto. }
  rewrite bind_unfold, E.
  apply union_members_spec in E as [Hx ->]; [|apply ext_add].
  destruct Hinv2 as (_ & Hnone2 & _).
  rewrite bind_unfold. unfold in_lib, Union_init. rewrite bind_unfold.
  rewrite (setitem_absent _ _ _ Hnone2). cbn -[union_size].
  fold (udt_members ida typ).
  set (ms := member_field ida self (lib_data st2) <$> udt_members ida typ).
  set (N := NUnion self (Some (dstr ida typ)) ms None (union_size ms None)).
  eexists. exists (union_size ms None). split; [reflexivity|]. cbn -[union_size].
  rewrite lookup_insert_eq.
  assert (member_field ida self (<[dstr ida typ := N]> (lib_data st2))
            <$> udt_members ida typ = ms) as ->.
  { symmetry. apply member_field_ext.
    intros m Hm. rewrite lookup_insert_ne; [done|].
    intros Heq. by destruct (Hleaf m Hm) as [_ []]. }
  split; [done|].
  destruct (union_size_spec ms None) as (g & Hg & E'). cbn [from_option] in E'.
  rewrite Z.add_0_r in E'. by rewrite E'.
Qed.

(** The pointer branch stores the [Pointer] first, and nothing that follows
    removes it. *)
Lemma add_pointer_stored fuel typ st :
  dstr ida typ ∉ worklist st -> is_void ida typ = false ->
  is_ptr ida typ = true ->
  let pointee := get_pointed_object ida typ in
  let key := tinfo_str ida pointee +:+ " *" in
  exists p,
    lib_data (add ida self (S fuel) typ st).2 !! key = Some p /\
    (lib_data st !! key = None -> p = NPointer self (TInfo pointee) key 8).
Proof.
  intros Hin Hv Hp pointee key.
  rewrite (add_pointer_order ida self fuel typ st Hin Hv Hp).
  fold pointee. fold key.
  set (node := NPointer self (TInfo pointee) key 8).
  set (st2 := {| lib_data := (setitem key node (lib_data st)).2;
                 worklist := {[dstr ida typ]} ∪ worklist st;
                 trace := trace st ++ [dstr ida typ] |}).
  destruct (setitem_lookup key node (lib_data st)) as [p Hp2].
  exists p. split.
  - eapply extends_lookup; [apply ext_add|]. exact Hp2.
  - intros Hnone. rewrite (setitem_absent _ _ _ Hnone) in Hp2. simpl in Hp2.
    rewrite lookup_insert_eq in Hp2. by injection Hp2 as <-.
Qed.

(** X10: a pointer to void is normalised into the [Pointer] alone: the call
    returns, only the pointer's signature is marked, and nothing is stored
    for void. *)
Theorem pointer_to_void fuel typ (data : TypeLib) :
  is_void ida typ = false -> is_ptr ida typ = true ->
  is_void ida (get_pointed_object ida typ) = true ->
  (2 <= fuel)%nat ->
  let key := tinfo_str ida (get_pointed_object ida typ) +:+ " *" in
  add_fresh ida self fuel typ data
  = (Ok tt,
     {| lib_data := (setitem key (NPointer self (TInfo (get_pointed_object ida typ)) key 8)
                       data).2;
        worklist := {[dstr ida typ]} ∪ ∅;
        trace := [dstr ida typ] |}).
Proof.
  intros Hv Hp Hvp Hfuel key.
  destruct fuel as [|[|fuel]]; [lia..|]. clear Hfuel.
  unfold add_fresh. rewrite add_pointer_order by (done || set_solver).
  cbn [lib_data worklist trace app]. fold key.
  rewrite add_S, Hvp, orb_true_r. done.
Qed.

End Shapes.

(** ** The size of a struct and the end of its last member *)

Lemma last_end_cons start m ms :
  last_end start (m :: ms) = last_end (member_end m) ms.
Proof. reflexivity. Qed.

Lemma struct_extent ida self (data : TypeLib) (start : Z) ms :
  (8 | start) ->
  byte_members ida data ms ->
  8 * sum_of_sizes (expected_layout ida self data start ms)
  = last_end start ms - start.
Proof.
  intros Hs H. revert start Hs. induction H as [|m ms [Ho (ty & Hty & Hsz)] _ IH];
    intros start Hs.
  - unfold expected_layout, last_end. simpl. lia.
  - rewrite expected_layout_cons, sum_of_sizes_app, last_end_cons.
    assert (8 | member_end m) as He.
    { unfold member_end. rewrite Hsz. apply Z.divide_add_r; [done|].
      by apply Z.divide_factor_l. }
    rewrite Z.mul_add_distr_l, (IH _ He).
    unfold member_entries. rewrite Hty. simpl.
    destruct Ho as [o Ho]. destruct Hs as [s Hs].
    destruct (bool_decide (member_offset m = start)) eqn:E.
    + apply bool_decide_eq_true in E. simpl. unfold member_end. lia.
    + simpl. unfold member_end.
      replace (member_offset m - start) with ((o - s) * 8) by lia.
      rewrite Z.div_mul by lia. lia.
Qed.

(** ** Which nodes can be encoded *)

Lemma outcome_mapM_encode_cases (ns : list Node) :
  Forall (fun n => if holds_tinfo n then encode n = Raise TypeError
                   else exists j, encode n = Ok j) ns ->
  if existsb holds_tinfo ns then outcome_mapM encode ns = Raise TypeError
  else exists js, outcome_mapM encode ns = Ok js.
Proof.
  induction 1 as [|x xs Hx _ IH]; simpl; [eauto|].
  destruct (holds_tinfo x); simpl.
  - by rewrite Hx.
  - destruct Hx as [j ->]. destruct (existsb holds_tinfo xs).
    + by rewrite IH.
    + destruct IH as [js ->]. eauto.
Qed.

Lemma encode_cases (n : Node) :
  if holds_tinfo n then encode n = Raise TypeError
  else exists j, encode n = Ok j.
Proof.
  induction n as
    [l n s|l bt n s|l t n s|l n t s|s|l n layout s IH|l n ms p s IHm IHp|]
    using Node_nested_ind; simpl; eauto.
  - destruct t; eauto.
  - apply outcome_mapM_encode_cases in IH.
    destruct (existsb holds_tinfo layout); [by rewrite IH|].
    destruct IH as [js ->]. eauto.
  - apply outcome_mapM_encode_cases in IHm.
    destruct (existsb holds_tinfo ms); simpl; [by rewrite IHm|].
    destruct IHm as [js ->].
    destruct p as [q|]; simpl in *; [|eauto].
    destruct (holds_tinfo q); [by rewrite IHp|].
    destruct IHp as [j ->]. eauto.
Qed.

(** ** The encoding and the semantic fields *)

Lemma outcome_mapM_ext {A B} (f : A -> outcome B) (g : A -> A) (xs ys : list A) :
  Forall (fun x => forall y, g x = g y -> f x = f y) xs ->
  map g xs = map g ys -> outcome_mapM f xs = outcome_mapM f ys.
Proof.
  intros H. revert ys. induction H as [|x xs Hx _ IH]; intros [|y ys] E;
    simpl in *; try discriminate; [done|].
  injection E as E1 E2. by rewrite (Hx y E1), (IH ys E2).
Qed.

Lemma encode_semantic (a b : Node) :
  semantic_fields a = semantic_fields b -> encode a = encode b.
Proof.
  unfold semantic_fields. revert b. induction a as
    [l n s|l bt n s|l t n s|l n t s|s|l n layout s IH|l n ms p s IHm IHp|]
    using Node_nested_ind; intros b; destruct b; simpl;
    intros E; try discriminate; try (injection E as; subst; done).
  - injection E as -> E. by rewrite (outcome_mapM_ext _ _ _ _ IH E).
  - injection E as -> E Ep. rewrite (outcome_mapM_ext _ _ _ _ IHm E).
    destruct p as [q|], padding as [q'|]; simpl in *; try discriminate; [|done].
    injection Ep as Ep. by rewrite (IHp q' Ep).
  - done.
Qed.

Lemma outcome_mapM_inj {A B} (f : A -> outcome B) (g : A -> A) (xs ys : list A) js :
  Forall (fun x => forall y j, f x = Ok j -> f y = Ok j -> g x = g y) xs ->
  outcome_mapM f xs = Ok js -> outcome_mapM f ys = Ok js ->
  map g xs = map g ys.
Proof.
  intros H. revert ys js. induction H as [|x xs Hx _ IH]; intros [|y ys] js E1 E2;
    simpl in *.
  - done.
  - injection E1 as <-. destruct (f y); try discriminate.
    destruct (outcome_mapM f ys); discriminate.
  - injection E2 as <-. destruct (f x); try discriminate.
    destruct (outcome_mapM f xs); discriminate.
  - destruct (f x) as [jx| | |] eqn:Ex; try discriminate.
    destruct (outcome_mapM f xs) as [jxs| | |] eqn:Exs; try discriminate.
    destruct (f y) as [jy| | |] eqn:Ey; try discriminate.
    destruct (outcome_mapM f ys) as [jys| | |] eqn:Eys; try discriminate.
    injection E1 as <-. injection E2 as -> ->.
    f_equal; [by eapply Hx|by eapply IH].
Qed.

Lemma json_of_name_inj (x y : option string) :
  json_of_name x = json_of_name y -> x = y.
Proof. destruct x, y; simpl; intros E; try discriminate; congruence. Qed.

Lemma encode_Ok_JObj (n : Node) j :
  encode n = Ok j -> exists pairs, j = JObj pairs.
Proof.
  destruct n; simpl; intros E;
    repeat match type of E with
           | match ?x with _ => _ end = Ok _ => destruct x; try discriminate E
           end;
    injection E as <-; eauto.
Qed.

Lemma encode_injective (a b : Node) j :
  encode a = Ok j -> encode b = Ok j -> semantic_fields a = semantic_fields b.
Proof.
  unfold semantic_fields. revert b j. induction a as
    [l n s|l bt n s|l t n s|l n t s|s|l n layout s IH|l n ms p s IHm IHp|]
    using Node_nested_ind; intros b j Ea Eb; simpl in Ea.
  - injection Ea as <-. destruct b; simpl in Eb;
      repeat match type of Eb with
             | match ?x with _ => _ end = Ok _ => destruct x; try discriminate Eb
             end; try discriminate Eb.
    injection Eb as En ->. apply json_of_name_inj in En as ->. done.
  - injection Ea as <-. destruct b; simpl in Eb;
      repeat match type of Eb with
             | match ?x with _ => _ end = Ok _ => destruct x; try discriminate Eb
             end; try discriminate Eb.
    injection Eb as -> ->. done.
  - destruct t as [t|t]; [|discriminate]. injection Ea as <-.
    destruct b; simpl in Eb;
      repeat match type of Eb with
             | match ?x with _ => _ end = Ok _ => destruct x; try discriminate Eb
             end; try discriminate Eb.
    injection Eb as ->. done.
  - injection Ea as <-. destruct b; simpl in Eb;
      repeat match type of Eb with
             | match ?x with _ => _ end = Ok _ => destruct x; try discriminate Eb
             end; try discriminate Eb.
    injection Eb as -> ->. done.
  - injection Ea as <-. destruct b; simpl in Eb;
      repeat match type of Eb with
             | match ?x with _ => _ end = Ok _ => destruct x; try discriminate Eb
             end; try discriminate Eb.
    injection Eb as ->. done.
  - destruct (outcome_mapM encode layout) as [js| | |] eqn:El; try discriminate.
    injection Ea as <-. destruct b; simpl in Eb;
      try (destruct target_type_name); try discriminate Eb.
    + destruct (outcome_mapM encode layout0) as [js'| | |] eqn:El'; try discriminate.
      injection Eb as En ->. apply json_of_name_inj in En as ->. simpl. f_equal.
      by eapply (outcome_mapM_inj encode).
    + destruct (outcome_mapM encode members); try discriminate.
      destruct (match padding with Some p => encode p | None => Ok JNull end);
        discriminate.
  - destruct (outcome_mapM encode ms) as [js| | |] eqn:El; try discriminate.
    destruct (match p with Some q => encode q | None => Ok JNull end)
      as [jp| | |] eqn:Ep; try discriminate.
    injection Ea as <-. destruct b; simpl in Eb;
      try (destruct target_type_name); try discriminate Eb.
    + destruct (outcome_mapM encode layout); discriminate.
    + destruct (outcome_mapM encode members) as [js'| | |] eqn:El'; try discriminate.
      destruct (match padding with Some q => encode q | None => Ok JNull end)
        as [jp'| | |] eqn:Ep'; try discriminate.
      injection Eb as En -> ->. apply json_of_name_inj in En as ->. simpl.
      f_equal; [by eapply (outcome_mapM_inj encode)|].
      destruct p as [q|], padding as [q'|]; simpl in *.
      * f_equal. by eapply IHp.
      * injection Ep' as <-. apply encode_Ok_JObj in Ep as [? ?]. discriminate.
      * injection Ep as <-. apply encode_Ok_JObj in Ep' as [? ?]. discriminate.
      * done.
  - injection Ea as <-. destruct b; simpl in Eb;
      repeat match type of Eb with
             | match ?x with _ => _ end = Ok _ => destruct x; try discriminate Eb
             end; try discriminate Eb.
    done.
Qed.

(** ** What [decode] accepts *)

Lemma as_typeinfo_Ok ida (d : dict) v :
  as_typeinfo ida d = Ok v ->
  dict_get "T" d = Some (PInt 4) \/ dict_get "T" d = Some (PInt 7).
Proof.
  unfold as_typeinfo. destruct (dict_get "T" d) as [[|T| | |]|]; try discriminate.
  unfold class_table.
  repeat (case_bool_decide; [subst; simpl; try discriminate; eauto|]).
  discriminate.
Qed.

Lemma as_typeinfo_PNode ida (d : dict) v :
  as_typeinfo ida d = Ok v -> exists n, v = PNode n.
Proof.
  unfold as_typeinfo. destruct (dict_get "T" d) as [[|T| | |]|]; try discriminate.
  destruct (class_table ida T); [|discriminate].
  destruct (call_from_json f d); try discriminate. intros [= <-]. eauto.
Qed.

Lemma decode_Ok_JObj ida pairs v :
  decode ida (JObj pairs) = Ok v ->
  exists d, outcome_mapM (decode_pair ida) pairs = Ok d /\ as_typeinfo ida d = Ok v.
Proof.
  rewrite decode_JObj.
  destruct (outcome_mapM (decode_pair ida) pairs) as [d| | |]; try discriminate.
  eauto.
Qed.

Lemma decode_PInt ida j z : decode ida j = Ok (PInt z) -> j = JInt z.
Proof.
  destruct j; simpl; try discriminate.
  - by intros [= ->].
  - change (match outcome_mapM (decode ida) items with
            | Ok vs => Ok (PList vs) | Raise e => Raise e
            | OutOfFuel => OutOfFuel | OutOfModel => OutOfModel end
            = Ok (PInt z) -> JArr items = JInt z).
    destruct (outcome_mapM (decode ida) items); discriminate.
  - intros E. change (decode ida (JObj pairs) = Ok (PInt z)) in E.
    apply decode_Ok_JObj in E as (d & _ & E).
    apply as_typeinfo_PNode in E as [n E]. discriminate.
Qed.

Lemma outcome_mapM_Ok_cons {A B} (f : A -> outcome B) x xs ys :
  outcome_mapM f (x :: xs) = Ok ys ->
  exists y ys', f x = Ok y /\ outcome_mapM f xs = Ok ys' /\ ys = y :: ys'.
Proof.
  simpl. destruct (f x) as [y| | |]; try discriminate.
  destruct (outcome_mapM f xs) as [ys'| | |]; try discriminate.
  intros [= <-]. eauto.
Qed.

Lemma decode_pair_Ok ida kv kv' :
  decode_pair ida kv = Ok kv' -> kv'.1 = kv.1 /\ decode ida kv.2 = Ok kv'.2.
Proof.
  unfold decode_pair. destruct (decode ida kv.2); try discriminate.
  by intros [= <-].
Qed.

Lemma dict_get_decoded ida pairs (d : dict) key v :
  outcome_mapM (decode_pair ida) pairs = Ok d ->
  dict_get key d = Some v ->
  exists j, json_get key pairs = Some j /\ decode ida j = Ok v.
Proof.
  revert d. induction pairs as [|[k j] pairs IH]; intros d E Hget.
  - injection E as <-. discriminate.
  - apply outcome_mapM_Ok_cons in E as ([k' v'] & d' & Ek & Ed & ->).
    apply decode_pair_Ok in Ek as [Hk Hv]. simpl in Hk, Hv. subst k'.
    simpl in Hget |- *.
    destruct (dict_get key d') as [v0|] eqn:E0.
    + injection Hget as ->. destruct (IH d' Ed E0) as (j0 & -> & Hj0). eauto.
    + assert (json_get key pairs = None) as ->.
      { clear -Ed E0. revert d' Ed E0.
        induction pairs as [|[k1 j1] pairs IH]; intros d' Ed E0; [done|].
        apply outcome_mapM_Ok_cons in Ed as ([k1' v1] & d1 & Ek & Ed & ->).
        apply decode_pair_Ok in Ek as [Hk _]. simpl in Hk. subst k1'.
        simpl in E0 |- *.
        destruct (dict_get key d1) eqn:E1; [discriminate|].
        rewrite (IH d1 Ed E1). by destruct (bool_decide (k1 = key)). }
      destruct (bool_decide (k = key)); [|discriminate].
      injection Hget as ->. eauto.
Qed.

(** X13: [decode] returns only for documents all of whose objects have
    discriminant 4 or 7: a document with any other object, at any depth,
    ends in an exception. *)
Theorem decode_accepts_only_Padding_Void ida (j : json) v :
  decode ida j = Ok v -> only_Padding_Void j = true.
Proof.
  revert v. induction j as [| | |items IH|pairs IH] using json_nested_ind;
    intros v E; try done.
  - rewrite decode_JArr in E.
    destruct (outcome_mapM (decode ida) items) as [vs| | |] eqn:Ei; try discriminate.
    clear E. simpl. revert vs Ei.
    induction IH as [|x xs Hx _ IHxs]; intros vs Ei; [done|].
    apply outcome_mapM_Ok_cons in Ei as (y & ys & Ex & Exs & ->). simpl.
    rewrite (Hx y Ex), (IHxs ys Exs). done.
  - apply decode_Ok_JObj in E as (d & Ed & E).
    simpl. apply andb_true_iff. split.
    + apply as_typeinfo_Ok in E as [E|E];
        destruct (dict_get_decoded ida pairs d "T" _ Ed E) as (jT & -> & HjT);
        apply decode_PInt in HjT as ->; apply bool_decide_eq_true; auto.
    + clear E. revert d Ed.
      induction IH as [|[k x] xs Hx _ IHxs]; intros d Ed; [done|].
      apply outcome_mapM_Ok_cons in Ed as (y & ys & Ex & Exs & ->). simpl.
      apply decode_pair_Ok in Ex as [_ Ex]. simpl in Ex, Hx.
      rewrite (Hx _ Ex), (IHxs ys Exs). done.
Qed.

(** ** [_from_json] after [_to_json] *)

(** X14: for [TypeInfo], [Array], [UDT.Field] and [Pointer] with a string
    target, the classmethod the hook selects for the node's encoding, called
    with a catalog as its signature asks, rebuilds the node: same semantic
    fields, the given catalog, and equal to the original under [==] when
    that is the original's catalog. An [Array] or [Field] needs the name it
    refers to in the catalog. *)
Theorem from_json_inverts_to_json ida (n : Node) (lib' : lib_id) (data : TypeLib) :
  is_flat n = true ->
  (forall r, refers_to n = Some r -> is_Some (data !! r)) ->
  exists pairs d T f n',
    encode n = Ok (JObj pairs) /\
    outcome_mapM (decode_pair ida) pairs = Ok d /\
    dict_get "T" d = Some (PInt T) /\
    class_table ida T = Some (Lib_and_d f) /\
    (f lib' d data).1 = Ok n' /\
    semantic_fields n' = semantic_fields n /\
    node_lib n' = Some lib' /\
    (node_lib n = Some lib' -> node_eq n' n = true).
Proof.
  intros Hflat Href.
  destruct n as [l name s|l b k s|l [t|t] nm s|l nm t s| | | |]; try discriminate.
  - destruct name as [x|].
    + do 3 eexists. exists TypeInfo_from_json, (NTypeInfo lib' (Some x) s).
      split; [reflexivity|]. split; [reflexivity|]. split; [reflexivity|].
      split; [reflexivity|]. split.
      { unfold TypeInfo_from_json, TypeInfo_init, bind, subscript, as_name, as_int, ret.
        simpl.
        pose proof (setitem_Ok x (NTypeInfo lib' (Some x) s) data) as H.
        by destruct (setitem _ _ _) as [r d']; simpl in *; subst r. }
      split; [done|]. split; [done|].
      simpl. intros [= ->]. by rewrite !bool_decide_eq_true_2.
    + do 3 eexists. exists TypeInfo_from_json, (NTypeInfo lib' None s).
      split; [reflexivity|]. split; [reflexivity|]. split; [reflexivity|].
      split; [reflexivity|]. split; [done|].
      split; [done|]. split; [done|].
      simpl. intros [= ->]. by rewrite !bool_decide_eq_true_2.
  - destruct (Href b eq_refl) as [ty Hty].
    do 3 eexists. exists Array_from_json, (NArray lib' b k (node_size ty * k)).
    split; [reflexivity|]. split; [reflexivity|]. split; [reflexivity|].
    split; [reflexivity|]. split.
    { unfold Array_from_json, Array_init, bind, subscript, as_str, as_int, ret, getitem.
      simpl. rewrite Hty.
      pose proof (setitem_Ok (Array_str b k) (NArray lib' b k (node_size ty * k)) data) as H.
      by destruct (setitem _ _ _) as [r d']; simpl in *; subst r. }
    split; [done|]. split; [done|].
    simpl. intros [= ->]. by rewrite !bool_decide_eq_true_2.
  - do 3 eexists.
    exists (Pointer_from_json ida), (NPointer lib' (TName t) (t +:+ " *") 8).
    split; [reflexivity|]. split; [reflexivity|]. split; [reflexivity|].
    split; [reflexivity|]. split.
    { unfold Pointer_from_json, Pointer_init, bind, subscript, as_str, ret. simpl.
      pose proof (setitem_Ok (t +:+ " *") (NPointer lib' (TName t) (t +:+ " *") 8) data) as H.
      unfold Pointer_str, target_str, Pointer_WIDTH.
      by destruct (setitem _ _ _) as [r d']; simpl in *; subst r. }
    split; [done|]. split; [done|].
    simpl. intros [= ->]. by rewrite !bool_decide_eq_true_2.
  - destruct (Href t eq_refl) as [ty Hty].
    do 3 eexists. exists Field_from_json, (NField lib' nm t (node_size ty)).
    split; [reflexivity|]. split; [reflexivity|]. split; [reflexivity|].
    split; [reflexivity|]. split.
    { unfold Field_from_json, Field_init, bind, subscript, as_str, ret, getitem.
      simpl. by rewrite Hty. }
    split; [done|]. split; [done|].
    simpl. intros [= ->]. by rewrite !bool_decide_eq_true_2.
Qed.

Lemma map_ext_fields {B} (h : Node -> B) (xs ys : list Node) :
  Forall (fun x => forall y, fields false x = fields false y -> h x = h y) xs ->
  map (fields false) xs = map (fields false) ys ->
  map h xs = map h ys.
Proof.
  intros H. revert ys. induction H as [|x xs Hx _ IH]; intros [|y ys] E;
    simpl in *; try discriminate; [done|].
  injection E as E1 E2. by rewrite (Hx y E1), (IH ys E2).
Qed.

Lemma node_hash_semantic hn hi hs ht hti ho (a b : Node) :
  semantic_fields a = semantic_fields b ->
  node_hash hn hi hs ht hti ho a = node_hash hn hi hs ht hti ho b.
Proof.
  unfold semantic_fields. revert b. induction a as
    [l n s|l bt n s|l t n s|l n t s|s|l n layout s IH|l n ms p s IHm IHp|]
    using Node_nested_ind; intros b; destruct b; simpl;
    intros E; try discriminate; try (injection E as; subst; done).
  - injection E as -> E.
    assert (map (fun l => ho (node_hash hn hi hs ht hti ho l)) layout
            = map (fun l => ho (node_hash hn hi hs ht hti ho l)) layout0) as ->;
      [|done].
    apply map_ext_fields; [|done].
    eapply Forall_impl; [exact IH|]. intros x Hx y Hy. simpl. by rewrite (Hx y Hy).
  - injection E as -> E Ep.
    assert (map (fun l => ho (node_hash hn hi hs ht hti ho l)) ms
            = map (fun l => ho (node_hash hn hi hs ht hti ho l)) members) as ->.
    { apply map_ext_fields; [|done].
      eapply Forall_impl; [exact IHm|]. intros x Hx y Hy. simpl. by rewrite (Hx y Hy). }
    destruct p as [q|], padding as [q'|]; simpl in *; try discriminate; [|done].
    injection Ep as Ep. by rewrite (IHp q' Ep).
  - done.
Qed.

Lemma foldl_str_ext (h : Node -> string) (xs ys : list Node) (acc : string) :
  Forall (fun x => forall y, fields false x = fields false y -> h x = h y) xs ->
  map (fields false) xs = map (fields false) ys ->
  foldl (fun ret l => ret +:+ h l +:+ "; ") acc xs
  = foldl (fun ret l => ret +:+ h l +:+ "; ") acc ys.
Proof.
  intros H. revert ys acc. induction H as [|x xs Hx _ IH]; intros [|y ys] acc E;
    simpl in *; try discriminate; [done|].
  injection E as E1 E2. by rewrite (Hx y E1), (IH ys _ E2).
Qed.

Lemma node_str_semantic ida (a b : Node) :
  semantic_fields a = semantic_fields b -> node_str ida a = node_str ida b.
Proof.
  unfold semantic_fields. revert b. induction a as
    [l n s|l bt n s|l t n s|l n t s|s|l n layout s IH|l n ms p s IHm IHp|]
    using Node_nested_ind; intros b; destruct b; simpl;
    intros E; try discriminate; try (injection E as; subst; done).
  - injection E as -> E. f_equal. by apply foldl_str_ext.
  - injection E as -> E Ep.
    destruct p as [q|], padding as [q'|]; simpl in *; try discriminate.
    + injection Ep as Ep. rewrite (IHp q' Ep). do 2 f_equal.
      by apply foldl_str_ext.
    + f_equal. by apply foldl_str_ext.
  - done.
Qed.

Example node_str_struct :
  node_str ida_self_pointer
    (NStruct 1 (Some "foo")
       [NField 1 "x" "int" 4; NPadding 4; NField 1 "y" "int" 4] 12)
  = "struct foo { int x; PADDING (4); int y; }".
Proof. vm_compute. reflexivity. Qed.

Lemma catalog_ok_empty self : catalog_ok self ∅.
Proof. split; intros key n H; by rewrite lookup_empty in H. Qed.

(** X1: after [put(key, item)] the catalog contains [key]; when the key was
    new, [get(key)] is [item]; every other name is as before; the catalog
    has at most one entry more and none less. *)
Theorem put_frame (data : TypeLib) (key : string) (item : Node) :
  let data' := (setitem key item data).2 in
  contains key data' = true /\
  (contains key data = false -> getitem key data' = (Ok item, data')) /\
  (forall other, other <> key ->
                 data' !! other = data !! other /\
                 contains other data' = contains other data) /\
  (size data <= size data' <= S (size data))%nat.
Proof.
  intros data'. subst data'. unfold setitem.
  destruct (contains key data) eqn:E; simpl.
  - split; [done|]. split; [done|]. split; [done|]. lia.
  - apply contains_false in E.
    split; [apply contains_true; rewrite lookup_insert_eq; eauto|].
    split; [intros _; apply getitem_present, lookup_insert_eq|].
    split.
    + intros other Hne. unfold contains. by rewrite lookup_insert_ne.
    + rewrite map_size_insert_None by done. lia.
Qed.

Lemma put_frame_witness :
  getitem "int" (setitem "int" (NTypeInfo 1 (Some "int") 4) ∅).2
  = (Ok (NTypeInfo 1 (Some "int") 4),
     (setitem "int" (NTypeInfo 1 (Some "int") 4) ∅).2).
Proof.
  apply (proj1 (proj2 (put_frame ∅ "int" (NTypeInfo 1 (Some "int") 4)))).
  reflexivity.
Defined.

(** X2: [add] never removes or replaces an entry of the library, and never
    unmarks a signature, whatever its outcome. *)
Theorem add_keeps_entries ida self fuel typ (st : AddState) key item :
  lib_data st !! key = Some item ->
  lib_data (add ida self fuel typ st).2 !! key = Some item /\
  worklist st ⊆ worklist (add ida self fuel typ st).2.
Proof.
  intros H. pose proof (ext_add ida self fuel typ st) as Hx. split.
  - by eapply extends_lookup.
  - by apply extends_worklist.
Qed.

Lemma add_keeps_entries_witness :
  lib_data (add_fresh (ida_two_ints 64) 7 2 0
              {[ "int" := NTypeInfo 9 (Some "int") 2 ]}).2 !! "int"
  = Some (NTypeInfo 9 (Some "int") 2).
Proof.
  refine (proj1 (add_keeps_entries (ida_two_ints 64) 7%nat 2%nat 0%nat
                   {| lib_data := {[ "int" := NTypeInfo 9 (Some "int") 2 ]};
                      worklist := ∅; trace := [] |}
                   "int" (NTypeInfo 9 (Some "int") 2) _)).
  vm_compute. reflexivity.
Defined.

(** X3: with a budget above the number of signatures, a call of [add]
    returns or raises [KeyError]; it raises nothing else. *)
Theorem add_returns_or_KeyError ida self root (data : TypeLib)
    (U : gset string) fuel :
  within ida U root ->
  (size U < fuel)%nat ->
  (add_fresh ida self fuel root data).1 = Ok tt \/
  exists key, (add_fresh ida self fuel root data).1 = Raise (KeyError key).
Proof.
  intros Hw Hsz. unfold add_fresh.
  pose proof (roK_add ida self fuel root
                {| lib_data := data; worklist := ∅; trace := [] |}) as HK.
  pose proof (add_terminates ida self U fuel root
                {| lib_data := data; worklist := ∅; trace := [] |} Hw) as Hf.
  destruct (add ida self fuel root _) as [[[]|[k| | |]| |] st']; simpl in *;
    try done; eauto.
  exfalso. apply Hf; [|done]. replace (U ∖ ∅) with U by set_solver. done.
Qed.

Lemma add_returns_or_KeyError_witness :
  (add_fresh ida_pointer_to_array_of_self 7 4 0 ∅).1 = Ok tt \/
  exists key,
    (add_fresh ida_pointer_to_array_of_self 7 4 0 ∅).1 = Raise (KeyError key).
Proof.
  apply (add_returns_or_KeyError ida_pointer_to_array_of_self 7%nat 0%nat ∅
           {[ "node"; "node[2] *"; "node[2]" ]} 4%nat).
  - intros t _. destruct t as [|[|t]]; simpl; set_solver.
  - vm_compute. lia.
Defined.

(** X4: [add] keeps the library well keyed. Starting from a consistent
    library (the empty one is), after the call, returned or raised, every
    entry is stored under its own name ([str(self)] for an [Array]), refers
    to this library, and is never a [UDT.Field], a [UDT.Padding] or
    [Void]. *)
Theorem add_keeps_names ida self fuel typ (data : TypeLib) :
  catalog_ok self data ->
  forall key n,
    lib_data (add_fresh ida self fuel typ data).2 !! key = Some n ->
    node_key n = Some key /\ node_lib n = Some self /\
    match n with
    | NField _ _ _ _ | NPadding _ | NVoid => False
    | _ => True
    end.
Proof.
  intros Hok key n Hn.
  pose proof (add_catalog_ok ida self fuel typ
                {| lib_data := data; worklist := ∅; trace := [] |} Hok) as [Hwk _].
  destruct (Hwk key n Hn) as [Hk Hl]. split; [done|]. split; [done|].
  by destruct n.
Qed.

Lemma add_keeps_names_witness :
  node_key (NStruct 7 (Some "node") [NField 7 "next" "node *" 8] 8)
  = Some "node" /\
  node_lib (NStruct 7 (Some "node") [NField 7 "next" "node *" 8] 8)
  = Some 7%nat /\
  True.
Proof.
  refine (add_keeps_names ida_self_pointer 7%nat 3%nat 0%nat ∅ _ "node"
            (NStruct 7 (Some "node") [NField 7 "next" "node *" 8] 8) _).
  - split; intros key n H; rewrite lookup_empty in H; discriminate H.
  - vm_compute. reflexivity.
Defined.

(** X5: [add] keeps sizes coherent. Starting from a consistent library,
    after the call, returned or raised: a stored [Array] has the size of the
    stored element type times its count, a [Pointer] has size 8, a [Struct]
    has the sum of its layout and a [Union] the greatest member size, and
    each of their fields has the size of the stored type it names. *)
Theorem add_keeps_sizes ida self fuel typ (data : TypeLib) :
  catalog_ok self data ->
  forall key n,
    lib_data (add_fresh ida self fuel typ data).2 !! key = Some n ->
    size_ok (lib_data (add_fresh ida self fuel typ data).2) n.
Proof.
  intros Hok key n Hn.
  pose proof (add_catalog_ok ida self fuel typ
                {| lib_data := data; worklist := ∅; trace := [] |} Hok) as [_ Hc].
  by apply (Hc key n).
Qed.

Lemma add_keeps_sizes_witness :
  size_ok (lib_data (add_fresh ida_union3 7 2 0 ∅).2)
    (NUnion 7 (Some "u")
       [NField 7 "a" "int" 4; NField 7 "b" "long" 8; NField 7 "c" "short" 2]
       None 8) /\
  size_ok (lib_data (add_fresh (ida_two_ints 64) 7 2 0 ∅).2)
    (NStruct 7 (Some "pair")
       [NField 7 "a" "int" 4; NPadding 4; NField 7 "b" "int" 4] 12).
Proof.
  split.
  - refine (add_keeps_sizes ida_union3 7%nat 2%nat 0%nat ∅ _ "u"
              (NUnion 7 (Some "u")
                 [NField 7 "a" "int" 4; NField 7 "b" "long" 8;
                  NField 7 "c" "short" 2] None 8) _).
    + split; intros key n H; rewrite lookup_empty in H; discriminate H.
    + vm_compute. reflexivity.
  - refine (add_keeps_sizes (ida_two_ints 64) 7%nat 2%nat 0%nat ∅ _ "pair"
              (NStruct 7 (Some "pair")
                 [NField 7 "a" "int" 4; NPadding 4; NField 7 "b" "int" 4] 12) _).
    + split; intros key n H; rewrite lookup_empty in H; discriminate H.
    + vm_compute. reflexivity.
Defined.

(** X6: normalising again changes nothing. When a call of [add] has
    returned, the same call on any library that holds all the names the
    first one left returns too, marks the same signatures in the same order
    and leaves that library as it is. *)
Theorem add_again_changes_nothing ida self fuel typ (data : TypeLib) st' :
  add_fresh ida self fuel typ data = (Ok tt, st') ->
  forall L : TypeLib,
    dom (lib_data st') ⊆ dom L ->
    add_fresh ida self fuel typ L = (Ok tt, with_lib L st').
Proof.
  intros E L Hsub. unfold add_fresh in *.
  by apply (add_replay ida self fuel typ _ _ L E).
Qed.

Lemma add_again_changes_nothing_witness :
  add_fresh (ida_two_ints 64) 7 2 0
    (lib_data (add_fresh (ida_two_ints 64) 7 2 0 ∅).2)
  = (Ok tt, with_lib (lib_data (add_fresh (ida_two_ints 64) 7 2 0 ∅).2)
              (add_fresh (ida_two_ints 64) 7 2 0 ∅).2).
Proof.
  apply (add_again_changes_nothing (ida_two_ints 64) 7%nat 2%nat 0%nat ∅).
  - vm_compute. reflexivity.
  - reflexivity.
Defined.

Lemma array_normalization_witness :
  exists st',
    add_fresh ida_int_array 7 2 0 ∅ = (Ok tt, st') /\
    trace st' = ["int[10]"; "int"] /\
    lib_data st'
    = <["int[10]" := NArray 7 "int" 10 40]>
        (<["int" := NTypeInfo 7 (Some "int") 4]> ∅).
Proof.
  apply (array_normalization ida_int_array 7%nat 0%nat 1%nat 10 ∅ 2%nat);
    first [reflexivity | discriminate | lia].
Defined.

Lemma union_normalization_witness :
  exists st',
    add_fresh ida_union3 7 2 0 ∅ = (Ok tt, st') /\
    lib_data st' !! "u"
    = Some (NUnion 7 (Some "u")
              [NField 7 "a" "int" 4; NField 7 "b" "long" 8; NField 7 "c" "short" 2]
              None 8).
Proof.
  destruct (union_normalization ida_union3 7%nat 0%nat ∅ 2%nat)
    as (st' & size & E & Hl & Hg); [reflexivity|reflexivity|lia|].
  exists st'. split; [exact E|].
  vm_compute in E. injection E as <-.
  match type of Hg with
  | greatest_of ?sizes _ =>
      assert (sizes = [4; 8; 2]) as Hm by (vm_compute; reflexivity);
      rewrite Hm in Hg
  end.
  destruct Hg as [Hin Hmax].
  assert (size = 8) as ->.
  { assert (8 <= size) as H8 by (apply Hmax; set_solver).
    repeat (apply elem_of_cons in Hin as [Hin|Hin]; [lia|]).
    by apply elem_of_nil in Hin. }
  vm_compute in Hl. vm_compute. exact Hl.
Defined.

(** X9: the pointer branch stores the [Pointer] before it recurses, so the
    entry is there after the call whatever happened below, also when the
    call raised; a [Pointer] stored by this call has size 8 and holds the
    pointee as a [tinfo_t]. *)
Theorem pointer_stored_whatever_follows ida self fuel typ (st : AddState) :
  dstr ida typ ∉ worklist st -> is_void ida typ = false ->
  is_ptr ida typ = true ->
  let pointee := get_pointed_object ida typ in
  let key := tinfo_str ida pointee +:+ " *" in
  exists p,
    lib_data (add ida self (S fuel) typ st).2 !! key = Some p /\
    (lib_data st !! key = None -> p = NPointer self (TInfo pointee) key 8).
Proof.
  intros Hin Hv Hp pointee key.
  rewrite (add_pointer_order ida self fuel typ st Hin Hv Hp).
  fold pointee. fold key.
  destruct (setitem_lookup key (NPointer self (TInfo pointee) key 8) (lib_data st))
    as [p Hp2].
  exists p. split.
  - eapply extends_lookup; [apply ext_add|]. exact Hp2.
  - intros Hnone. rewrite (setitem_absent _ _ _ Hnone) in Hp2. simpl in Hp2.
    rewrite lookup_insert_eq in Hp2. by injection Hp2 as <-.
Qed.

Lemma pointer_stored_whatever_follows_witness :
  exists p,
    lib_data (add ida_pointer_to_array_of_self 7 3 1
                {| lib_data := ∅; worklist := ∅; trace := [] |}).2
    !! "node[2] *" = Some p /\
    ((∅ : TypeLib) !! "node[2] *" = None ->
     p = NPointer 7 (TInfo 2) "node[2] *" 8).
Proof.
  apply (pointer_stored_whatever_follows ida_pointer_to_array_of_self 7%nat 2%nat 1%nat
           {| lib_data := ∅; worklist := ∅; trace := [] |}).
  - vm_compute. set_solver.
  - reflexivity.
  - reflexivity.
Defined.

Lemma pointer_to_void_witness :
  add_fresh ida_void_pointer 7 2 0 ∅
  = (Ok tt,
     {| lib_data := (setitem "void *" (NPointer 7 (TInfo 1) "void *" 8) ∅).2;
        worklist := {["void *"]} ∪ ∅;
        trace := ["void *"] |}).
Proof.
  apply (pointer_to_void ida_void_pointer 7%nat 2%nat 0%nat ∅).
  - reflexivity.
  - reflexivity.
  - reflexivity.
  - lia.
Defined.

(** X11: [encode] raises [TypeError] exactly for the nodes in which some
    [Pointer] holds a [tinfo_t] target; every other node is encoded as a
    JSON object. A [Pointer] that [add] has just stored is of the first
    kind: it cannot be encoded. *)
Theorem encode_fails_exactly_on_tinfo :
  (forall n : Node,
      (holds_tinfo n = true /\ encode n = Raise TypeError) \/
      (holds_tinfo n = false /\ exists pairs, encode n = Ok (JObj pairs))) /\
  (forall ida self fuel typ (st : AddState),
      dstr ida typ ∉ worklist st -> is_void ida typ = false ->
      is_ptr ida typ = true ->
      lib_data st !! (tinfo_str ida (get_pointed_object ida typ) +:+ " *") = None ->
      exists p,
        lib_data (add ida self (S fuel) typ st).2
        !! (tinfo_str ida (get_pointed_object ida typ) +:+ " *") = Some p /\
        encode p = Raise TypeError).
Proof.
  split.
  - intros n. pose proof (encode_cases n) as H.
    destruct (holds_tinfo n); [by left|]. right. split; [done|].
    destruct H as [j Hj]. destruct (encode_Ok_JObj n j Hj) as [pairs ->]. eauto.
  - intros ida self fuel typ st Hin Hv Hp Hnone.
    destruct (add_pointer_stored ida self fuel typ st Hin Hv Hp) as (p & Hp1 & Hp2).
    exists p. split; [done|]. by rewrite (Hp2 Hnone).
Qed.

Lemma encode_fails_exactly_on_tinfo_witness :
  exists p,
    lib_data (add ida_self_pointer 7 2 1
                {| lib_data := ∅; worklist := ∅; trace := [] |}).2
    !! "node *" = Some p /\
    encode p = Raise TypeError.
Proof.
  apply (proj2 encode_fails_exactly_on_tinfo ida_self_pointer 7%nat 1%nat 1%nat
           {| lib_data := ∅; worklist := ∅; trace := [] |}).
  - vm_compute. set_solver.
  - reflexivity.
  - reflexivity.
  - vm_compute. reflexivity.
Defined.

(** X12: the encoding carries the semantic fields and nothing else: two
    nodes have the same encoding exactly when their semantic fields are
    equal; the catalog, the derived sizes and the derived name of a pointer
    leave no trace in it. *)
Theorem encode_carries_semantic_fields (a b : Node) (j : json) :
  encode a = Ok j ->
  (encode b = Ok j <-> semantic_fields a = semantic_fields b).
Proof.
  intros Ea. split.
  - intros Eb. by apply (encode_injective a b j).
  - intros E. by rewrite <- (encode_semantic a b E).
Qed.

Lemma encode_carries_semantic_fields_witness :
  encode (NArray 2 "int" 10 0)
  = Ok (JObj [("T", JInt 1); ("b", JStr "int"); ("n", JInt 10)]) <->
  semantic_fields (NArray 1 "int" 10 40) = semantic_fields (NArray 2 "int" 10 0).
Proof.
  apply (encode_carries_semantic_fields (NArray 1 "int" 10 40) (NArray 2 "int" 10 0)).
  reflexivity.
Defined.

Lemma decode_accepts_only_Padding_Void_witness :
  only_Padding_Void
    (JArr [JObj [("T", JInt 4); ("s", JInt 3)]; JObj [("T", JInt 7)]; JInt 5]) = true.
Proof.
  apply (decode_accepts_only_Padding_Void ida_self_pointer _
           (PList [PNode (NPadding 3); PNode NVoid; PInt 5])).
  reflexivity.
Defined.

Lemma from_json_inverts_to_json_witness :
  exists pairs d T f n',
    encode (NArray 1 "int" 10 40) = Ok (JObj pairs) /\
    outcome_mapM (decode_pair ida_self_pointer) pairs = Ok d /\
    dict_get "T" d = Some (PInt T) /\
    class_table ida_self_pointer T = Some (Lib_and_d f) /\
    (f 1%nat d ({[ "int" := NTypeInfo 1 (Some "int") 4 ]} : TypeLib)).1 = Ok n' /\
    semantic_fields n' = semantic_fields (NArray 1 "int" 10 40) /\
    node_lib n' = Some 1%nat /\
    (node_lib (NArray 1 "int" 10 40) = Some 1%nat ->
     node_eq n' (NArray 1 "int" 10 40) = true).
Proof.
  apply (from_json_inverts_to_json ida_self_pointer (NArray 1 "int" 10 40) 1%nat
           {[ "int" := NTypeInfo 1 (Some "int") 4 ]}).
  - reflexivity.
  - intros r [= <-]. vm_compute. eauto.
Defined.

(** X15: [__hash__] agrees with [__eq__]: nodes that compare equal return
    the same hash, whatever Python's built-in [hash] is on [None], integers,
    strings, tuples and [tinfo_t]. *)
Theorem hash_agrees_with_eq hash_none hash_int hash_str hash_tuple hash_tinfo
    hash_obj (a b : Node) :
  node_eq a b = true ->
  node_hash hash_none hash_int hash_str hash_tuple hash_tinfo hash_obj a
  = node_hash hash_none hash_int hash_str hash_tuple hash_tinfo hash_obj b.
Proof.
  intros E. apply node_hash_semantic. unfold semantic_fields.
  by apply fields_true_false, node_eq_true_iff.
Qed.

Lemma hash_agrees_with_eq_witness :
  node_hash 0 id (fun s => Z.of_nat (String.length s)) (fun hs => foldr Z.add 0 hs)
    (fun t => Z.of_nat t) id
    (NStruct 1 (Some "s") [NField 1 "x" "int" 4; NPadding 4] 8)
  = node_hash 0 id (fun s => Z.of_nat (String.length s)) (fun hs => foldr Z.add 0 hs)
      (fun t => Z.of_nat t) id
      (NStruct 1 (Some "s") [NField 1 "x" "int" 0; NPadding 4] 0).
Proof.
  apply (hash_agrees_with_eq 0 id (fun s => Z.of_nat (String.length s))
           (fun hs => foldr Z.add 0 hs) (fun t => Z.of_nat t) id).
  reflexivity.
Defined.

(** X16: [__str__] depends on the semantic fields only, so nodes that
    compare equal are rendered alike; and the name under which [Pointer]
    and [Array] store themselves is their rendering. *)
Theorem str_ignores_catalog ida :
  (forall a b : Node,
      semantic_fields a = semantic_fields b -> node_str ida a = node_str ida b) /\
  (forall a b : Node, node_eq a b = true -> node_str ida a = node_str ida b) /\
  (forall lib t (data : TypeLib) p,
      (Pointer_init ida lib t data).1 = Ok p ->
      node_key p = Some (node_str ida p) /\
      is_Some ((Pointer_init ida lib t data).2 !! node_str ida p)) /\
  (forall lib b n (data : TypeLib) a,
      (Array_init lib b n data).1 = Ok a ->
      node_key a = Some (node_str ida a) /\
      is_Some ((Array_init lib b n data).2 !! node_str ida a)).
Proof.
  split; [|split; [|split]].
  - apply node_str_semantic.
  - intros a b E. apply node_str_semantic. unfold semantic_fields.
    by apply fields_true_false, node_eq_true_iff.
  - intros lib t data p. unfold Pointer_init. rewrite bind_unfold.
    pose proof (setitem_lookup (Pointer_str ida t)
                  (NPointer lib t (Pointer_str ida t) Pointer_WIDTH) data) as Hl.
    pose proof (setitem_Ok (Pointer_str ida t)
                  (NPointer lib t (Pointer_str ida t) Pointer_WIDTH) data) as HOk.
    destruct (setitem _ _ _) as [r d]. simpl in *. subst r. simpl.
    intros [= <-]. done.
  - intros lib b n data a. unfold Array_init. rewrite bind_unfold. unfold getitem.
    destruct (data !! b) as [ty|]; [|discriminate]. rewrite bind_unfold.
    pose proof (setitem_lookup (Array_str b n)
                  (NArray lib b n (node_size ty * n)) data) as Hl.
    pose proof (setitem_Ok (Array_str b n)
                  (NArray lib b n (node_size ty * n)) data) as HOk.
    destruct (setitem _ _ _) as [r d]. simpl in *. subst r. simpl.
    intros [= <-]. done.
Qed.

Lemma str_ignores_catalog_witness :
  node_str ida_self_pointer
    (NStruct 1 (Some "foo")
       [NField 1 "x" "int" 4; NPadding 4; NField 1 "y" "int" 4] 12)
  = node_str ida_self_pointer
      (NStruct 2 (Some "foo")
         [NField 2 "x" "int" 0; NPadding 4; NField 2 "y" "int" 0] 0).
Proof.
  apply (proj1 (str_ignores_catalog ida_self_pointer)). reflexivity.
Defined.

(** X17: no trailing padding. For a struct of leaf types whose members
    start and end at byte boundaries with the sizes the library has for
    their types, the size [add] stores is the byte where the last member
    ends, whatever total size the provider reports for the struct. *)
Theorem struct_size_is_end_of_last_member ida self typ (data : TypeLib) fuel :
  struct_of_leaves ida typ = true ->
  data !! dstr ida typ = None ->
  (2 <= fuel)%nat ->
  exists st' layout size,
    add_fresh ida self fuel typ data = (Ok tt, st') /\
    lib_data st' !! dstr ida typ
    = Some (NStruct self (Some (dstr ida typ)) layout size) /\
    (byte_members ida (lib_data st') (udt_members ida typ) ->
     8 * size = last_end 0 (udt_members ida typ)).
Proof.
  intros [Hs Hl]%struct_of_leaves_inv Hnone Hfuel.
  destruct (add_struct_of_leaves ida self typ data fuel Hs Hl Hnone Hfuel)
    as (st' & E & H).
  exists st'. do 2 eexists. split; [done|]. split; [exact H|].
  intros Hb. rewrite (struct_extent ida self _ 0 _ (Z.divide_0_r 8) Hb). lia.
Qed.

Lemma struct_size_is_end_of_last_member_witness :
  exists st' layout size,
    add_fresh (ida_two_ints 64) 7 2 0 ∅ = (Ok tt, st') /\
    lib_data st' !! "pair" = Some (NStruct 7 (Some "pair") layout size) /\
    8 * size = 96.
Proof.
  destruct (struct_size_is_end_of_last_member (ida_two_ints 64) 7%nat 0%nat ∅ 2%nat)
    as (st' & layout & size & E & H & Hb); [reflexivity|reflexivity|lia|].
  exists st', layout, size. split; [exact E|]. split; [exact H|].
  rewrite Hb; [reflexivity|].
  vm_compute in E. injection E as <-.
  apply Forall_cons. split.
  { split; [by exists 0|]. eexists. split; [vm_compute; reflexivity|reflexivity]. }
  apply Forall_cons. split; [|apply Forall_nil_2].
  split; [by exists 8|]. eexists. split; [vm_compute; reflexivity|reflexivity].
Defined.
